(** * The discretised boundary of the stochastic level-set method (Boundary.cpp)

    A shallow embedding of [Boundary::discretise] and of the measures computed
    from its result ([computeAreaFractions], [computeNormalVectors],
    [computePointLengths]), followed by the properties of the specification
    that concern them.

    The C++ type [double] is an interface ([Double]) with two instances:
    [binary64], the IEEE 754 numbers the program runs on, on which the model is
    executable, and [exact], the real numbers, on which the geometric
    identities are stated.  Every definition is written once, for any
    instance.  Indexing a [std::vector] or an array outside its bounds, and
    reading a local array slot that was never written, are errors of the
    model ([Err]). *)

From Stdlib Require Import ZArith List Bool Arith Lia.
From Stdlib Require Import Floats Reals Lra.
Import ListNotations.

Set Warnings "-inexact-float".

(** ** Errors of the model *)

Inductive error : Type :=
| OutOfBounds      (* vector or array index past the end *)
| Uninitialised.   (* read of a local array slot that was never assigned *)

Inductive result (A : Type) : Type :=
| Ok (a : A)
| Err (e : error).
Arguments Ok {A} a.
Arguments Err {A} e.

Definition bind {A B} (c : result A) (k : A -> result B) : result B :=
  match c with
  | Ok a => k a
  | Err e => Err e
  end.

Declare Scope result_scope.
Delimit Scope result_scope with result.
Notation "x <- c ;; k" := (bind c (fun x => k))
  (at level 61, c at next level, right associativity) : result_scope.
Notation "' pat <- c ;; k" := (bind c (fun x => match x with pat => k end))
  (at level 61, pat pattern, c at next level, right associativity) : result_scope.
Open Scope result_scope.

(** [v[i]] as an rvalue, and [v[i] = a]. *)
Definition get {A} (what : error) (l : list A) (i : nat) : result A :=
  match nth_error l i with
  | Some a => Ok a
  | None => Err what
  end.

Fixpoint replace {A} (l : list A) (i : nat) (a : A) : list A :=
  match l, i with
  | [], _ => []
  | _ :: t, O => a :: t
  | h :: t, S i' => h :: replace t i' a
  end.

Definition set {A} (l : list A) (i : nat) (a : A) : result (list A) :=
  if i <? length l then Ok (replace l i a) else Err OutOfBounds.

(** [std::vector::resize]: keeps the leading elements, pads with
    value-initialised ones. *)
Definition resize {A} (dflt : A) (n : nat) (l : list A) : list A :=
  firstn n l ++ repeat dflt (n - length l).

(** [for (unsigned int i=0;i<n;i++) body], threading the state. *)
Fixpoint forFrom {S} (body : nat -> S -> result S) (i k : nat) (s : S) : result S :=
  match k with
  | O => Ok s
  | Datatypes.S k' => s' <- body i s ;; forFrom body (Datatypes.S i) k' s'
  end.

Definition forN {S} (n : nat) (body : nat -> S -> result S) (s : S) : result S :=
  forFrom body 0 n s.

(** ** The type [double] *)

Class Double : Type := {
  double : Type;
  d0 : double;                         (* 0, 0.0 *)
  dhalf : double;                      (* 0.5 *)
  d1 : double;                         (* 1.0 *)
  deps : double;                       (* 1e-6 *)
  d02 : double;                        (* 0.2 *)
  add : double -> double -> double;
  sub : double -> double -> double;
  mul : double -> double -> double;
  div : double -> double -> double;
  opp : double -> double;
  dsqrt : double -> double;            (* sqrt *)
  dabs : double -> double;             (* std::abs *)
  ltb : double -> double -> bool;      (* a < b *)
  leb : double -> double -> bool;      (* a <= b *)
  eqb : double -> double -> bool;      (* a == b *)
  ofNat : nat -> double;               (* unsigned int -> double *)
  toZ : double -> Z                    (* double -> int, towards zero *)
}.

Declare Scope double_scope.
Delimit Scope double_scope with D.
Notation "a + b" := (add a b) : double_scope.
Notation "a - b" := (sub a b) : double_scope.
Notation "a * b" := (mul a b) : double_scope.
Notation "a / b" := (div a b) : double_scope.
Notation "- a" := (opp a) : double_scope.
Notation "a <? b" := (ltb a b) : double_scope.
Notation "a >? b" := (ltb b a) : double_scope.
Notation "a >=? b" := (leb b a) : double_scope.
Notation "a =? b" := (eqb a b) : double_scope.

(** [std::min(a, b)] is [(b < a) ? b : a]. *)
Definition dmin {D : Double} (a b : double) : double :=
  if (b <? a)%D then b else a.

(** *** IEEE 754 binary64 *)

Definition float_toZ (f : float) : Z :=
  match Prim2SF f with
  | S754_finite s m e =>
      let v := match e with
               | Zneg p => Z.shiftr (Zpos m) (Zpos p)
               | _ => Z.shiftl (Zpos m) e
               end in
      if s then Z.opp v else v
  | _ => 0%Z
  end.

#[export] Instance binary64 : Double := {|
  double := float;
  d0 := 0%float;
  dhalf := 0.5%float;
  d1 := 1%float;
  deps := 1e-6%float;
  d02 := 0.2%float;
  add := PrimFloat.add;
  sub := PrimFloat.sub;
  mul := PrimFloat.mul;
  div := PrimFloat.div;
  opp := PrimFloat.opp;
  dsqrt := PrimFloat.sqrt;
  dabs := PrimFloat.abs;
  ltb := PrimFloat.ltb;
  leb := PrimFloat.leb;
  eqb := PrimFloat.eqb;
  ofNat := fun n => PrimFloat.of_uint63 (Uint63.of_Z (Z.of_nat n));
  toZ := float_toZ
|}.

(** *** Exact arithmetic on the reals

    Nothing rounds, overflows or underflows here, and the division of the
    reals gives 0 when the divisor is 0, which no machine does: a statement
    on [exact] is one of real arithmetic.  What the machine does at a zero
    divisor is stated on [binary64]. *)

Definition R_ltb (a b : R) : bool := if Rlt_dec a b then true else false.
Definition R_leb (a b : R) : bool := if Rle_dec a b then true else false.
Definition R_eqb (a b : R) : bool := if Req_dec_T a b then true else false.
Definition R_toZ (a : R) : Z :=
  if Rle_dec 0 a then Int_part a else Z.opp (Int_part (Ropp a)).

#[export] Instance exact : Double := {|
  double := R;
  d0 := 0%R;
  dhalf := (1 / 2)%R;
  d1 := 1%R;
  deps := (1 / 1000000)%R;
  d02 := (1 / 5)%R;
  add := Rplus;
  sub := Rminus;
  mul := Rmult;
  div := Rdiv;
  opp := Ropp;
  dsqrt := R_sqrt.sqrt;
  dabs := Rabs;
  ltb := R_ltb;
  leb := R_leb;
  eqb := R_eqb;
  ofNat := INR;
  toZ := R_toZ
|}.

(** ** Data model (Common.h, Mesh.h, LevelSet.h, Boundary.h) *)

(** Modelled from the spec: Common.h, which declares the status flags, is not
    among the sources.  A node is exactly one of inside, outside, boundary; an
    element is one of inside, outside, ambiguous ([NONE]), centre-inside,
    centre-outside.  The code tests them as bit flags ([status & INSIDE]) and
    recognises a cut edge by [(s1 | s2) == CUT], one node inside and the other
    outside, so the flags are distinct bits and [CUT = INSIDE | OUTSIDE]. *)
Module NodeStatus.
Definition NONE : Z := 0.
Definition INSIDE : Z := 1.
Definition OUTSIDE : Z := 2.
Definition BOUNDARY : Z := 4.
Definition CUT : Z := Z.lor INSIDE OUTSIDE.
End NodeStatus.

Module ElementStatus.
Definition NONE : Z := 0.
Definition INSIDE : Z := 1.
Definition OUTSIDE : Z := 2.
Definition CENTRE_INSIDE : Z := 4.
Definition CENTRE_OUTSIDE : Z := 8.
End ElementStatus.

(** [status & FLAG] used as a condition. *)
Definition flag (status f : Z) : bool := negb (Z.land status f =? 0)%Z.

Module Coord.
(** Modelled from the spec: Common.h, which declares [Coord], is not among the
    sources; a coordinate is the pair of its [x] and [y], as Boundary.cpp
    reads them. *)
Record t (T : Type) : Type := mk { x : T; y : T }.
Arguments x {T} _.
Arguments y {T} _.
End Coord.

(** A counted inline array ([segments[nSegments]], [neighbours[nNeighbours]],
    [boundaryPoints[nBoundaryPoints]], [boundarySegments[nBoundarySegments]])
    is the list of its first [n] slots: resetting the count empties it, a
    write at the count followed by the increment appends.

    The records are over the type [T] of their numbers, [double] in the
    methods. *)
Module BoundaryPoint.
(** Modelled from the spec: the Boundary.h of this version of Boundary.cpp is
    not among the sources (the one there is older); the fields are those that
    Boundary.cpp reads and writes. *)
Record t (T : Type) : Type := mk {
  coord : Coord.t T;
  length : T;
  negativeLimit : T;
  positiveLimit : T;
  isDomain : bool;
  sensitivities : list T;
  normal : T * T;                    (* normal[0], normal[1] *)
  segments : list nat;               (* segments[0 .. nSegments) *)
  neighbours : list nat              (* neighbours[0 .. nNeighbours) *)
}.
Arguments coord {T} _.
Arguments length {T} _.
Arguments negativeLimit {T} _.
Arguments positiveLimit {T} _.
Arguments isDomain {T} _.
Arguments sensitivities {T} _.
Arguments normal {T} _.
Arguments segments {T} _.
Arguments neighbours {T} _.
(** A value-initialised point, as [std::vector::resize] creates it. *)
Definition zero {D : Double} : t double :=
  mk _ (Coord.mk _ d0 d0) d0 d0 d0 false [] (d0, d0) [] [].
Definition addLength {D : Double} (h : double) (p : t double) : t double :=
  mk _ (coord p) (length p + h)%D (negativeLimit p) (positiveLimit p) (isDomain p)
     (sensitivities p) (normal p) (segments p) (neighbours p).
Definition addSegment {T} (s : nat) (p : t T) : t T :=
  mk _ (coord p) (length p) (negativeLimit p) (positiveLimit p) (isDomain p)
     (sensitivities p) (normal p) (segments p ++ [s]) (neighbours p).
Definition addNeighbour {T} (n : nat) (p : t T) : t T :=
  mk _ (coord p) (length p) (negativeLimit p) (positiveLimit p) (isDomain p)
     (sensitivities p) (normal p) (segments p) (neighbours p ++ [n]).
Definition setNormal {T} (n : T * T) (p : t T) : t T :=
  mk _ (coord p) (length p) (negativeLimit p) (positiveLimit p) (isDomain p)
     (sensitivities p) n (segments p) (neighbours p).
End BoundaryPoint.

Module BoundarySegment.
(** Modelled from the spec: the Boundary.h of this version is not among the
    sources; the fields are those that Boundary.cpp reads and writes.  The
    field [weight] is never assigned by the functions modelled here. *)
Record t (T : Type) : Type := mk {
  start : nat;
  end_ : nat;
  element : nat;
  length : T
}.
Arguments start {T} _.
Arguments end_ {T} _.
Arguments element {T} _.
Arguments length {T} _.
Definition zero {D : Double} : t double := mk _ 0 0 0 d0.
End BoundarySegment.

Module Node.
(** Modelled from the spec: Mesh.h is not among the sources; the fields are
    those that Boundary.cpp reads and writes. *)
Record t (T : Type) : Type := mk {
  coord : Coord.t T;
  isActive : bool;                   (* inside the narrow band *)
  isDomain : bool;                   (* on the edge of the domain *)
  status : Z;                        (* NodeStatus *)
  boundaryPoints : list nat          (* boundaryPoints[0 .. nBoundaryPoints) *)
}.
Arguments coord {T} _.
Arguments isActive {T} _.
Arguments isDomain {T} _.
Arguments status {T} _.
Arguments boundaryPoints {T} _.
Definition reset {T} (s : Z) (n : t T) : t T :=
  mk _ (coord n) (isActive n) (isDomain n) s [].
Definition addBoundaryPoint {T} (p : nat) (n : t T) : t T :=
  mk _ (coord n) (isActive n) (isDomain n) (status n) (boundaryPoints n ++ [p]).
End Node.

Module Element.
(** Modelled from the spec: Mesh.h is not among the sources; the fields are
    those that Boundary.cpp reads and writes. *)
Record t (T : Type) : Type := mk {
  coord : Coord.t T;                 (* centre *)
  area : T;
  nodes : nat * nat * nat * nat;     (* nodes[4], anticlockwise from the bottom left *)
  status : Z;                        (* ElementStatus *)
  boundarySegments : list nat        (* boundarySegments[0 .. nBoundarySegments) *)
}.
Arguments coord {T} _.
Arguments area {T} _.
Arguments nodes {T} _.
Arguments status {T} _.
Arguments boundarySegments {T} _.
(** [nodes[j]] for [j < 4]. *)
Definition node {T} (e : t T) (j : nat) : nat :=
  let '(n0, n1, n2, n3) := nodes e in
  match j with 0 => n0 | 1 => n1 | 2 => n2 | _ => n3 end.
Definition reset {T} (s : Z) (e : t T) : t T :=
  mk _ (coord e) (area e) (nodes e) s [].
Definition setStatus {T} (s : Z) (e : t T) : t T :=
  mk _ (coord e) (area e) (nodes e) s (boundarySegments e).
Definition setArea {T} (a : T) (e : t T) : t T :=
  mk _ (coord e) a (nodes e) (status e) (boundarySegments e).
Definition addBoundarySegment {T} (s : nat) (e : t T) : t T :=
  mk _ (coord e) (area e) (nodes e) (status e) (boundarySegments e ++ [s]).
End Element.

Module Mesh.
(** Modelled from the spec: Mesh.h is not among the sources; the fields are
    those that Boundary.cpp reads and writes. *)
Record t (T : Type) : Type := mk {
  nodes : list (Node.t T);
  elements : list (Element.t T);
  nNodes : nat;
  nElements : nat;
  width : nat;
  height : nat;
  xyToIndex : list (list nat)
}.
Arguments nodes {T} _.
Arguments elements {T} _.
Arguments nNodes {T} _.
Arguments nElements {T} _.
Arguments width {T} _.
Arguments height {T} _.
Arguments xyToIndex {T} _.
Definition setNodes {T} (ns : list (Node.t T)) (m : t T) : t T :=
  mk _ ns (elements m) (nNodes m) (nElements m) (width m) (height m) (xyToIndex m).
Definition setElements {T} (es : list (Element.t T)) (m : t T) : t T :=
  mk _ (nodes m) es (nNodes m) (nElements m) (width m) (height m) (xyToIndex m).
End Mesh.

Module LevelSet.
(** Modelled from the spec: LevelSet.h is not among the sources; the fields
    are those that Boundary.cpp reads. *)
Record t (T : Type) : Type := mk {
  signedDistance : list T;
  target : list T;
  moveLimit : T;
  narrowBand : list nat;
  nNarrowBand : nat
}.
Arguments signedDistance {T} _.
Arguments target {T} _.
Arguments moveLimit {T} _.
Arguments narrowBand {T} _.
Arguments nNarrowBand {T} _.
End LevelSet.

Module Boundary.
(** Modelled from the spec: the Boundary.h of this version is not among the
    sources.  The members of [class Boundary] that Boundary.cpp uses; [mesh]
    is the referenced mesh, which the methods mutate in place. *)
Record t (T : Type) : Type := mk {
  points : list (BoundaryPoint.t T);
  segments : list (BoundarySegment.t T);
  nPoints : nat;
  nSegments : nat;
  length : T;
  area : T;
  mesh : Mesh.t T
}.
Arguments points {T} _.
Arguments segments {T} _.
Arguments nPoints {T} _.
Arguments nSegments {T} _.
Arguments length {T} _.
Arguments area {T} _.
Arguments mesh {T} _.
Definition setPoints {T} (ps : list (BoundaryPoint.t T)) (b : t T) : t T :=
  mk _ ps (segments b) (nPoints b) (nSegments b) (length b) (area b) (mesh b).
Definition setSegments {T} (ss : list (BoundarySegment.t T)) (b : t T) : t T :=
  mk _ (points b) ss (nPoints b) (nSegments b) (length b) (area b) (mesh b).
Definition setNPoints {T} (n : nat) (b : t T) : t T :=
  mk _ (points b) (segments b) n (nSegments b) (length b) (area b) (mesh b).
Definition setNSegments {T} (n : nat) (b : t T) : t T :=
  mk _ (points b) (segments b) (nPoints b) n (length b) (area b) (mesh b).
Definition setLength {T} (l : T) (b : t T) : t T :=
  mk _ (points b) (segments b) (nPoints b) (nSegments b) l (area b) (mesh b).
Definition setArea {T} (a : T) (b : t T) : t T :=
  mk _ (points b) (segments b) (nPoints b) (nSegments b) (length b) a (mesh b).
Definition setMesh {T} (m : Mesh.t T) (b : t T) : t T :=
  mk _ (points b) (segments b) (nPoints b) (nSegments b) (length b) (area b) m.
End Boundary.

(** ** Boundary.cpp *)

Section BoundaryMethods.
Context {D : Double}.

Definition getNode (b : Boundary.t double) (n : nat) : result (Node.t double) :=
  get OutOfBounds (Mesh.nodes (Boundary.mesh b)) n.

Definition getElement (b : Boundary.t double) (i : nat) : result (Element.t double) :=
  get OutOfBounds (Mesh.elements (Boundary.mesh b)) i.

Definition getPoint (b : Boundary.t double) (p : nat) : result (BoundaryPoint.t double) :=
  get OutOfBounds (Boundary.points b) p.

(** *** Boundary::computeMeshStatus *)

(** The status of node [i] (lines 662-670). *)
Definition nodeStatus (d : double) : Z :=
  if (dabs d <? deps)%D then NodeStatus.BOUNDARY
  else if (d <? d0)%D then NodeStatus.OUTSIDE
  else NodeStatus.INSIDE.

Definition nodeStatusStep (signedDistance : list double) (i : nat) (m : Mesh.t double)
  : result (Mesh.t double) :=
  nd <- get OutOfBounds (Mesh.nodes m) i ;;
  d <- get OutOfBounds signedDistance i ;;
  ns <- set (Mesh.nodes m) i (Node.reset (nodeStatus d) nd) ;;
  Ok (Mesh.setNodes ns m).

(** One turn of the loop over the four nodes of an element (lines 684-690);
    the state is [(tallyInside, tallyOutside)]. *)
Definition tallyStep (m : Mesh.t double) (e : Element.t double) (j : nat) (t : nat * nat)
  : result (nat * nat) :=
  nd <- get OutOfBounds (Mesh.nodes m) (Element.node e j) ;;
  if flag (Node.status nd) NodeStatus.INSIDE then Ok (S (fst t), snd t)
  else if flag (Node.status nd) NodeStatus.OUTSIDE then Ok (fst t, S (snd t))
  else Ok t.

Definition elementStatus (t : nat * nat) : Z :=
  if (snd t =? 0)%nat then ElementStatus.INSIDE
  else if (fst t =? 0)%nat then ElementStatus.OUTSIDE
  else ElementStatus.NONE.

Definition elementStatusStep (i : nat) (m : Mesh.t double) : result (Mesh.t double) :=
  e <- get OutOfBounds (Mesh.elements m) i ;;
  t <- forN 4 (tallyStep m e) (0, 0)%nat ;;
  es <- set (Mesh.elements m) i (Element.reset (elementStatus t) e) ;;
  Ok (Mesh.setElements es m).

Definition computeMeshStatus (signedDistance : list double) (m : Mesh.t double)
  : result (Mesh.t double) :=
  m1 <- forN (Mesh.nNodes m) (nodeStatusStep signedDistance) m ;;
  forN (Mesh.nElements m1) elementStatusStep m1.

(** *** Boundary::isAdded *)

(** The coordinates of the point at [distance] from [node] along [edge]
    (lines 709-732). *)
Definition edgePoint (c : Coord.t double) (edge : nat) (distance : double) : Coord.t double :=
  if (edge =? 0)%nat then Coord.mk _ (Coord.x c + distance)%D (Coord.y c)
  else if (edge =? 1)%nat then Coord.mk _ (Coord.x c) (Coord.y c + distance)%D
  else if (edge =? 2)%nat then Coord.mk _ (Coord.x c - distance)%D (Coord.y c)
  else Coord.mk _ (Coord.x c) (Coord.y c - distance)%D.

Definition samePoint (p q : Coord.t double) : bool :=
  (dabs (Coord.x p - Coord.x q) <? deps)%D && (dabs (Coord.y p - Coord.y q) <? deps)%D.

(** The search through the points adjacent to the node (lines 735-750):
    the index of the first one within tolerance, -1 when there is none. *)
Fixpoint findPoint (points : list (BoundaryPoint.t double)) (point : Coord.t double) (adjacent : list nat)
  : result Z :=
  match adjacent with
  | [] => Ok (-1)%Z
  | index :: rest =>
      p <- get OutOfBounds points index ;;
      if samePoint point (BoundaryPoint.coord p) then Ok (Z.of_nat index)
      else findPoint points point rest
  end.

(** Returns the coordinates written to the reference [point] with the index. *)
Definition isAdded (b : Boundary.t double) (node edge : nat) (distance : double)
  : result (Coord.t double * Z) :=
  nd <- getNode b node ;;
  let point := edgePoint (Node.coord nd) edge distance in
  index <- findPoint (Boundary.points b) point (Node.boundaryPoints nd) ;;
  Ok (point, index).

(** *** Boundary::initialisePoint *)

Definition initialisePoint (levelSet : LevelSet.t double) (m : Mesh.t double)
  (point : BoundaryPoint.t double) (coord : Coord.t double) : BoundaryPoint.t double :=
  let minX := dmin (Coord.x coord) (ofNat (Mesh.width m) - Coord.x coord)%D in
  let minY := dmin (Coord.y coord) (ofNat (Mesh.height m) - Coord.y coord)%D in
  let minBoundary := dmin minX minY in
  BoundaryPoint.mk _
    coord
    d0
    (if (minBoundary <? dhalf)%D then (- minBoundary)%D
     else (- LevelSet.moveLimit levelSet)%D)
    (LevelSet.moveLimit levelSet)
    ((minBoundary <? dhalf)%D && (minBoundary <? deps)%D)
    (resize d0 2 (BoundaryPoint.sensitivities point))
    (BoundaryPoint.normal point)
    []
    [].

(** *** Boundary::segmentLength *)

Definition distance (p1 p2 : Coord.t double) : double :=
  let dx := (Coord.x p1 - Coord.x p2)%D in
  let dy := (Coord.y p1 - Coord.y p2)%D in
  dsqrt (dx * dx + dy * dy)%D.

Definition segmentLength (b : Boundary.t double) (start end_ : nat) : result double :=
  p1 <- getPoint b start ;;
  p2 <- getPoint b end_ ;;
  Ok (distance (BoundaryPoint.coord p1) (BoundaryPoint.coord p2)).

(** *** Boundary::discretise *)

(** [mesh.nodes[node].boundaryPoints[mesh.nodes[node].nBoundaryPoints] = nPoints;
    mesh.nodes[node].nBoundaryPoints++;] *)
Definition registerPoint (b : Boundary.t double) (node : nat) : result (Boundary.t double) :=
  nd <- getNode b node ;;
  ns <- set (Mesh.nodes (Boundary.mesh b)) node
          (Node.addBoundaryPoint (Boundary.nPoints b) nd) ;;
  Ok (Boundary.setMesh (Mesh.setNodes ns (Boundary.mesh b)) b).

(** [initialisePoint(points[nPoints], coord); nPoints++;] *)
Definition newPoint (levelSet : LevelSet.t double) (b : Boundary.t double) (coord : Coord.t double)
  : result (Boundary.t double) :=
  old <- getPoint b (Boundary.nPoints b) ;;
  ps <- set (Boundary.points b) (Boundary.nPoints b)
          (initialisePoint levelSet (Boundary.mesh b) old coord) ;;
  Ok (Boundary.setNPoints (S (Boundary.nPoints b)) (Boundary.setPoints ps b)).

(** The boundary point lying on a mesh node, created unless it was added
    before; the block is written out five times in the source (lines 145-161,
    167-183, 266-282, 439-455, 462-478).  Returns its index. *)
Definition nodePoint (levelSet : LevelSet.t double) (b : Boundary.t double) (node : nat)
  : result (Boundary.t double * nat) :=
  '(coord, index) <- isAdded b node 0 d0 ;;
  if (index <? 0)%Z then
    b1 <- registerPoint b node ;;
    b2 <- newPoint levelSet b1 coord ;;
    Ok (b2, Boundary.nPoints b)
  else Ok (b, Z.to_nat index).

(** The segment from [start] to [end_] in element [i]: its length, the total
    length, the element's lookup and the segments vector; the block is written
    out eight times in the source (first at lines 188-200). *)
Definition addSegment (b : Boundary.t double) (i start end_ : nat) : result (Boundary.t double) :=
  len <- segmentLength b start end_ ;;
  let segment := BoundarySegment.mk _ start end_ i len in
  let b1 := Boundary.setLength (Boundary.length b + len)%D b in
  e <- getElement b1 i ;;
  es <- set (Mesh.elements (Boundary.mesh b1)) i
          (Element.addBoundarySegment (Boundary.nSegments b1) e) ;;
  let b2 := Boundary.setMesh (Mesh.setElements es (Boundary.mesh b1)) b1 in
  ss <- set (Boundary.segments b2) (Boundary.nSegments b2) segment ;;
  Ok (Boundary.setNSegments (S (Boundary.nSegments b2)) (Boundary.setSegments ss b2)).

(** [isTarget || (mesh.nodes[n1].isActive && mesh.nodes[n2].isActive)] *)
Definition edgeIsActive (isTarget : bool) (b : Boundary.t double) (n1 n2 : nat) : result bool :=
  if isTarget then Ok true
  else
    nd1 <- getNode b n1 ;;
    if Node.isActive nd1 then
      nd2 <- getNode b n2 ;; Ok (Node.isActive nd2)
    else Ok false.

(** One turn of the loop over the edges of element [i] (lines 76-203).  The
    state is the boundary with the local array [boundaryPoints], as the list of
    its [nCut] assigned slots. *)
Definition edgeStep (isTarget : bool) (levelSet : LevelSet.t double)
  (signedDistance : list double) (i j : nat) (s : Boundary.t double * list nat)
  : result (Boundary.t double * list nat) :=
  let '(b, boundaryPoints) := s in
  e <- getElement b i ;;
  let n1 := Element.node e j in
  let n2 := Element.node e (if (j =? 3)%nat then 0 else j + 1)%nat in
  active <- edgeIsActive isTarget b n1 n2 ;;
  if active then
    nd1 <- getNode b n1 ;;
    nd2 <- getNode b n2 ;;
    if (Z.lor (Node.status nd1) (Node.status nd2) =? NodeStatus.CUT)%Z then
      s1 <- get OutOfBounds signedDistance n1 ;;
      s2 <- get OutOfBounds signedDistance n2 ;;
      let d := (s1 / (s1 - s2))%D in
      '(coord, index) <- isAdded b n1 j d ;;
      if (index <? 0)%Z then
        b1 <- registerPoint b n1 ;;
        b2 <- registerPoint b1 n2 ;;
        b3 <- newPoint levelSet b2 coord ;;
        Ok (b3, boundaryPoints ++ [Boundary.nPoints b])
      else Ok (b, boundaryPoints ++ [Z.to_nat index])
    else if flag (Node.status nd1) NodeStatus.BOUNDARY
            && flag (Node.status nd2) NodeStatus.BOUNDARY then
      '(b1, start) <- nodePoint levelSet b n1 ;;
      '(b2, end_) <- nodePoint levelSet b1 n2 ;;
      b3 <- addSegment b2 i start end_ ;;
      Ok (b3, boundaryPoints)
    else Ok s
  else Ok s.

(** [nCut == 1]: one turn of the loop over the nodes (lines 235-302). *)
Definition hasOutsideNeighbour (b : Boundary.t double) (nAfter nBefore : nat) : result bool :=
  na <- getNode b nAfter ;;
  if flag (Node.status na) NodeStatus.OUTSIDE then Ok true
  else nb <- getNode b nBefore ;; Ok (flag (Node.status nb) NodeStatus.OUTSIDE).

Definition oneCutStep (levelSet : LevelSet.t double) (i : nat) (boundaryPoints : list nat)
  (j : nat) (b : Boundary.t double) : result (Boundary.t double) :=
  e <- getElement b i ;;
  let node := Element.node e j in
  nd <- getNode b node ;;
  if flag (Node.status nd) NodeStatus.BOUNDARY then
    let nAfter := Element.node e (if (j =? 3)%nat then 0 else j + 1)%nat in
    let nBefore := Element.node e (if (j =? 0)%nat then 3 else j - 1)%nat in
    out <- hasOutsideNeighbour b nAfter nBefore ;;
    if out then
      start <- get Uninitialised boundaryPoints 0 ;;
      '(b1, index) <- nodePoint levelSet b node ;;
      addSegment b1 i start index
    else Ok b
  else Ok b.

(** [mesh.elements[i].status = status;] *)
Definition setElementStatus (b : Boundary.t double) (i : nat) (status : Z) : result (Boundary.t double) :=
  e <- getElement b i ;;
  es <- set (Mesh.elements (Boundary.mesh b)) i (Element.setStatus status e) ;;
  Ok (Boundary.setMesh (Mesh.setElements es (Boundary.mesh b)) b).

(** [nCut == 4] (lines 307-408). *)
Definition lsfSumStep (signedDistance : list double) (e : Element.t double) (j : nat)
  (lsfSum : double) : result double :=
  d <- get OutOfBounds signedDistance (Element.node e j) ;;
  Ok (lsfSum + d)%D.

Definition fourCuts (signedDistance : list double) (i : nat) (boundaryPoints : list nat)
  (b : Boundary.t double) : result (Boundary.t double) :=
  e <- getElement b i ;;
  lsfSum <- forN 4 (lsfSumStep signedDistance e) d0 ;;
  nd <- getNode b (Element.node e 0) ;;
  let status := Node.status nd in
  p0 <- get Uninitialised boundaryPoints 0 ;;
  b2 <- (if (flag status NodeStatus.INSIDE && (lsfSum >? d0)%D)
            || (flag status NodeStatus.OUTSIDE && (lsfSum <? d0)%D) then
           p1 <- get Uninitialised boundaryPoints 1 ;;
           b1 <- addSegment b i p0 p1 ;;
           p2 <- get Uninitialised boundaryPoints 2 ;;
           p3 <- get Uninitialised boundaryPoints 3 ;;
           addSegment b1 i p2 p3
         else
           p3 <- get Uninitialised boundaryPoints 3 ;;
           b1 <- addSegment b i p0 p3 ;;
           p1 <- get Uninitialised boundaryPoints 1 ;;
           p2 <- get Uninitialised boundaryPoints 2 ;;
           addSegment b1 i p1 p2) ;;
  setElementStatus b2 i (if (lsfSum >? d0)%D then ElementStatus.CENTRE_INSIDE
                        else ElementStatus.CENTRE_OUTSIDE).

(** [nCut == 0] in an element that is not inside (lines 412-496). *)
Definition boundaryNodeStep (b : Boundary.t double) (e : Element.t double) (j : nat)
  (boundaryPoints : list nat) : result (list nat) :=
  let node := Element.node e j in
  nd <- getNode b node ;;
  if flag (Node.status nd) NodeStatus.BOUNDARY then Ok (boundaryPoints ++ [node])
  else Ok boundaryPoints.

Definition diagonal (levelSet : LevelSet.t double) (i : nat) (boundaryPoints : list nat)
  (b : Boundary.t double) : result (Boundary.t double) :=
  e <- getElement b i ;;
  boundaryPoints <- forN 4 (boundaryNodeStep b e) boundaryPoints ;;
  node <- get Uninitialised boundaryPoints 0 ;;
  '(b1, start) <- nodePoint levelSet b node ;;
  node <- get Uninitialised boundaryPoints 1 ;;
  '(b2, end_) <- nodePoint levelSet b1 node ;;
  addSegment b2 i start end_.

(** The segments of element [i] by the number of cut edges (lines 205-496). *)
Definition resolveCuts (levelSet : LevelSet.t double) (signedDistance : list double)
  (i : nat) (boundaryPoints : list nat) (b : Boundary.t double) : result (Boundary.t double) :=
  let nCut := List.length boundaryPoints in
  if (nCut =? 2)%nat then
    start <- get Uninitialised boundaryPoints 0 ;;
    end_ <- get Uninitialised boundaryPoints 1 ;;
    addSegment b i start end_
  else if (nCut =? 1)%nat then
    forN 4 (oneCutStep levelSet i boundaryPoints) b
  else if (nCut =? 4)%nat then
    fourCuts signedDistance i boundaryPoints b
  else if (nCut =? 0)%nat then
    e <- getElement b i ;;
    if negb (Element.status e =? ElementStatus.INSIDE)%Z then
      diagonal levelSet i boundaryPoints b
    else Ok b
  else Ok b.

(** One turn of the loop over the elements (lines 63-498). *)
Definition elementStep (isTarget : bool) (levelSet : LevelSet.t double)
  (signedDistance : list double) (i : nat) (b : Boundary.t double) : result (Boundary.t double) :=
  e <- getElement b i ;;
  if negb (Element.status e =? ElementStatus.OUTSIDE)%Z then
    '(b1, boundaryPoints) <- forN 4 (edgeStep isTarget levelSet signedDistance i) (b, []) ;;
    resolveCuts levelSet signedDistance i boundaryPoints b1
  else Ok b.

(** *** Boundary::computePointLengths *)

(** [points[p].field op= ...], a read and a write of [points[p]]. *)
Definition modifyPoint (f : BoundaryPoint.t double -> BoundaryPoint.t double) (p : nat)
  (b : Boundary.t double) : result (Boundary.t double) :=
  pt <- getPoint b p ;;
  ps <- set (Boundary.points b) p (f pt) ;;
  Ok (Boundary.setPoints ps b).

Definition pointLengthsStep (i : nat) (b : Boundary.t double) : result (Boundary.t double) :=
  s <- get OutOfBounds (Boundary.segments b) i ;;
  let start := BoundarySegment.start s in
  let end_ := BoundarySegment.end_ s in
  let half := (dhalf * BoundarySegment.length s)%D in
  b <- modifyPoint (BoundaryPoint.addLength half) start b ;;
  b <- modifyPoint (BoundaryPoint.addLength half) end_ b ;;
  b <- modifyPoint (BoundaryPoint.addSegment i) start b ;;
  b <- modifyPoint (BoundaryPoint.addSegment i) end_ b ;;
  b <- modifyPoint (BoundaryPoint.addNeighbour end_) start b ;;
  modifyPoint (BoundaryPoint.addNeighbour start) end_ b.

Definition computePointLengths (b : Boundary.t double) : result (Boundary.t double) :=
  forN (Boundary.nSegments b) pointLengthsStep b.

(** [int size = 0.2*mesh.nNodes; size = std::max(4, size);] *)
Definition allocation (m : Mesh.t double) : nat :=
  Z.to_nat (Z.max 4 (toZ (d02 * ofNat (Mesh.nNodes m))%D)).

(** The state on entry to the loop over the elements (lines 36-60). *)
Definition allocate (b : Boundary.t double) : Boundary.t double :=
  let size := allocation (Boundary.mesh b) in
  Boundary.mk _
    (resize BoundaryPoint.zero size (Boundary.points b))
    (resize BoundarySegment.zero size (Boundary.segments b))
    0 0 d0 (Boundary.area b) (Boundary.mesh b).

Definition selectField (isTarget : bool) (levelSet : LevelSet.t double) : list double :=
  if isTarget then LevelSet.target levelSet else LevelSet.signedDistance levelSet.

(** The state after the loop over the elements (line 498). *)
Definition extract (isTarget : bool) (levelSet : LevelSet.t double) (b : Boundary.t double)
  : result (Boundary.t double) :=
  let signedDistance := selectField isTarget levelSet in
  let b0 := allocate b in
  m <- computeMeshStatus signedDistance (Boundary.mesh b0) ;;
  forN (Mesh.nElements m) (elementStep isTarget levelSet signedDistance)
    (Boundary.setMesh m b0).

(** [points.resize(nPoints); segments.resize(nSegments);] *)
Definition shrink (b : Boundary.t double) : Boundary.t double :=
  Boundary.setSegments
    (resize BoundarySegment.zero (Boundary.nSegments b) (Boundary.segments b))
    (Boundary.setPoints
       (resize BoundaryPoint.zero (Boundary.nPoints b) (Boundary.points b)) b).

Definition discretise (isTarget : bool) (levelSet : LevelSet.t double) (b : Boundary.t double)
  : result (Boundary.t double) :=
  b1 <- extract isTarget levelSet b ;;
  computePointLengths (shrink b1).

(** *** Boundary::isClockwise, Boundary::polygonArea, Boundary::cutArea *)

(** The statements after the unconditional return on the sign of [det]
    (lines 901-910) are never reached. *)
Definition isClockwise (point1 point2 centre : Coord.t double) : bool :=
  let x1 := (Coord.x point1 - Coord.x centre)%D in
  let x2 := (Coord.x point2 - Coord.x centre)%D in
  if (x1 >=? d0)%D && (x2 <? d0)%D then false
  else if (x1 <? d0)%D && (x2 >=? d0)%D then true
  else if (x1 =? d0)%D && (x2 =? d0)%D then
    if ((Coord.y point1 - Coord.y centre) >=? d0)%D
       || ((Coord.y point2 - Coord.y centre) >=? d0)%D then
      (if (Coord.y point1 >? Coord.y point2)%D then false else true)
    else (if (Coord.y point2 >? Coord.y point1)%D then false else true)
  else
    let det := (x1 * (Coord.y point2 - Coord.y centre)
                - x2 * (Coord.y point1 - Coord.y centre))%D in
    if (det <? d0)%D then false else true.

(** [std::sort] of the C++ standard library, applied to the first [nVertices]
    slots with the comparator. *)
Variable sort : (Coord.t double -> Coord.t double -> bool) -> list (Coord.t double) -> list (Coord.t double).

(** One turn of the loop over the vertices (lines 922-929). *)
Definition shoelaceStep (vertices : list (Coord.t double)) (i : nat) (area : double)
  : result double :=
  let nVertices := List.length vertices in
  let j := if (i =? nVertices - 1)%nat then 0%nat else (i + 1)%nat in
  vi <- get OutOfBounds vertices i ;;
  vj <- get OutOfBounds vertices j ;;
  let area := (area + Coord.x vi * Coord.y vj)%D in
  Ok (area - Coord.x vj * Coord.y vi)%D.

(** [vertices] holds the [nVertices] slots in use. *)
Definition polygonArea (vertices : list (Coord.t double)) (centre : Coord.t double) : result double :=
  let sorted := sort (fun p q => isClockwise p q centre) vertices in
  area <- forN (List.length sorted) (shoelaceStep sorted) d0 ;;
  Ok (dabs (area * dhalf)%D).

(** [vertices[nVertices] = c; nVertices++;] in [std::vector<Coord> vertices(6)]. *)
Definition pushVertex (vertices : list (Coord.t double)) (c : Coord.t double) : result (list (Coord.t double)) :=
  if (List.length vertices <? 6)%nat then Ok (vertices ++ [c]) else Err OutOfBounds.

Definition bothInside (b : Boundary.t double) (n1 n2 : nat) : result bool :=
  nd1 <- getNode b n1 ;;
  if flag (Node.status nd1) NodeStatus.INSIDE then
    nd2 <- getNode b n2 ;; Ok (flag (Node.status nd2) NodeStatus.INSIDE)
  else Ok false.

(** One turn of the loop over the nodes of the element (lines 808-848). *)
Definition nodeVertexStep (b : Boundary.t double) (element : Element.t double) (status : Z)
  (i : nat) (vertices : list (Coord.t double)) : result (list (Coord.t double)) :=
  let node := Element.node element i in
  nd <- getNode b node ;;
  if flag (Node.status nd) status then pushVertex vertices (Node.coord nd)
  else if flag (Node.status nd) NodeStatus.BOUNDARY then
    let n1 := Element.node element (if (i =? 3)%nat then 0 else i + 1)%nat in
    let n2 := Element.node element (if (i =? 0)%nat then 3 else i - 1)%nat in
    inside <- bothInside b n1 n2 ;;
    if inside then pushVertex vertices (Node.coord nd) else Ok vertices
  else Ok vertices.

(** One turn of the loop over the segments of the element (lines 851-869). *)
Definition segmentVertexStep (b : Boundary.t double) (element : Element.t double)
  (i : nat) (vertices : list (Coord.t double)) : result (list (Coord.t double)) :=
  segment <- get OutOfBounds (Element.boundarySegments element) i ;;
  s <- get OutOfBounds (Boundary.segments b) segment ;;
  p <- getPoint b (BoundarySegment.start s) ;;
  vertices <- pushVertex vertices (BoundaryPoint.coord p) ;;
  q <- getPoint b (BoundarySegment.end_ s) ;;
  pushVertex vertices (BoundaryPoint.coord q).

(** The vertices of the polygon, before they are sorted (lines 795-869). *)
Definition cutVertices (b : Boundary.t double) (element : Element.t double) : result (list (Coord.t double)) :=
  let status := if flag (Element.status element) ElementStatus.CENTRE_OUTSIDE
                then NodeStatus.OUTSIDE else NodeStatus.INSIDE in
  vertices <- forN 4 (nodeVertexStep b element status) [] ;;
  forN (List.length (Element.boundarySegments element))
    (segmentVertexStep b element) vertices.

Definition cutArea (b : Boundary.t double) (element : Element.t double) : result double :=
  vertices <- cutVertices b element ;;
  area <- polygonArea vertices (Element.coord element) ;;
  if flag (Element.status element) ElementStatus.CENTRE_OUTSIDE
  then Ok (d1 - area)%D
  else Ok area.

(** *** Boundary::computeAreaFractions *)

(** The area given to an element (lines 515-524). *)
Definition elementArea (b : Boundary.t double) (element : Element.t double) : result double :=
  if flag (Element.status element) ElementStatus.INSIDE then Ok d1
  else if flag (Element.status element) ElementStatus.OUTSIDE then Ok d0
  else cutArea b element.

Definition areaStep (i : nat) (b : Boundary.t double) : result (Boundary.t double) :=
  e <- getElement b i ;;
  a <- elementArea b e ;;
  es <- set (Mesh.elements (Boundary.mesh b)) i (Element.setArea a e) ;;
  let b1 := Boundary.setMesh (Mesh.setElements es (Boundary.mesh b)) b in
  Ok (Boundary.setArea (Boundary.area b1 + a)%D b1).

(** Returns the boundary with the value returned. *)
Definition computeAreaFractions (b : Boundary.t double) : result (Boundary.t double * double) :=
  b1 <- forN (Mesh.nElements (Boundary.mesh b)) areaStep (Boundary.setArea d0 b) ;;
  Ok (b1, Boundary.area b1).

(** *** Boundary::computeNormalVectors *)

(** The state of the loops: the boundary with the local arrays [isSet] and
    [weight]. *)
Definition NormalState : Type := (Boundary.t double * list bool * list double)%type.

(** One turn of the initialisation loop (lines 542-548). *)
Definition initNormalStep (i : nat) (b : Boundary.t double) : result (Boundary.t double) :=
  modifyPoint (BoundaryPoint.setNormal (d0, d0)) i b.

(** [unsigned int x = coord.x] *)
Definition toUnsigned (d : double) : nat := Z.to_nat (toZ d).

(** [levelSet.signedDistance[mesh.xyToIndex[x][y]]]; [x] is [None] for the
    [x-1] of an unsigned zero, which wraps to an index past every table. *)
Definition fieldAt (levelSet : LevelSet.t double) (m : Mesh.t double) (x y : option nat)
  : result double :=
  match x, y with
  | Some x, Some y =>
      column <- get OutOfBounds (Mesh.xyToIndex m) x ;;
      index <- get OutOfBounds column y ;;
      get OutOfBounds (LevelSet.signedDistance levelSet) index
  | _, _ => Err OutOfBounds
  end.

Definition minusOne (x : nat) : option nat :=
  match x with O => None | S x' => Some x' end.

(** The normalised gradient at a node (lines 560-578). *)
Definition nodeNormal (levelSet : LevelSet.t double) (m : Mesh.t double) (nd : Node.t double)
  : result (double * double) :=
  let x := toUnsigned (Coord.x (Node.coord nd)) in
  let y := toUnsigned (Coord.y (Node.coord nd)) in
  xp <- fieldAt levelSet m (Some (x + 1)%nat) (Some y) ;;
  xm <- fieldAt levelSet m (minusOne x) (Some y) ;;
  let gradX := (dhalf * (xp - xm))%D in
  yp <- fieldAt levelSet m (Some x) (Some (y + 1)%nat) ;;
  ym <- fieldAt levelSet m (Some x) (minusOne y) ;;
  let gradY := (dhalf * (yp - ym))%D in
  let grad := dsqrt (gradX * gradX + gradY * gradY)%D in
  Ok ((gradX / grad)%D, (gradY / grad)%D).

(** One turn of the loop over the boundary points of a node (lines 581-613). *)
Definition scatterStep (nd : Node.t double) (n : double * double) (j : nat) (s : NormalState)
  : result NormalState :=
  let '(b, isSet, weight) := s in
  let '(xNormal, yNormal) := n in
  point <- get OutOfBounds (Node.boundaryPoints nd) j ;;
  p <- getPoint b point ;;
  let dx := (Coord.x (Node.coord nd) - Coord.x (BoundaryPoint.coord p))%D in
  let dy := (Coord.y (Node.coord nd) - Coord.y (BoundaryPoint.coord p))%D in
  let rSqd := (dx * dx + dy * dy)%D in
  if (rSqd <? deps)%D then
    b1 <- modifyPoint (BoundaryPoint.setNormal (xNormal, yNormal)) point b ;;
    weight1 <- set weight point d1 ;;
    isSet1 <- set isSet point true ;;
    Ok (b1, isSet1, weight1)
  else
    set_ <- get OutOfBounds isSet point ;;
    if negb set_ then
      b1 <- modifyPoint (fun q => BoundaryPoint.setNormal
              ((fst (BoundaryPoint.normal q) + xNormal / rSqd)%D,
               (snd (BoundaryPoint.normal q) + yNormal / rSqd)%D) q) point b ;;
      w <- get OutOfBounds weight point ;;
      weight1 <- set weight point (w + d1 / rSqd)%D ;;
      Ok (b1, isSet, weight1)
    else Ok s.

(** One turn of the loop over the narrow band (lines 551-615). *)
Definition narrowBandStep (levelSet : LevelSet.t double) (i : nat) (s : NormalState)
  : result NormalState :=
  let '(b, isSet, weight) := s in
  node <- get OutOfBounds (LevelSet.narrowBand levelSet) i ;;
  nd <- getNode b node ;;
  if (0 <? List.length (Node.boundaryPoints nd))%nat && negb (Node.isDomain nd) then
    n <- nodeNormal levelSet (Boundary.mesh b) nd ;;
    forN (List.length (Node.boundaryPoints nd)) (scatterStep nd n) s
  else Ok s.

(** The state on entry to the last loop (line 616): the accumulated normals
    with the weights. *)
Definition accumulateNormals (levelSet : LevelSet.t double) (b : Boundary.t double)
  : result NormalState :=
  b1 <- forN (Boundary.nPoints b) initNormalStep b ;;
  forN (LevelSet.nNarrowBand levelSet) (narrowBandStep levelSet)
    (b1, repeat false (Boundary.nPoints b), repeat d0 (Boundary.nPoints b)).

(** The interpolated normal of a point that is not on the domain edge
    (lines 622-630). *)
Definition interpolate (n : double * double) (w : double) : double * double :=
  let n0 := (fst n / w)%D in
  let n1 := (snd n / w)%D in
  let norm := dsqrt (n0 * n0 + n1 * n1)%D in
  ((n0 / norm)%D, (n1 / norm)%D).

(** One turn of the last loop (lines 618-632). *)
Definition interpolateStep (weight : list double) (i : nat) (b : Boundary.t double)
  : result (Boundary.t double) :=
  p <- getPoint b i ;;
  if negb (BoundaryPoint.isDomain p) then
    w <- get OutOfBounds weight i ;;
    modifyPoint (fun q => BoundaryPoint.setNormal
                   (interpolate (BoundaryPoint.normal q) w) q) i b
  else Ok b.

Definition computeNormalVectors (levelSet : LevelSet.t double) (b : Boundary.t double)
  : result (Boundary.t double) :=
  '(b1, isSet, weight) <- accumulateNormals levelSet b ;;
  forN (Boundary.nPoints b1) (interpolateStep weight) b1.

End BoundaryMethods.

(** ** Inputs *)

Section Inputs.
Context {D : Double}.

(** Modelled from the spec: Mesh.cpp is not among the sources.  Node [i] of
    the structured grid of [w] by [h] unit elements, numbered row by row, at
    its integer coordinates, flagged when on the edge of the domain. *)
Definition gridNode (w h i : nat) : Node.t double :=
  let x := (i mod (w + 1))%nat in
  let y := (i / (w + 1))%nat in
  Node.mk _ (Coord.mk _ (ofNat x) (ofNat y)) true
    ((x =? 0)%nat || (x =? w)%nat || (y =? 0)%nat || (y =? h)%nat)
    NodeStatus.NONE [].

(** Modelled from the spec: Mesh.cpp is not among the sources.  Element [i]
    of the grid, with its centre and its four nodes anticlockwise from the
    bottom left, as the edges of [isAdded] assume. *)
Definition gridElement (w i : nat) : Element.t double :=
  let x := (i mod w)%nat in
  let y := (i / w)%nat in
  let n := (y * (w + 1) + x)%nat in
  Element.mk _ (Coord.mk _ (ofNat x + dhalf)%D (ofNat y + dhalf)%D) d0
    (n, n + 1, n + 1 + (w + 1), n + (w + 1))%nat ElementStatus.NONE [].

(** Modelled from the spec: Mesh.cpp is not among the sources.  The grid of
    [w] by [h] unit elements, with the table from the coordinates of a node
    to its index. *)
Definition gridMesh (w h : nat) : Mesh.t double :=
  Mesh.mk _
    (map (gridNode w h) (seq 0 ((w + 1) * (h + 1))))
    (map (gridElement w) (seq 0 (w * h)))
    ((w + 1) * (h + 1)) (w * h) w h
    (map (fun x => map (fun y => y * (w + 1) + x)%nat (seq 0 (h + 1))) (seq 0 (w + 1))).

(** A boundary that was never discretised. *)
Definition newBoundary (m : Mesh.t double) : Boundary.t double :=
  Boundary.mk _ [] [] 0 0 d0 d0 m.

(** A level set with the whole mesh in its narrow band. *)
Definition levelSetOf (signedDistance : list double) (moveLimit : double) : LevelSet.t double :=
  LevelSet.mk _ signedDistance signedDistance moveLimit
    (seq 0 (List.length signedDistance)) (List.length signedDistance).

(** A stable insertion sort, for [std::sort] where a run needs one. *)
Fixpoint insertSorted (less : Coord.t double -> Coord.t double -> bool) (c : Coord.t double)
  (l : list (Coord.t double)) : list (Coord.t double) :=
  match l with
  | [] => [c]
  | h :: t => if less c h then c :: l else h :: insertSorted less c t
  end.

Definition insertionSort (less : Coord.t double -> Coord.t double -> bool) (l : list (Coord.t double))
  : list (Coord.t double) :=
  fold_left (fun acc c => insertSorted less c acc) l [].

(** One element, outside on its left and inside on its right: the boundary is
    the vertical line through its middle. *)
Definition verticalCut : LevelSet.t double :=
  levelSetOf [(- d1)%D; d1; (- d1)%D; d1] dhalf.

(** One element, outside at the bottom left and the top right and inside at
    the two other corners: its four edges are cut. *)
Definition checkerboard : LevelSet.t double :=
  levelSetOf [(- d1)%D; d1; d1; (- d1)%D] dhalf.

(** Two elements side by side, inside below and outside above: the boundary
    is the horizontal line through their middle, and every node is on the edge
    of the domain. *)
Definition horizontalCut : LevelSet.t double :=
  levelSetOf [d1; d1; d1; (- d1)%D; (- d1)%D; (- d1)%D] dhalf.

(** Two by two elements, outside on the left column of nodes and inside on
    the two others: the boundary is a vertical line, and the node in the
    middle is the only one off the edge of the domain. *)
Definition leftCut : LevelSet.t double :=
  levelSetOf [(- d1)%D; d1; d1; (- d1)%D; d1; d1; (- d1)%D; d1; d1] dhalf.

(** Two by two elements, outside at the four corners of the domain and inside
    at the five other nodes: a closed loop around the middle. *)
Definition cornersOutside : LevelSet.t double :=
  levelSetOf [(- d1)%D; d1; (- d1)%D; d1; d1; d1; (- d1)%D; d1; (- d1)%D] dhalf.

(** One element, inside at its bottom right corner only, and there by little
    more than the tolerance: the cut points of the two edges that meet at the
    corner are within the tolerance of each other. *)
Definition nearCorner : LevelSet.t double :=
  levelSetOf [(d0 - (d1 + d1))%D; (deps + dhalf * deps)%D;
              (d0 - (d1 + d1))%D; (d0 - (d1 + d1))%D] dhalf.

(** Two by two elements, inside at the node in the middle only: the boundary
    is a closed loop around it, and the level set has no slope there. *)
Definition island : LevelSet.t double :=
  levelSetOf [(- d1)%D; (- d1)%D; (- d1)%D; (- d1)%D; d1; (- d1)%D;
              (- d1)%D; (- d1)%D; (- d1)%D] dhalf.

(** One element with its four corners on the boundary. *)
Definition cornersOnly : LevelSet.t double :=
  levelSetOf [d0; d0; d0; d0] dhalf.

(** The state of [discretise] when the edges of the first element have been
    looked at, with the local array of the cut points. *)
Definition firstEdges (isTarget : bool) (levelSet : LevelSet.t double)
  (b : Boundary.t double) : result (Boundary.t double * list nat) :=
  let signedDistance := selectField isTarget levelSet in
  let b0 := allocate b in
  m <- computeMeshStatus signedDistance (Boundary.mesh b0) ;;
  forN 4 (edgeStep isTarget levelSet signedDistance 0) (Boundary.setMesh m b0, []).

(** [l[0] + l[1] + ...], summed from the left starting from zero. *)
Definition total (l : list double) : double := fold_left add l d0.

End Inputs.

(** * Properties *)

(** ** The error monad, vectors and loops *)

Lemma bind_Ok {A B} (c : result A) (k : A -> result B) (b : B) :
  bind c k = Ok b -> exists a, c = Ok a /\ k a = Ok b.
Proof. destruct c as [a|e]; simpl; intros H; [eauto | discriminate]. Qed.

Lemma get_Ok {A} (what : error) (l : list A) (i : nat) (a : A) :
  get what l i = Ok a <-> nth_error l i = Some a.
Proof.
  unfold get. destruct (nth_error l i); split; intros H;
    inversion H; subst; reflexivity.
Qed.

Lemma get_lt {A} (what : error) (l : list A) (i : nat) (a : A) :
  get what l i = Ok a -> i < length l.
Proof. intros H. apply get_Ok in H. apply nth_error_Some. congruence. Qed.

Lemma get_In {A} (what : error) (l : list A) (i : nat) (a : A) :
  get what l i = Ok a -> In a l.
Proof. intros H. apply get_Ok in H. eapply nth_error_In; eauto. Qed.

Lemma set_Ok {A} (l l' : list A) (i : nat) (a : A) :
  set l i a = Ok l' <-> i < length l /\ l' = replace l i a.
Proof.
  unfold set. destruct (i <? length l) eqn:E.
  - apply Nat.ltb_lt in E. split.
    + intros H. inversion H. auto.
    + intros [_ ->]. reflexivity.
  - apply Nat.ltb_ge in E. split; [discriminate | lia].
Qed.

Lemma length_replace {A} (l : list A) (i : nat) (a : A) :
  length (replace l i a) = length l.
Proof.
  revert i. induction l as [|h t IH]; intros [|i]; simpl; auto.
Qed.

Lemma nth_error_replace_eq {A} (l : list A) (i : nat) (a : A) :
  i < length l -> nth_error (replace l i a) i = Some a.
Proof.
  revert i. induction l as [|h t IH]; intros [|i]; simpl; intros H;
    try lia; auto. apply IH. lia.
Qed.

Lemma nth_error_replace_neq {A} (l : list A) (i j : nat) (a : A) :
  i <> j -> nth_error (replace l i a) j = nth_error l j.
Proof.
  revert i j. induction l as [|h t IH]; intros [|i] [|j]; simpl; intros H;
    try congruence; auto.
Qed.

Lemma firstn_replace_ge {A} (l : list A) (i n : nat) (a : A) :
  n <= i -> firstn n (replace l i a) = firstn n l.
Proof.
  revert i n. induction l as [|h t IH]; intros [|i] [|n]; simpl; intros H;
    try lia; auto. f_equal. apply IH. lia.
Qed.

Lemma firstn_S_replace {A} (l : list A) (n : nat) (a : A) :
  n < length l -> firstn (S n) (replace l n a) = firstn n l ++ [a].
Proof.
  revert n. induction l as [|h t IH]; intros [|n]; simpl; intros H; try lia.
  - reflexivity.
  - f_equal. apply IH. lia.
Qed.

Lemma In_replace {A} (l : list A) (i : nat) (a x : A) :
  In x (replace l i a) -> x = a \/ In x l.
Proof.
  revert i. induction l as [|h t IH]; intros [|i]; simpl; intros H; auto.
  - destruct H; auto.
  - destruct H as [H|H]; auto. apply IH in H. tauto.
Qed.

Lemma resize_le {A} (dflt : A) (n : nat) (l : list A) :
  n <= length l -> resize dflt n l = firstn n l.
Proof.
  intros H. unfold resize. replace (n - length l) with 0 by lia.
  simpl. apply app_nil_r.
Qed.

Lemma length_resize {A} (dflt : A) (n : nat) (l : list A) :
  length (resize dflt n l) = n.
Proof.
  unfold resize. rewrite length_app, length_firstn, repeat_length. lia.
Qed.

(** A loop keeps what each of its turns keeps. *)
Lemma forFrom_invariant {S} (I : S -> Prop) (body : nat -> S -> result S) :
  (forall i s s', I s -> body i s = Ok s' -> I s') ->
  forall k i s s', I s -> forFrom body i k s = Ok s' -> I s'.
Proof.
  intros Hbody. induction k as [|k IH]; simpl; intros i s s' Hs H.
  - inversion H; subst; assumption.
  - apply bind_Ok in H as (s1 & H1 & H2). eauto.
Qed.

Lemma forN_invariant {S} (I : S -> Prop) (n : nat) (body : nat -> S -> result S) :
  (forall i s s', I s -> body i s = Ok s' -> I s') ->
  forall s s', I s -> forN n body s = Ok s' -> I s'.
Proof. intros Hbody s s'. unfold forN. eapply forFrom_invariant; eauto. Qed.

(** The same with the index in range and the turns counted. *)
Lemma forFrom_invariant_at {S} (I : nat -> S -> Prop) (body : nat -> S -> result S) :
  forall k i,
  (forall j s s', i <= j < i + k -> I j s -> body j s = Ok s' -> I (Datatypes.S j) s') ->
  forall s s', I i s -> forFrom body i k s = Ok s' -> I (i + k) s'.
Proof.
  induction k as [|k IH]; simpl; intros i Hbody s s' Hs H.
  - inversion H; subst. rewrite Nat.add_0_r. assumption.
  - apply bind_Ok in H as (s1 & H1 & H2).
    replace (i + Datatypes.S k) with (Datatypes.S i + k) by lia.
    eapply IH; [ | | exact H2].
    + intros j t t' Hj. apply Hbody. lia.
    + apply (Hbody i s s1); [lia | assumption | assumption].
Qed.

Lemma forN_invariant_at {S} (I : nat -> S -> Prop) (n : nat) (body : nat -> S -> result S) :
  (forall j s s', j < n -> I j s -> body j s = Ok s' -> I (Datatypes.S j) s') ->
  forall s s', I 0 s -> forN n body s = Ok s' -> I n s'.
Proof.
  intros Hbody s s' Hs H. unfold forN in H.
  apply (forFrom_invariant_at I body n 0) with (s := s); auto.
  intros j t t' Hj. apply Hbody. lia.
Qed.

(** Splits a hypothesis [(x <- c ;; k) = Ok b] into [c = Ok x] and
    [k x = Ok b]. *)
Ltac bind_inv H :=
  let a := fresh "a" in
  let Ha := fresh "E" in
  apply bind_Ok in H as (a & Ha & H).

Ltac ok_inv H := inversion H; subst; clear H.

(** One step of the symbolic execution of a successful run. *)
Ltac run1 H :=
  lazymatch type of H with
  | bind _ _ = Ok _ => bind_inv H; cbv beta in H
  | Ok _ = Ok _ => ok_inv H
  | Err _ = Ok _ => discriminate H
  | (if ?c then _ else _) = Ok _ => let C := fresh "C" in destruct c eqn:C
  | (match ?p with pair _ _ => _ end) = Ok _ => destruct p
  end.
Ltac run H := repeat run1 H.

(** Reduces the projections of the records, and nothing else. *)
Ltac psimpl :=
  cbn [Boundary.points Boundary.segments Boundary.nPoints Boundary.nSegments
       Boundary.length Boundary.area Boundary.mesh
       Boundary.setPoints Boundary.setSegments Boundary.setNPoints
       Boundary.setNSegments Boundary.setLength Boundary.setArea Boundary.setMesh
       Mesh.nodes Mesh.elements Mesh.nNodes Mesh.nElements Mesh.width Mesh.height
       Mesh.xyToIndex Mesh.setNodes Mesh.setElements
       Node.coord Node.isActive Node.isDomain Node.status Node.boundaryPoints
       Node.reset Node.addBoundaryPoint
       Element.coord Element.area Element.nodes Element.status
       Element.boundarySegments Element.reset Element.setStatus Element.setArea
       Element.addBoundarySegment
       BoundarySegment.start BoundarySegment.end_ BoundarySegment.element
       BoundarySegment.length
       BoundaryPoint.coord BoundaryPoint.length BoundaryPoint.negativeLimit
       BoundaryPoint.positiveLimit BoundaryPoint.isDomain
       BoundaryPoint.sensitivities BoundaryPoint.normal BoundaryPoint.segments
       BoundaryPoint.neighbours BoundaryPoint.addLength BoundaryPoint.addSegment
       BoundaryPoint.addNeighbour BoundaryPoint.setNormal
       Coord.x Coord.y fst snd] in *.

(** ** What the loop over the elements keeps *)

Section Preserved.
Context {D : Double}.
Variable I : Boundary.t double -> Prop.
Variable levelSet : LevelSet.t double.
Hypothesis registerPoint_keeps :
  forall b n b', I b -> registerPoint b n = Ok b' -> I b'.
Hypothesis newPoint_keeps :
  forall b c b', I b -> newPoint levelSet b c = Ok b' -> I b'.
(** The element that the turn of the loop looks at. *)
Variable i : nat.
Hypothesis addSegment_keeps :
  forall b s e b', I b -> addSegment b i s e = Ok b' -> I b'.
Hypothesis setElementStatus_keeps :
  forall b s b', I b -> setElementStatus b i s = Ok b' -> I b'.

Lemma nodePoint_keeps b node b' index :
  I b -> nodePoint levelSet b node = Ok (b', index) -> I b'.
Proof.
  intros Hb H. unfold nodePoint in H. run H; eauto.
Qed.

Lemma edgeStep_keeps isTarget sd j s s' :
  I (fst s) -> edgeStep isTarget levelSet sd i j s = Ok s' -> I (fst s').
Proof.
  intros Hb H. unfold edgeStep in H. destruct s as [b bp]. simpl in Hb.
  run H; simpl; eauto using nodePoint_keeps.
Qed.

Lemma oneCutStep_keeps bp j b b' :
  I b -> oneCutStep levelSet i bp j b = Ok b' -> I b'.
Proof.
  intros Hb H. unfold oneCutStep in H. run H; eauto using nodePoint_keeps.
Qed.

Lemma fourCuts_keeps sd bp b b' :
  I b -> fourCuts sd i bp b = Ok b' -> I b'.
Proof.
  intros Hb H. unfold fourCuts in H. run H.
  match goal with
  | E : (if _ then _ else _) = Ok _ |- _ => run E; eauto
  end.
Qed.

Lemma diagonal_keeps bp b b' :
  I b -> diagonal levelSet i bp b = Ok b' -> I b'.
Proof.
  intros Hb H. unfold diagonal in H. run H; eauto using nodePoint_keeps.
Qed.

Lemma resolveCuts_keeps sd bp b b' :
  I b -> resolveCuts levelSet sd i bp b = Ok b' -> I b'.
Proof.
  intros Hb H. unfold resolveCuts in H. run H;
    eauto using fourCuts_keeps, diagonal_keeps.
  eapply forN_invariant; [ | exact Hb | exact H].
  intros k s s'. apply oneCutStep_keeps.
Qed.

Lemma elementStep_keeps isTarget sd b b' :
  I b -> elementStep isTarget levelSet sd i b = Ok b' -> I b'.
Proof.
  intros Hb H. unfold elementStep in H. run H; auto.
  eapply resolveCuts_keeps; [ | exact H].
  change (I (fst (t, l))).
  eapply (forN_invariant (fun s => I (fst s))); [ | | exact E0]; auto.
  intros k s s'. apply edgeStep_keeps.
Qed.

End Preserved.

(** ** The points and the total length after the loop over the elements *)

Section Extracted.
Context {D : Double}.
Variable levelSet : LevelSet.t double.
Variables w h : nat.
Variable P : BoundaryPoint.t double -> Prop.
Hypothesis initialisePoint_P :
  forall m old c, Mesh.width m = w -> Mesh.height m = h ->
    P (initialisePoint levelSet m old c).

Record extracted (b : Boundary.t double) : Prop := {
  ex_points : Boundary.nPoints b <= length (Boundary.points b);
  ex_segments : Boundary.nSegments b <= length (Boundary.segments b);
  ex_created : Forall P (firstn (Boundary.nPoints b) (Boundary.points b));
  ex_length : Boundary.length b =
              total (map BoundarySegment.length
                       (firstn (Boundary.nSegments b) (Boundary.segments b)));
  ex_width : Mesh.width (Boundary.mesh b) = w;
  ex_height : Mesh.height (Boundary.mesh b) = h
}.

Lemma total_snoc (l : list double) (a : double) : total (l ++ [a]) = (total l + a)%D.
Proof. unfold total. rewrite fold_left_app. reflexivity. Qed.

Lemma registerPoint_extracted b n b' :
  extracted b -> registerPoint b n = Ok b' -> extracted b'.
Proof.
  intros [] H. unfold registerPoint in H. run H. constructor; psimpl; auto.
Qed.

Lemma newPoint_extracted b c b' :
  extracted b -> newPoint levelSet b c = Ok b' -> extracted b'.
Proof.
  intros [] H. unfold newPoint in H. run H.
  apply set_Ok in E0 as [Hlt ->]. constructor; psimpl; auto.
  - rewrite length_replace. lia.
  - rewrite firstn_S_replace by assumption.
    apply Forall_app. split; auto.
Qed.

Lemma addSegment_extracted b i s e b' :
  extracted b -> addSegment b i s e = Ok b' -> extracted b'.
Proof.
  intros [] H. unfold addSegment in H. run H.
  apply set_Ok in E2 as [Hlt ->]. psimpl. constructor; psimpl; auto.
  - rewrite length_replace. lia.
  - rewrite firstn_S_replace by assumption.
    rewrite map_app. cbn [map]. rewrite total_snoc. psimpl. congruence.
Qed.

Lemma setElementStatus_extracted b i s b' :
  extracted b -> setElementStatus b i s = Ok b' -> extracted b'.
Proof.
  intros [] H. unfold setElementStatus in H. run H. constructor; psimpl; auto.
Qed.

Lemma elementStep_extracted isTarget sd i b b' :
  extracted b -> elementStep isTarget levelSet sd i b = Ok b' -> extracted b'.
Proof.
  apply elementStep_keeps.
  - apply registerPoint_extracted.
  - apply newPoint_extracted.
  - intros x s e y. apply addSegment_extracted.
  - intros x s y. apply setElementStatus_extracted.
Qed.

End Extracted.

Section MeshStatus.
Context {D : Double}.

(** [computeMeshStatus] changes no more than the nodes and the elements. *)
Lemma computeMeshStatus_frame sd m m' :
  computeMeshStatus sd m = Ok m' ->
  Mesh.width m' = Mesh.width m /\ Mesh.height m' = Mesh.height m /\
  Mesh.nNodes m' = Mesh.nNodes m /\ Mesh.nElements m' = Mesh.nElements m /\
  Mesh.xyToIndex m' = Mesh.xyToIndex m /\
  length (Mesh.nodes m') = length (Mesh.nodes m) /\
  length (Mesh.elements m') = length (Mesh.elements m).
Proof.
  intros H. unfold computeMeshStatus in H. run H.
  set (I := fun x : Mesh.t double =>
    Mesh.width x = Mesh.width m /\ Mesh.height x = Mesh.height m /\
    Mesh.nNodes x = Mesh.nNodes m /\ Mesh.nElements x = Mesh.nElements m /\
    Mesh.xyToIndex x = Mesh.xyToIndex m /\
    length (Mesh.nodes x) = length (Mesh.nodes m) /\
    length (Mesh.elements x) = length (Mesh.elements m)).
  assert (I a) as Ha.
  { eapply (forN_invariant I); [ | | exact E].
    - intros i s s' Hs Hstep. unfold nodeStatusStep in Hstep. run Hstep.
      apply set_Ok in E2 as [_ ->]. unfold I in *. psimpl.
      rewrite length_replace. tauto.
    - unfold I. tauto. }
  eapply (forN_invariant I); [ | exact Ha | exact H].
  intros i s s' Hs Hstep. unfold elementStatusStep in Hstep. run Hstep.
  apply set_Ok in E2 as [_ ->]. unfold I in *. psimpl.
  rewrite length_replace. tauto.
Qed.

End MeshStatus.

Section ExtractedAll.
Context {D : Double}.

Lemma extract_extracted isTarget levelSet (P : BoundaryPoint.t double -> Prop) b b' :
  (forall m old c, Mesh.width m = Mesh.width (Boundary.mesh b) ->
     Mesh.height m = Mesh.height (Boundary.mesh b) ->
     P (initialisePoint levelSet m old c)) ->
  extract isTarget levelSet b = Ok b' ->
  extracted (Mesh.width (Boundary.mesh b)) (Mesh.height (Boundary.mesh b)) P b'.
Proof.
  intros HP H. unfold extract in H. run H.
  apply computeMeshStatus_frame in E as (Hw & Hh & _).
  eapply forN_invariant; [ | | exact H].
  - intros i s s'. apply elementStep_extracted. exact HP.
  - unfold allocate in *. psimpl.
    constructor; psimpl; auto; try lia; try reflexivity.
Qed.

End ExtractedAll.

Section PointLengths.
Context {D : Double}.

(** What [computePointLengths] leaves of a point. *)
Definition sameCore (p q : BoundaryPoint.t double) : Prop :=
  BoundaryPoint.coord q = BoundaryPoint.coord p /\
  BoundaryPoint.negativeLimit q = BoundaryPoint.negativeLimit p /\
  BoundaryPoint.positiveLimit q = BoundaryPoint.positiveLimit p /\
  BoundaryPoint.isDomain q = BoundaryPoint.isDomain p /\
  BoundaryPoint.sensitivities q = BoundaryPoint.sensitivities p /\
  BoundaryPoint.normal q = BoundaryPoint.normal p.

Lemma sameCore_refl p : sameCore p p.
Proof. unfold sameCore. tauto. Qed.

Lemma Forall2_refl {A} (R : A -> A -> Prop) (l : list A) :
  (forall a, R a a) -> Forall2 R l l.
Proof. intros H. induction l; constructor; auto. Qed.

Lemma Forall2_replace_r {A} (R : A -> A -> Prop) (l l' : list A) (k : nat) (a a' : A) :
  Forall2 R l l' -> nth_error l' k = Some a ->
  (forall x, R x a -> R x a') -> Forall2 R l (replace l' k a').
Proof.
  intros H. revert k. induction H as [|x y l l' Hxy Hl IH]; intros [|k]; simpl;
    intros Hk Ha'; try discriminate.
  - inversion Hk; subst. constructor; auto.
  - constructor; auto.
Qed.

(** The part of the state that [computePointLengths] does not touch. *)
Definition pointsModified (b b' : Boundary.t double) : Prop :=
  Forall2 sameCore (Boundary.points b) (Boundary.points b') /\
  Boundary.segments b' = Boundary.segments b /\
  Boundary.nPoints b' = Boundary.nPoints b /\
  Boundary.nSegments b' = Boundary.nSegments b /\
  Boundary.length b' = Boundary.length b /\
  Boundary.area b' = Boundary.area b /\
  Boundary.mesh b' = Boundary.mesh b.

Lemma modifyPoint_pointsModified f k b0 b b' :
  (forall p q, sameCore p q -> sameCore p (f q)) ->
  pointsModified b0 b -> modifyPoint f k b = Ok b' -> pointsModified b0 b'.
Proof.
  intros Hf (H1 & H2 & H3 & H4 & H5 & H6 & H7) H. unfold modifyPoint in H. run H.
  apply set_Ok in E0 as [Hlt ->]. apply get_Ok in E.
  unfold pointsModified. psimpl. repeat split; auto.
  eapply Forall2_replace_r; eauto.
Qed.

Lemma pointLengthsStep_pointsModified i b0 b b' :
  pointsModified b0 b -> pointLengthsStep i b = Ok b' -> pointsModified b0 b'.
Proof.
  intros Hb H. unfold pointLengthsStep in H. run H.
  repeat match goal with
  | E : modifyPoint _ _ _ = Ok ?x |- _ =>
      apply (modifyPoint_pointsModified _ _ b0) in E;
      [ | intros p q Hpq; unfold sameCore in *; psimpl; tauto | assumption ]
  end.
  assumption.
Qed.

Lemma computePointLengths_pointsModified b b' :
  computePointLengths b = Ok b' -> pointsModified b b'.
Proof.
  intros H. unfold computePointLengths in H.
  eapply (forN_invariant (pointsModified b)); [ | | exact H].
  - intros i s s'. apply pointLengthsStep_pointsModified.
  - unfold pointsModified. repeat split; auto.
    apply Forall2_refl, sameCore_refl.
Qed.

Lemma shrink_extracted w h P b :
  extracted w h P b ->
  Boundary.points (shrink b) = firstn (Boundary.nPoints b) (Boundary.points b) /\
  Boundary.segments (shrink b) = firstn (Boundary.nSegments b) (Boundary.segments b) /\
  Boundary.length (shrink b) = Boundary.length b /\
  Boundary.nPoints (shrink b) = Boundary.nPoints b /\
  Boundary.nSegments (shrink b) = Boundary.nSegments b.
Proof.
  intros []. unfold shrink. psimpl.
  rewrite !resize_le by assumption. auto.
Qed.

(** A point of the result of [discretise] is one that [initialisePoint] made,
    up to the lists and the length that [computePointLengths] fills in. *)
Lemma discretise_created isTarget levelSet b b' p :
  discretise isTarget levelSet b = Ok b' ->
  In p (Boundary.points b') ->
  exists m old c,
    Mesh.width m = Mesh.width (Boundary.mesh b) /\
    Mesh.height m = Mesh.height (Boundary.mesh b) /\
    sameCore (initialisePoint levelSet m old c) p.
Proof.
  intros H Hp. unfold discretise in H. run H.
  pose proof (extract_extracted isTarget levelSet
    (fun q => exists m old c,
       Mesh.width m = Mesh.width (Boundary.mesh b) /\
       Mesh.height m = Mesh.height (Boundary.mesh b) /\
       q = initialisePoint levelSet m old c) b a) as Hex.
  assert (Hex' := Hex (fun m old c Hw Hh =>
    ex_intro _ m (ex_intro _ old (ex_intro _ c (conj Hw (conj Hh eq_refl))))) E).
  clear Hex. rename Hex' into Hex.
  destruct (shrink_extracted _ _ _ _ Hex) as (Hps & _).
  apply computePointLengths_pointsModified in H as (HF & _).
  rewrite Hps in HF. destruct Hex as [_ _ Hcr _ _ _].
  clear - HF Hcr Hp.
  induction HF as [|x y l l' Hxy Hl IH].
  - destruct Hp.
  - inversion Hcr as [|? ? Hx Hrest]; subst.
    destruct Hp as [<-|Hp]; auto.
    destruct Hx as (m & old & c & Hw & Hh & ->). eauto 7.
Qed.

End PointLengths.

(** ** Exact arithmetic *)

Lemma R_ltb_lt (a b : R) : R_ltb a b = true <-> (a < b)%R.
Proof. unfold R_ltb. destruct (Rlt_dec a b); split; auto; discriminate. Qed.

Lemma R_ltb_ge (a b : R) : R_ltb a b = false <-> (b <= a)%R.
Proof.
  unfold R_ltb. destruct (Rlt_dec a b); split; auto; try discriminate; lra.
Qed.

Lemma R_leb_le (a b : R) : R_leb a b = true <-> (a <= b)%R.
Proof. unfold R_leb. destruct (Rle_dec a b); split; auto; discriminate. Qed.

Lemma dmin_exact (a b : R) : dmin (D := exact) a b = Rmin a b.
Proof.
  unfold dmin, Rmin. simpl. unfold R_ltb.
  destruct (Rlt_dec b a), (Rle_dec a b); try reflexivity; lra.
Qed.

(** The distance from a point of the domain to its edge. *)
Definition edgeDistance (w h : nat) (c : Coord.t (@double exact)) : R :=
  Rmin (Rmin (Coord.x c) (INR w - Coord.x c)) (Rmin (Coord.y c) (INR h - Coord.y c)).




(** ** The lengths of the points, in exact arithmetic *)

Section PointLengthSum.
Open Scope R_scope.
Let point := (BoundaryPoint.t (@double exact)).
Let boundary := (Boundary.t (@double exact)).

Lemma fold_left_Rplus (l : list R) (a : R) :
  fold_left Rplus l a = a + fold_left Rplus l 0.
Proof.
  revert a. induction l as [|x l IH]; intros a; simpl.
  - lra.
  - rewrite IH, (IH (0 + x)). lra.
Qed.

Lemma total_cons (a : R) (l : list R) : total (D := exact) (a :: l) = a + total (D := exact) l.
Proof. unfold total. simpl. rewrite fold_left_Rplus. lra. Qed.

Definition pointLengths (b : boundary) : R :=
  total (D := exact) (map BoundaryPoint.length (Boundary.points b)).

Lemma total_replace (l : list point) (k : nat) (p q : point) :
  nth_error l k = Some p ->
  total (D := exact) (map BoundaryPoint.length (replace l k q)) =
  total (D := exact) (map BoundaryPoint.length l)
  - BoundaryPoint.length p + BoundaryPoint.length q.
Proof.
  revert k. induction l as [|x l IH]; intros [|k]; cbn [replace map nth_error];
    intros H; try discriminate.
  - inversion H; subst. rewrite !total_cons. lra.
  - rewrite !total_cons, (IH k H). lra.
Qed.

Lemma modifyPoint_pointLengths f k (b b' : boundary) :
  modifyPoint f k b = Ok b' ->
  exists p, nth_error (Boundary.points b) k = Some p /\
    pointLengths b' = pointLengths b - BoundaryPoint.length p + BoundaryPoint.length (f p).
Proof.
  intros H. unfold modifyPoint in H. run H.
  apply set_Ok in E0 as [_ ->]. apply get_Ok in E.
  exists a. split; auto. unfold pointLengths. psimpl.
  apply total_replace. assumption.
Qed.

Lemma pointLengthsStep_sum i (b b' : boundary) :
  pointLengthsStep i b = Ok b' ->
  exists s, nth_error (Boundary.segments b) i = Some s /\
    pointLengths b' = pointLengths b + BoundarySegment.length s.
Proof.
  intros H. unfold pointLengthsStep in H. run H.
  apply get_Ok in E. exists a. split; auto.
  repeat match goal with
  | E : modifyPoint _ _ _ = Ok _ |- _ =>
      apply modifyPoint_pointLengths in E as (? & _ & E)
  end.
  psimpl. simpl in *. lra.
Qed.

Lemma firstn_S_nth {A} (l : list A) (n : nat) (a : A) :
  nth_error l n = Some a -> firstn (S n) l = firstn n l ++ [a].
Proof.
  revert n. induction l as [|x l IH]; intros [|n]; simpl; intros H;
    try discriminate.
  - inversion H; reflexivity.
  - f_equal. apply IH. assumption.
Qed.

Lemma computePointLengths_sum (b b' : boundary) :
  Boundary.nSegments b = length (Boundary.segments b) ->
  computePointLengths b = Ok b' ->
  pointLengths b' =
  pointLengths b + total (D := exact) (map BoundarySegment.length (Boundary.segments b)).
Proof.
  intros Hn H.
  pose proof (computePointLengths_pointsModified _ _ H) as (_ & Hsegs & _).
  unfold computePointLengths in H.
  apply (forN_invariant_at (fun j x =>
    pointsModified b x /\
    pointLengths x = pointLengths b
      + total (D := exact) (map BoundarySegment.length (firstn j (Boundary.segments b)))))
    in H.
  - destruct H as [_ H]. rewrite H, Hn, firstn_all. reflexivity.
  - intros j s s' Hj [Hm Hs] Hstep. split.
    + eapply pointLengthsStep_pointsModified; eauto.
    + apply pointLengthsStep_sum in Hstep as (sg & Hsg & ->).
      destruct Hm as (_ & Hseg & _). rewrite Hseg in Hsg.
      rewrite (firstn_S_nth _ _ _ Hsg), map_app, Hs. cbn [map].
      rewrite total_snoc. simpl. lra.
  - split.
    + unfold pointsModified. repeat split; auto.
      apply Forall2_refl, sameCore_refl.
    + unfold total. simpl. lra.
Qed.

Lemma total_zero (l : list point) :
  Forall (fun p => BoundaryPoint.length p = 0) l ->
  total (D := exact) (map BoundaryPoint.length l) = 0.
Proof.
  induction 1 as [|p l Hp Hl IH]; cbn [map].
  - reflexivity.
  - change (@double exact) with R in *. rewrite total_cons, IH, Hp. lra.
Qed.

(** In exact arithmetic, when [discretise] completes, the total boundary
    length it reports is the sum of the lengths of the segments it produced,
    and is also the sum of the integral lengths of the points, each segment
    having given half its length to each of its two ends. *)
Lemma discretise_length_sums isTarget levelSet (b b' : boundary) :
  discretise isTarget levelSet b = Ok b' ->
  Boundary.length b' = total (D := exact) (map BoundarySegment.length (Boundary.segments b')) /\
  Boundary.length b' = total (D := exact) (map BoundaryPoint.length (Boundary.points b')).
Proof.
  intros H. unfold discretise in H. run H.
  pose proof (extract_extracted isTarget levelSet
    (fun q => BoundaryPoint.length q = 0) b a (fun m old c _ _ => eq_refl) E) as Hex.
  destruct (shrink_extracted _ _ _ _ Hex) as (Hps & Hss & Hl & HnP & HnS).
  destruct Hex as [HcP HcS Hzero Hlen _ _].
  pose proof (computePointLengths_pointsModified _ _ H)
    as (_ & Hsegs & _ & _ & Hlen' & _).
  assert (Boundary.nSegments (shrink a) = length (Boundary.segments (shrink a))) as Hn.
  { rewrite HnS, Hss, length_firstn. lia. }
  pose proof (computePointLengths_sum _ _ Hn H) as Hsum.
  fold (pointLengths b'). rewrite Hsum, Hsegs, Hlen', Hl, Hlen, Hss.
  unfold pointLengths. rewrite Hps, (total_zero _ Hzero). split; [reflexivity | lra].
Qed.

End PointLengthSum.

(** On the doubles as in exact arithmetic, the total length is the sum of the
    lengths of the segments, added up in the order of the vector. *)
Lemma discretise_length_total {D : Double} isTarget levelSet (b b' : Boundary.t double) :
  discretise isTarget levelSet b = Ok b' ->
  Boundary.length b' = total (map BoundarySegment.length (Boundary.segments b')).
Proof.
  intros H. unfold discretise in H. run H.
  pose proof (extract_extracted isTarget levelSet (fun _ => True) b a
                (fun _ _ _ _ _ => I) E) as Hex.
  destruct (shrink_extracted _ _ _ _ Hex) as (_ & Hss & Hl & _ & _).
  destruct Hex as [_ _ _ Hlen _ _].
  pose proof (computePointLengths_pointsModified _ _ H)
    as (_ & Hsegs & _ & _ & Hlen' & _).
  rewrite Hsegs, Hlen', Hl, Hlen, Hss. reflexivity.
Qed.

(** ** Runs in exact arithmetic *)

Lemma R_toZ_small (a : R) : (0 <= a < 1)%R -> R_toZ a = 0%Z.
Proof.
  intros [H0 H1]. unfold R_toZ. destruct (Rle_dec 0 a); [ | lra].
  unfold Int_part.
  assert (up a = 1%Z) as ->; [ | reflexivity].
  symmetry. apply tech_up; simpl; lra.
Qed.

Lemma nodeStatus_inside (d : R) :
  (1 / 1000000 <= d)%R -> nodeStatus (D := exact) d = NodeStatus.INSIDE.
Proof.
  intros H. unfold nodeStatus. simpl.
  rewrite (proj2 (R_ltb_ge _ _)) by (rewrite Rabs_pos_eq; lra).
  rewrite (proj2 (R_ltb_ge _ _)) by lra. reflexivity.
Qed.

Lemma nodeStatus_outside (d : R) :
  (d <= - (1 / 1000000))%R -> nodeStatus (D := exact) d = NodeStatus.OUTSIDE.
Proof.
  intros H. unfold nodeStatus. simpl.
  rewrite (proj2 (R_ltb_ge _ _)) by (rewrite Rabs_left; lra).
  rewrite (proj2 (R_ltb_lt _ _)) by lra. reflexivity.
Qed.

(** Decides the status of the nodes whose signed distance is a numeral. *)
Ltac decide_nodeStatus :=
  repeat match goal with
  | |- context [nodeStatus ?d] =>
      first [ rewrite (nodeStatus_inside d) by (simpl; lra)
            | rewrite (nodeStatus_outside d) by (simpl; lra) ]
  end.

(** Runs the structural part of a computation, the arithmetic left as it is. *)
Ltac run_exact := lazy -[exact nodeStatus initialisePoint distance IZR].

Lemma allocation_oneElement : allocation (D := exact) (gridMesh 1 1) = 4%nat.
Proof.
  unfold allocation. cbn [Mesh.nNodes gridMesh Nat.mul Nat.add].
  simpl toZ. rewrite R_toZ_small; [reflexivity | ].
  cbv [mul ofNat d02 exact INR]. lra.
Qed.

Lemma verticalCut_exact :
  exists b', discretise (D := exact) true verticalCut (newBoundary (gridMesh 1 1)) = Ok b' /\
    exists p, In p (Boundary.points b') /\
      BoundaryPoint.coord p = Coord.mk (@double exact) (0 + - 1 / (- 1 - 1))%R 0%R.
Proof.
  eexists. split.
  - unfold discretise, extract, allocate, verticalCut, newBoundary. psimpl.
    rewrite allocation_oneElement. unfold computeMeshStatus.
    match goal with
    | |- context [forN ?n (nodeStatusStep ?sd) ?m] =>
        let r := eval lazy -[exact nodeStatus IZR] in (forN n (nodeStatusStep sd) m) in
        change (forN n (nodeStatusStep sd) m) with r
    end.
    decide_nodeStatus. run_exact. reflexivity.
  - eexists. split; [left; reflexivity | ].
    unfold initialisePoint. psimpl. simpl. reflexivity.
Qed.


(** C9 (amended).  Every point of the boundary that [discretise] produced
    carries exactly two sensitivities, the objective and a single constraint,
    whatever the number of constraints. *)
Theorem discretise_sensitivities {D : Double} isTarget levelSet b b' p :
  discretise isTarget levelSet b = Ok b' ->
  In p (Boundary.points b') ->
  length (BoundaryPoint.sensitivities p) = 2.
Proof.
  intros H Hp.
  destruct (discretise_created _ _ _ _ _ H Hp)
    as (m & old & c & _ & _ & _ & _ & _ & _ & Hs & _).
  rewrite Hs. unfold initialisePoint. psimpl. apply length_resize.
Qed.

Lemma discretise_sensitivities_witness :
  exists b' p,
    discretise (D := binary64) true verticalCut (newBoundary (gridMesh 1 1)) = Ok b' /\
    In p (Boundary.points b') /\
    length (BoundaryPoint.sensitivities p) = 2.
Proof.
  assert (exists b' p,
    discretise (D := binary64) true verticalCut (newBoundary (gridMesh 1 1)) = Ok b' /\
    In p (Boundary.points b')) as (b' & p & H & Hp).
  { eexists. eexists. split; [vm_compute; reflexivity | left; reflexivity]. }
  exists b', p. split; [exact H | split; [exact Hp | ]].
  exact (discretise_sensitivities true verticalCut _ b' p H Hp).
Defined.

(** C9 as stated fails: with no constraint ([nConstraints = 0]) the list
    should have one entry, and the points of this run have two. *)
Lemma sensitivities_size_counterexample :
  exists b' p,
    discretise (D := binary64) true verticalCut (newBoundary (gridMesh 1 1)) = Ok b' /\
    In p (Boundary.points b') /\
    let nConstraints := 0 in
    length (BoundaryPoint.sensitivities p) <> 1 + nConstraints.
Proof.
  eexists. eexists. split; [vm_compute; reflexivity | ].
  split; [left; reflexivity | ]. vm_compute. discriminate.
Qed.

(** ** The four-cut case *)

Section FourCuts.
Context {D : Double}.

Lemma get_nth {A} (what : error) (l : list A) (i : nat) (a : A) :
  nth_error l i = Some a -> get what l i = Ok a.
Proof. intros H. unfold get. rewrite H. reflexivity. Qed.

Lemma set_lt {A} (l : list A) (i : nat) (a : A) :
  i < length l -> set l i a = Ok (replace l i a).
Proof. intros H. apply set_Ok. auto. Qed.

(** The boundary with one more segment. *)
Definition withSegment (b : Boundary.t double) (i start end_ : nat)
  (len : double) (e : Element.t double) : Boundary.t double :=
  Boundary.mk _
    (Boundary.points b)
    (replace (Boundary.segments b) (Boundary.nSegments b)
       (BoundarySegment.mk _ start end_ i len))
    (Boundary.nPoints b)
    (S (Boundary.nSegments b))
    (Boundary.length b + len)%D
    (Boundary.area b)
    (Mesh.setElements
       (replace (Mesh.elements (Boundary.mesh b)) i
          (Element.addBoundarySegment (Boundary.nSegments b) e))
       (Boundary.mesh b)).

Lemma addSegment_Ok b i start end_ p q e :
  nth_error (Boundary.points b) start = Some p ->
  nth_error (Boundary.points b) end_ = Some q ->
  nth_error (Mesh.elements (Boundary.mesh b)) i = Some e ->
  Boundary.nSegments b < length (Boundary.segments b) ->
  addSegment b i start end_ =
  Ok (withSegment b i start end_
        (distance (BoundaryPoint.coord p) (BoundaryPoint.coord q)) e).
Proof.
  intros Hp Hq He Hn. unfold addSegment, segmentLength, getPoint, getElement.
  rewrite (get_nth _ _ _ _ Hp), (get_nth _ _ _ _ Hq). cbn [bind]. psimpl.
  rewrite (get_nth _ _ _ _ He). cbn [bind].
  rewrite set_lt by (apply nth_error_Some; congruence). cbn [bind]. psimpl.
  rewrite set_lt by assumption. reflexivity.
Qed.

(** The sum of the four nodal values, as the loop adds them up. *)
Definition lsfSum (s0 s1 s2 s3 : double) : double :=
  (d0 + s0 + s1 + s2 + s3)%D.

(** The rule of the pairing: true for the pairs (0, 1) and (2, 3). *)
Definition pairsAlongEdges (status : Z) (sum : double) : bool :=
  (flag status NodeStatus.INSIDE && (sum >? d0)%D)
  || (flag status NodeStatus.OUTSIDE && (sum <? d0)%D).

(** X16.  The branch [nCut == 4] of [discretise], in any arithmetic.  With the
    four cut points [p0 .. p3] of element [i] in the local array, and the
    element, its first node, the four signed distances, the four points and
    room for two more segments in range, the branch adds exactly two segments
    of element [i] and raises no error.  With the first corner inside and a
    positive sum of the four nodal signed distances, or the first corner
    outside and a negative sum, they join [p0] to [p1] and [p2] to [p3];
    otherwise they join [p0] to [p3] and [p1] to [p2].  The element is then
    centre-inside if the sum is positive and centre-outside if not. *)
Theorem resolveCuts_four levelSet signedDistance i b e nd p0 p1 p2 p3
    q0 q1 q2 q3 s0 s1 s2 s3 :
  nth_error (Mesh.elements (Boundary.mesh b)) i = Some e ->
  nth_error (Mesh.nodes (Boundary.mesh b)) (Element.node e 0) = Some nd ->
  nth_error signedDistance (Element.node e 0) = Some s0 ->
  nth_error signedDistance (Element.node e 1) = Some s1 ->
  nth_error signedDistance (Element.node e 2) = Some s2 ->
  nth_error signedDistance (Element.node e 3) = Some s3 ->
  nth_error (Boundary.points b) p0 = Some q0 ->
  nth_error (Boundary.points b) p1 = Some q1 ->
  nth_error (Boundary.points b) p2 = Some q2 ->
  nth_error (Boundary.points b) p3 = Some q3 ->
  Boundary.nSegments b + 2 <= length (Boundary.segments b) ->
  let n := Boundary.nSegments b in
  let sum := lsfSum s0 s1 s2 s3 in
  let along := pairsAlongEdges (Node.status nd) sum in
  exists b' first second e',
    resolveCuts levelSet signedDistance i [p0; p1; p2; p3] b = Ok b' /\
    Boundary.nSegments b' = n + 2 /\
    firstn n (Boundary.segments b') = firstn n (Boundary.segments b) /\
    length (Boundary.segments b') = length (Boundary.segments b) /\
    nth_error (Boundary.segments b') n = Some first /\
    nth_error (Boundary.segments b') (n + 1) = Some second /\
    BoundarySegment.element first = i /\
    BoundarySegment.element second = i /\
    (BoundarySegment.start first, BoundarySegment.end_ first) =
      (if along then (p0, p1) else (p0, p3)) /\
    (BoundarySegment.start second, BoundarySegment.end_ second) =
      (if along then (p2, p3) else (p1, p2)) /\
    nth_error (Mesh.elements (Boundary.mesh b')) i = Some e' /\
    Element.status e' =
      (if (sum >? d0)%D then ElementStatus.CENTRE_INSIDE
       else ElementStatus.CENTRE_OUTSIDE).
Proof.
  intros He Hnd H0 H1 H2 H3 Hq0 Hq1 Hq2 Hq3 Hroom n sum along.
  assert (n < length (Boundary.segments b)) as Hn by (subst n; lia).
  assert (i < length (Mesh.elements (Boundary.mesh b))) as Hi
    by (apply nth_error_Some; congruence).
  unfold resolveCuts. cbn [List.length Nat.eqb]. unfold fourCuts, getElement, getNode.
  rewrite (get_nth _ _ _ _ He). cbn [bind].
  unfold forN. cbn [forFrom]. unfold lsfSumStep.
  rewrite (get_nth _ _ _ _ H0). cbn [bind].
  rewrite (get_nth _ _ _ _ H1). cbn [bind].
  rewrite (get_nth _ _ _ _ H2). cbn [bind].
  rewrite (get_nth _ _ _ _ H3). cbn [bind].
  rewrite (get_nth _ _ _ _ Hnd). cbn [bind get nth_error].
  fold (lsfSum s0 s1 s2 s3). fold sum.
  fold (pairsAlongEdges (Node.status nd) sum). fold along.
  destruct along.
  - rewrite (addSegment_Ok b i p0 p1 q0 q1 e) by assumption. cbn [bind].
    set (b1 := withSegment b i p0 p1 _ e).
    rewrite (addSegment_Ok b1 i p2 p3 q2 q3
               (Element.addBoundarySegment n e)); try assumption;
      try (subst b1; unfold withSegment; psimpl;
           first [ apply nth_error_replace_eq; assumption
                 | rewrite length_replace; subst n; lia ]).
    cbn [bind]. set (b2 := withSegment b1 i p2 p3 _ _).
    unfold setElementStatus, getElement.
    assert (nth_error (Mesh.elements (Boundary.mesh b2)) i
            = Some (Element.addBoundarySegment (S n)
                      (Element.addBoundarySegment n e))) as He2.
    { subst b2 b1. unfold withSegment. psimpl.
      apply nth_error_replace_eq. rewrite length_replace. assumption. }
    rewrite (get_nth _ _ _ _ He2). cbn [bind].
    rewrite set_lt
      by (subst b2 b1; unfold withSegment; psimpl; rewrite !length_replace; assumption).
    cbn [bind].
    eexists. exists (BoundarySegment.mk _ p0 p1 i
                       (distance (BoundaryPoint.coord q0) (BoundaryPoint.coord q1))).
    exists (BoundarySegment.mk _ p2 p3 i
              (distance (BoundaryPoint.coord q2) (BoundaryPoint.coord q3))).
    eexists. split; [reflexivity | ].
    subst b2 b1. unfold withSegment. psimpl. fold n.
    repeat split; try reflexivity.
    + lia.
    + rewrite !firstn_replace_ge by lia. reflexivity.
    + rewrite !length_replace. reflexivity.
    + rewrite nth_error_replace_neq by lia. apply nth_error_replace_eq. assumption.
    + replace (n + 1) with (S n) by lia. apply nth_error_replace_eq.
      rewrite length_replace. lia.
    + apply nth_error_replace_eq. rewrite !length_replace. assumption.
    + reflexivity.
  - rewrite (addSegment_Ok b i p0 p3 q0 q3 e) by assumption. cbn [bind].
    set (b1 := withSegment b i p0 p3 _ e).
    rewrite (addSegment_Ok b1 i p1 p2 q1 q2
               (Element.addBoundarySegment n e)); try assumption;
      try (subst b1; unfold withSegment; psimpl;
           first [ apply nth_error_replace_eq; assumption
                 | rewrite length_replace; subst n; lia ]).
    cbn [bind]. set (b2 := withSegment b1 i p1 p2 _ _).
    unfold setElementStatus, getElement.
    assert (nth_error (Mesh.elements (Boundary.mesh b2)) i
            = Some (Element.addBoundarySegment (S n)
                      (Element.addBoundarySegment n e))) as He2.
    { subst b2 b1. unfold withSegment. psimpl.
      apply nth_error_replace_eq. rewrite length_replace. assumption. }
    rewrite (get_nth _ _ _ _ He2). cbn [bind].
    rewrite set_lt
      by (subst b2 b1; unfold withSegment; psimpl; rewrite !length_replace; assumption).
    cbn [bind].
    eexists. exists (BoundarySegment.mk _ p0 p3 i
                       (distance (BoundaryPoint.coord q0) (BoundaryPoint.coord q3))).
    exists (BoundarySegment.mk _ p1 p2 i
              (distance (BoundaryPoint.coord q1) (BoundaryPoint.coord q2))).
    eexists. split; [reflexivity | ].
    subst b2 b1. unfold withSegment. psimpl. fold n.
    repeat split; try reflexivity.
    + lia.
    + rewrite !firstn_replace_ge by lia. reflexivity.
    + rewrite !length_replace. reflexivity.
    + rewrite nth_error_replace_neq by lia. apply nth_error_replace_eq. assumption.
    + replace (n + 1) with (S n) by lia. apply nth_error_replace_eq.
      rewrite length_replace. lia.
    + apply nth_error_replace_eq. rewrite !length_replace. assumption.
    + reflexivity.
Qed.

End FourCuts.

Lemma resolveCuts_four_witness :
  exists b,
    firstEdges (D := binary64) true checkerboard (newBoundary (gridMesh 1 1))
      = Ok (b, [0; 1; 2; 3]) /\
    exists b' first second e',
      resolveCuts checkerboard (LevelSet.target checkerboard) 0 [0; 1; 2; 3] b = Ok b' /\
      Boundary.nSegments b' = Boundary.nSegments b + 2 /\
      firstn (Boundary.nSegments b) (Boundary.segments b')
        = firstn (Boundary.nSegments b) (Boundary.segments b) /\
      length (Boundary.segments b') = length (Boundary.segments b) /\
      nth_error (Boundary.segments b') (Boundary.nSegments b) = Some first /\
      nth_error (Boundary.segments b') (Boundary.nSegments b + 1) = Some second /\
      BoundarySegment.element first = 0 /\
      BoundarySegment.element second = 0 /\
      (BoundarySegment.start first, BoundarySegment.end_ first) = (0, 3) /\
      (BoundarySegment.start second, BoundarySegment.end_ second) = (1, 2) /\
      nth_error (Mesh.elements (Boundary.mesh b')) 0 = Some e' /\
      Element.status e' = ElementStatus.CENTRE_OUTSIDE.
Proof.
  eexists. split; [vm_compute; reflexivity | ].
  match goal with
  | |- exists b' first second e', resolveCuts ?ls ?sd ?i _ ?b = _ /\ _ =>
      edestruct (fun e nd q0 q1 q2 q3 s0 s1 s2 s3 =>
                   resolveCuts_four (D := binary64) ls sd i b e nd 0 1 2 3
                     q0 q1 q2 q3 s0 s1 s2 s3)
        as (b' & first & second & e' & W)
  end; try (vm_compute; reflexivity).
  { vm_compute. lia. }
  exists b', first, second, e'. exact W.
Defined.

(** ** Area fractions *)

Section AreaFractions.
Context {D : Double}.
Variable sort : (Coord.t double -> Coord.t double -> bool) ->
                list (Coord.t double) -> list (Coord.t double).

Lemma forFrom_ext {S} (f g : nat -> S -> result S) :
  (forall i s, f i s = g i s) ->
  forall k i s, forFrom f i k s = forFrom g i k s.
Proof.
  intros H. induction k as [|k IH]; intros i s; simpl.
  - reflexivity.
  - rewrite H. destruct (g i s); simpl; auto.
Qed.

(** What [cutArea] reads of the boundary. *)
Definition sameGeometry (b b' : Boundary.t double) : Prop :=
  Mesh.nodes (Boundary.mesh b') = Mesh.nodes (Boundary.mesh b) /\
  Boundary.points b' = Boundary.points b /\
  Boundary.segments b' = Boundary.segments b.

Lemma cutVertices_ext b b' e :
  sameGeometry b b' -> cutVertices b' e = cutVertices b e.
Proof.
  intros (Hn & Hp & Hs). unfold cutVertices, forN.
  set (status := if flag (Element.status e) ElementStatus.CENTRE_OUTSIDE
                 then NodeStatus.OUTSIDE else NodeStatus.INSIDE).
  rewrite (forFrom_ext (nodeVertexStep b' e status) (nodeVertexStep b e status)).
  - destruct (forFrom _ 0 4 []); simpl; auto.
    apply forFrom_ext. intros i s.
    unfold segmentVertexStep, getPoint. rewrite Hp, Hs. reflexivity.
  - intros i s. unfold nodeVertexStep, bothInside, getNode. rewrite Hn. reflexivity.
Qed.

Lemma elementArea_ext b b' e :
  sameGeometry b b' -> elementArea sort b' e = elementArea sort b e.
Proof.
  intros H. unfold elementArea, cutArea. rewrite (cutVertices_ext b b' e H).
  reflexivity.
Qed.

(** The state of the loop of [computeAreaFractions] after [j] turns. *)
Record areasDone (b : Boundary.t double) (j : nat) (bj : Boundary.t double) : Prop := {
  ad_geometry : sameGeometry b bj;
  ad_count : Mesh.nElements (Boundary.mesh bj) = Mesh.nElements (Boundary.mesh b);
  ad_done : forall k e, k < j ->
      nth_error (Mesh.elements (Boundary.mesh b)) k = Some e ->
      exists a, elementArea sort b e = Ok a /\
        nth_error (Mesh.elements (Boundary.mesh bj)) k = Some (Element.setArea a e);
  ad_todo : forall k, j <= k ->
      nth_error (Mesh.elements (Boundary.mesh bj)) k
      = nth_error (Mesh.elements (Boundary.mesh b)) k;
  ad_sum : Boundary.area bj
           = total (map Element.area (firstn j (Mesh.elements (Boundary.mesh bj))))
}.

Lemma areaStep_areasDone b j bj bj' :
  areasDone b j bj -> areaStep sort j bj = Ok bj' -> areasDone b (S j) bj'.
Proof.
  intros [Hg Hc Hd Ht Hs] H. unfold areaStep in H. run H.
  apply set_Ok in E1 as [Hlt ->]. unfold getElement in E. apply get_Ok in E.
  rewrite (elementArea_ext b bj a Hg) in E0.
  assert (nth_error (Mesh.elements (Boundary.mesh b)) j = Some a) as Hj
    by (rewrite <- Ht by lia; assumption).
  constructor; psimpl.
  - destruct Hg as (Hn & Hp & Hsg). unfold sameGeometry. psimpl. auto.
  - assumption.
  - intros k e Hk He. destruct (Nat.eq_dec k j) as [->|Hne].
    + exists a0. split; [congruence | ].
      rewrite nth_error_replace_eq by assumption. congruence.
    + destruct (Hd k e ltac:(lia) He) as (x & Hx & Hnth).
      exists x. split; auto. rewrite nth_error_replace_neq by lia. assumption.
  - intros k Hk. rewrite nth_error_replace_neq by lia. apply Ht. lia.
  - rewrite firstn_S_replace by assumption.
    rewrite map_app, Hs. cbn [map]. rewrite total_snoc. reflexivity.
Qed.

Lemma computeAreaFractions_areasDone b b' sum :
  computeAreaFractions sort b = Ok (b', sum) ->
  areasDone b (Mesh.nElements (Boundary.mesh b)) b' /\ sum = Boundary.area b'.
Proof.
  intros H. unfold computeAreaFractions in H. run H. split; [ | reflexivity].
  apply (forN_invariant_at (areasDone b) _ _
           (fun j s s' _ => areaStep_areasDone b j s s')) in E; auto.
  constructor; psimpl; auto.
  - unfold sameGeometry. psimpl. auto.
  - intros k e Hk. lia.
Qed.


End AreaFractions.


(** ** The status of the mesh *)

Section MeshStatusOf.
Context {D : Double}.

(** The status that the first loop of [computeMeshStatus] gives to node [n]. *)
Lemma nodeLoop_status sd (m m1 : Mesh.t double) n d :
  forN (Mesh.nNodes m) (nodeStatusStep sd) m = Ok m1 ->
  n < Mesh.nNodes m ->
  nth_error sd n = Some d ->
  Mesh.elements m1 = Mesh.elements m /\
  Mesh.nElements m1 = Mesh.nElements m /\
  exists nd, nth_error (Mesh.nodes m1) n = Some nd /\ Node.status nd = nodeStatus d.
Proof.
  intros H Hn Hd.
  apply (forN_invariant_at (fun j (x : Mesh.t double) =>
    Mesh.elements x = Mesh.elements m /\
    Mesh.nElements x = Mesh.nElements m /\
    (n < j -> exists nd, nth_error (Mesh.nodes x) n = Some nd /\
                         Node.status nd = nodeStatus d))) in H.
  - destruct H as (H1 & H2 & H3). auto.
  - intros j s s' Hj (H1 & H2 & H3) Hstep. unfold nodeStatusStep in Hstep.
    run Hstep. apply set_Ok in E1 as [Hlt ->]. psimpl.
    repeat split; auto. intros Hnj.
    destruct (Nat.eq_dec n j) as [->|Hne].
    + rewrite nth_error_replace_eq by assumption.
      apply get_Ok in E0. eexists. split; [reflexivity | ]. psimpl. congruence.
    + rewrite nth_error_replace_neq by lia. apply H3. lia.
  - repeat split; auto. lia.
Qed.

Lemma tallyStep_ext (m m' : Mesh.t double) e j t :
  Mesh.nodes m' = Mesh.nodes m -> tallyStep m' e j t = tallyStep m e j t.
Proof. intros H. unfold tallyStep. rewrite H. reflexivity. Qed.

(** The status that the second loop gives to element [i]. *)
Lemma elementLoop_status (m1 m2 : Mesh.t double) i e :
  forN (Mesh.nElements m1) elementStatusStep m1 = Ok m2 ->
  i < Mesh.nElements m1 ->
  nth_error (Mesh.elements m1) i = Some e ->
  Mesh.nodes m2 = Mesh.nodes m1 /\
  exists e' t,
    nth_error (Mesh.elements m2) i = Some e' /\
    Element.nodes e' = Element.nodes e /\
    forN 4 (tallyStep m1 e) (0, 0) = Ok t /\
    Element.status e' = elementStatus t.
Proof.
  intros H Hi He.
  apply (forN_invariant_at (fun j (x : Mesh.t double) =>
    Mesh.nodes x = Mesh.nodes m1 /\
    (j <= i -> nth_error (Mesh.elements x) i = Some e) /\
    (i < j -> exists e' t,
       nth_error (Mesh.elements x) i = Some e' /\
       Element.nodes e' = Element.nodes e /\
       forN 4 (tallyStep m1 e) (0, 0) = Ok t /\
       Element.status e' = elementStatus t))) in H.
  - destruct H as (H1 & _ & H3). auto.
  - intros j s s' Hj (H1 & H2 & H3) Hstep. unfold elementStatusStep in Hstep.
    run Hstep. apply set_Ok in E1 as [Hlt ->]. psimpl.
    split; [assumption | split].
    + intros Hji. rewrite nth_error_replace_neq by lia. apply H2. lia.
    + intros Hij. destruct (Nat.eq_dec i j) as [->|Hne].
      * rewrite nth_error_replace_eq by assumption.
        apply get_Ok in E. rewrite H2 in E by lia. inversion E; subst a.
        exists (Element.reset (elementStatus a0) e), a0. psimpl.
        repeat split; auto.
        unfold forN in *. rewrite <- E0. apply forFrom_ext.
        intros k t. symmetry. apply tallyStep_ext. assumption.
      * rewrite nth_error_replace_neq by lia. apply H3. lia.
  - split; [reflexivity | split; [auto | lia]].
Qed.

(** No tally counts a node that lies on the boundary. *)
Lemma tally_boundary (m : Mesh.t double) e t :
  (forall j, j < 4 -> exists nd,
     nth_error (Mesh.nodes m) (Element.node e j) = Some nd /\
     Node.status nd = NodeStatus.BOUNDARY) ->
  forN 4 (tallyStep m e) (0, 0) = Ok t -> t = (0, 0).
Proof.
  intros Hb H.
  apply (forN_invariant_at (fun _ (x : nat * nat) => x = (0, 0))) in H; auto.
  intros j s s' Hj -> Hstep. unfold tallyStep in Hstep.
  destruct (Hb j Hj) as (nd & Hnd & Hst).
  rewrite (get_nth _ _ _ _ Hnd) in Hstep. cbn [bind] in Hstep.
  rewrite Hst in Hstep. cbn in Hstep. congruence.
Qed.

End MeshStatusOf.

(** ** An element whose four corners lie on the boundary *)

Section BoundaryCorners.
Context {D : Double}.
Variable levelSet : LevelSet.t double.
Variable i : nat.
Variable e : Element.t double.

(** Element [i] is inside and its four corners are on the boundary. *)
Definition cornersOnBoundary (b : Boundary.t double) : Prop :=
  (exists e', nth_error (Mesh.elements (Boundary.mesh b)) i = Some e' /\
     Element.status e' = ElementStatus.INSIDE /\
     Element.nodes e' = Element.nodes e /\
     i < Mesh.nElements (Boundary.mesh b)) /\
  (forall j, j < 4 -> exists nd,
     nth_error (Mesh.nodes (Boundary.mesh b)) (Element.node e j) = Some nd /\
     Node.status nd = NodeStatus.BOUNDARY).

Lemma node_nodes (e1 e2 : Element.t double) j :
  Element.nodes e1 = Element.nodes e2 -> Element.node e1 j = Element.node e2 j.
Proof. intros H. unfold Element.node. rewrite H. reflexivity. Qed.

Lemma registerPoint_corners b n b' :
  cornersOnBoundary b -> registerPoint b n = Ok b' -> cornersOnBoundary b'.
Proof.
  intros [He Hn] H. unfold registerPoint, getNode in H. run H.
  apply set_Ok in E0 as [Hlt ->]. apply get_Ok in E.
  split; psimpl; auto.
  intros j Hj. destruct (Hn j Hj) as (nd & Hnd & Hst).
  destruct (Nat.eq_dec n (Element.node e j)) as [->|Hne].
  - rewrite nth_error_replace_eq by assumption.
    eexists. split; [reflexivity | ]. psimpl. congruence.
  - rewrite nth_error_replace_neq by assumption. eauto.
Qed.

Lemma newPoint_corners b c b' :
  cornersOnBoundary b -> newPoint levelSet b c = Ok b' -> cornersOnBoundary b'.
Proof.
  intros Hb H. unfold newPoint in H. run H. exact Hb.
Qed.

Lemma addSegment_corners b k s t b' :
  cornersOnBoundary b -> addSegment b k s t = Ok b' -> cornersOnBoundary b'.
Proof.
  intros [(e' & He & Hst & Hns & Hlast) Hn] H. unfold addSegment, getElement in H. run H.
  apply set_Ok in E1 as [Hlt ->]. apply get_Ok in E0. psimpl.
  split; psimpl; auto.
  destruct (Nat.eq_dec k i) as [->|Hne].
  - rewrite nth_error_replace_eq by assumption.
    eexists. split; [reflexivity | ]. psimpl.
    assert (a0 = e') by congruence. subst a0. auto.
  - rewrite nth_error_replace_neq by assumption. eauto.
Qed.

Lemma setElementStatus_corners b k s b' :
  k <> i ->
  cornersOnBoundary b -> setElementStatus b k s = Ok b' -> cornersOnBoundary b'.
Proof.
  intros Hne [(e' & He & Hst & Hns & Hlast) Hn] H. unfold setElementStatus in H. run H.
  apply set_Ok in E0 as [Hlt ->].
  split; psimpl; auto.
  rewrite nth_error_replace_neq by assumption. eauto.
Qed.

(** The edges of element [i] are not cut: its turn adds the segments along the
    edges and leaves its status. *)
Lemma edgeStep_corners isTarget sd j s s' :
  j < 4 ->
  cornersOnBoundary (fst s) /\ snd s = [] ->
  edgeStep isTarget levelSet sd i j s = Ok s' ->
  cornersOnBoundary (fst s') /\ snd s' = [].
Proof.
  intros Hj [Hb Hbp] H. destruct s as [b bp]. simpl in Hb, Hbp. subst bp.
  pose proof Hb as [(e' & He & Hst & Hns & Hlast) Hn].
  unfold edgeStep, getElement in H.
  rewrite (get_nth _ _ _ _ He) in H. cbn [bind] in H.
  rewrite !(node_nodes e' e) in H by assumption.
  set (j' := if (j =? 3)%nat then 0 else j + 1) in *.
  assert (j' < 4) as Hj' by (subst j'; destruct (Nat.eqb_spec j 3); lia).
  destruct (Hn j Hj) as (nd1 & Hnd1 & Hst1).
  destruct (Hn j' Hj') as (nd2 & Hnd2 & Hst2).
  bind_inv H. destruct a; [ | ok_inv H; auto].
  unfold getNode in H.
  rewrite (get_nth _ _ _ _ Hnd1), (get_nth _ _ _ _ Hnd2) in H. cbn [bind] in H.
  rewrite Hst1, Hst2 in H. cbn in H.
  run H. simpl. split; [ | reflexivity].
  eapply addSegment_corners; [ | eassumption].
  eapply (nodePoint_keeps cornersOnBoundary levelSet
            registerPoint_corners newPoint_corners); [ | eassumption].
  eapply (nodePoint_keeps cornersOnBoundary levelSet
            registerPoint_corners newPoint_corners); eassumption.
Qed.

Lemma elementStep_corners isTarget sd k b b' :
  cornersOnBoundary b ->
  elementStep isTarget levelSet sd k b = Ok b' -> cornersOnBoundary b'.
Proof.
  intros Hb H. destruct (Nat.eq_dec k i) as [->|Hne].
  - pose proof Hb as [(e' & He & Hst & Hns & Hlast) Hn].
    unfold elementStep, getElement in H.
    rewrite (get_nth _ _ _ _ He) in H. cbn [bind] in H.
    rewrite Hst in H. cbn [Z.eqb ElementStatus.INSIDE ElementStatus.OUTSIDE
                           Pos.eqb negb] in H.
    bind_inv H. destruct a as [b1 bp].
    apply (forN_invariant_at
             (fun _ s => cornersOnBoundary (fst s) /\ snd s = [])) in E.
    + destruct E as [Hb1 Hbp]. simpl in Hb1, Hbp. subst bp.
      unfold resolveCuts in H. cbn [List.length Nat.eqb] in H.
      destruct Hb1 as [(e1 & He1 & Hst1 & Hns1 & Hlast1) Hn1].
      unfold getElement in H. rewrite (get_nth _ _ _ _ He1) in H.
      cbn [bind] in H. rewrite Hst1 in H. cbn in H. ok_inv H.
      split; eauto.
    + intros j s s' Hj. apply edgeStep_corners. assumption.
    + simpl. auto.
  - revert H. apply (elementStep_keeps cornersOnBoundary levelSet); auto.
    + apply registerPoint_corners.
    + apply newPoint_corners.
    + intros x s t y. apply addSegment_corners.
    + intros x s y. apply setElementStatus_corners. assumption.
Qed.

End BoundaryCorners.

Section BoundaryCornersArea.
Context {D : Double}.
Variable sort : (Coord.t double -> Coord.t double -> bool) ->
                list (Coord.t double) -> list (Coord.t double).

Lemma nodeStatus_boundary (d : double) :
  (dabs d <? deps)%D = true -> nodeStatus d = NodeStatus.BOUNDARY.
Proof. intros H. unfold nodeStatus. rewrite H. reflexivity. Qed.

(** What [computeMeshStatus] makes of an element whose corners are within
    1e-6 of the boundary. *)
Lemma computeMeshStatus_corners sd (m m' : Mesh.t double) i e :
  computeMeshStatus sd m = Ok m' ->
  i < Mesh.nElements m ->
  nth_error (Mesh.elements m) i = Some e ->
  (forall j, j < 4 ->
     Element.node e j < Mesh.nNodes m /\
     exists d, nth_error sd (Element.node e j) = Some d /\
               (dabs d <? deps)%D = true) ->
  Mesh.nElements m' = Mesh.nElements m /\
  (exists e', nth_error (Mesh.elements m') i = Some e' /\
     Element.status e' = ElementStatus.INSIDE /\
     Element.nodes e' = Element.nodes e) /\
  (forall j, j < 4 -> exists nd,
     nth_error (Mesh.nodes m') (Element.node e j) = Some nd /\
     Node.status nd = NodeStatus.BOUNDARY).
Proof.
  intros H Hi He Hc.
  pose proof (computeMeshStatus_frame _ _ _ H) as (_ & _ & _ & HnE & _).
  unfold computeMeshStatus in H. bind_inv H.
  assert (forall j, j < 4 -> exists nd,
            nth_error (Mesh.nodes a) (Element.node e j) = Some nd /\
            Node.status nd = NodeStatus.BOUNDARY) as Hnodes.
  { intros j Hj. destruct (Hc j Hj) as (Hlt & d & Hd & Habs).
    destruct (nodeLoop_status _ _ _ _ _ E Hlt Hd) as (_ & _ & nd & Hnd & Hst).
    exists nd. split; auto. rewrite Hst. apply nodeStatus_boundary. assumption. }
  destruct (Hc 0 ltac:(lia)) as (Hlt & d & Hd & _).
  destruct (nodeLoop_status _ _ _ _ _ E Hlt Hd) as (Hel & Hne & _).
  rewrite <- Hel in He. rewrite <- Hne in Hi.
  destruct (elementLoop_status _ _ _ _ H Hi He)
    as (Hns & e' & t & He' & Hen & Ht & Hst).
  apply (tally_boundary _ _ _ Hnodes) in Ht. subst t.
  split; [assumption | split].
  - exists e'. auto.
  - intros j Hj. rewrite Hns. auto.
Qed.

(** C10.  When the four corners of an element are within 1e-6 of the
    boundary, [computeMeshStatus] classifies the element as inside, it is
    still so when [discretise] completes, and [computeAreaFractions] then
    gives it the area 1.0. *)
Theorem boundary_corners_inside isTarget levelSet (b b1 : Boundary.t double) i e :
  discretise isTarget levelSet b = Ok b1 ->
  i < Mesh.nElements (Boundary.mesh b) ->
  nth_error (Mesh.elements (Boundary.mesh b)) i = Some e ->
  (forall j, j < 4 ->
     Element.node e j < Mesh.nNodes (Boundary.mesh b) /\
     exists d, nth_error (selectField isTarget levelSet) (Element.node e j) = Some d /\
               (dabs d <? deps)%D = true) ->
  (exists m e0,
     computeMeshStatus (selectField isTarget levelSet) (Boundary.mesh b) = Ok m /\
     nth_error (Mesh.elements m) i = Some e0 /\
     Element.status e0 = ElementStatus.INSIDE) /\
  (exists e1,
     nth_error (Mesh.elements (Boundary.mesh b1)) i = Some e1 /\
     Element.status e1 = ElementStatus.INSIDE) /\
  (forall b2 sum,
     computeAreaFractions sort b1 = Ok (b2, sum) ->
     exists e2,
       nth_error (Mesh.elements (Boundary.mesh b2)) i = Some e2 /\
       Element.area e2 = d1).
Proof.
  intros H Hi He Hc. unfold discretise in H.
  apply bind_Ok in H as (a & Hex & H).
  unfold extract in Hex. apply bind_Ok in Hex as (m & Hm & Hex).
  unfold allocate in Hm, Hex. psimpl.
  destruct (computeMeshStatus_corners _ _ _ _ _ Hm Hi He Hc)
    as (HnE & (e0 & He0 & Hst0 & Hns0) & Hnodes).
  split; [eauto | ].
  assert (cornersOnBoundary i e a) as Ha.
  { eapply (forN_invariant (cornersOnBoundary i e)); [ | | exact Hex].
    - intros k s s'. apply elementStep_corners.
    - split; psimpl; [ | assumption].
      exists e0. repeat split; auto. lia. }
  apply computePointLengths_pointsModified in H as (_ & _ & _ & _ & _ & _ & Hmesh).
  unfold shrink in Hmesh. psimpl.
  destruct Ha as [(e1 & He1 & Hst1 & Hns1 & Hlast) _].
  rewrite <- Hmesh in He1, Hlast.
  split; [eauto | ].
  intros b2 sum Harea.
  apply computeAreaFractions_areasDone in Harea as [[_ _ Hd _ _] _].
  destruct (Hd i e1 Hlast He1) as (x & Hx & Hnth).
  exists (Element.setArea x e1). split; [assumption | ]. psimpl.
  unfold elementArea in Hx. rewrite Hst1 in Hx. cbn in Hx. congruence.
Qed.

End BoundaryCornersArea.

Lemma boundary_corners_inside_witness :
  exists b1,
    discretise (D := binary64) true cornersOnly
      (newBoundary (gridMesh 1 1)) = Ok b1 /\
    (exists e1,
       nth_error (Mesh.elements (Boundary.mesh b1)) 0 = Some e1 /\
       Element.status e1 = ElementStatus.INSIDE) /\
    (forall b2 sum,
       computeAreaFractions insertionSort b1 = Ok (b2, sum) ->
       exists e2,
         nth_error (Mesh.elements (Boundary.mesh b2)) 0 = Some e2 /\
         Element.area e2 = 1%float).
Proof.
  eexists. split; [vm_compute; reflexivity | ].
  refine (proj2 (boundary_corners_inside (D := binary64) insertionSort true
            cornersOnly (newBoundary (gridMesh 1 1)) _ 0
            (gridElement 1 0) _ _ _ _)).
  - vm_compute. reflexivity.
  - vm_compute. lia.
  - reflexivity.
  - intros j Hj. split.
    + destruct j as [|[|[|[|j]]]]; vm_compute; lia.
    + exists 0%float. destruct j as [|[|[|[|j]]]]; try lia;
        (split; [reflexivity | vm_compute; reflexivity]).
Defined.

(** ** Normal vectors *)

Section Normals.
Context {D : Double}.

(** A loop whose turns cannot fail does not fail. *)
Lemma forFrom_total {S} (I : nat -> S -> Prop) (body : nat -> S -> result S) :
  forall k i,
  (forall j s, i <= j < i + k -> I j s -> exists s', body j s = Ok s' /\ I (Datatypes.S j) s') ->
  forall s, I i s -> exists s', forFrom body i k s = Ok s' /\ I (i + k) s'.
Proof.
  induction k as [|k IH]; simpl; intros i Hbody s Hs.
  - exists s. rewrite Nat.add_0_r. auto.
  - destruct (Hbody i s ltac:(lia) Hs) as (s1 & H1 & Hs1). rewrite H1. cbn [bind].
    replace (i + Datatypes.S k) with (Datatypes.S i + k) by lia.
    apply IH; auto. intros j t Hj. apply Hbody. lia.
Qed.

Lemma forN_total {S} (I : nat -> S -> Prop) (n : nat) (body : nat -> S -> result S) :
  (forall j s, j < n -> I j s -> exists s', body j s = Ok s' /\ I (Datatypes.S j) s') ->
  forall s, I 0 s -> exists s', forN n body s = Ok s' /\ I n s'.
Proof.
  intros Hbody s Hs. unfold forN.
  apply (forFrom_total I body n 0); auto. intros j t Hj. apply Hbody. lia.
Qed.

Lemma modifyPoint_Ok f k (b : Boundary.t double) p :
  nth_error (Boundary.points b) k = Some p ->
  modifyPoint f k b =
  Ok (Boundary.setPoints (replace (Boundary.points b) k (f p)) b).
Proof.
  intros H. unfold modifyPoint, getPoint. rewrite (get_nth _ _ _ _ H). cbn [bind].
  rewrite set_lt by (apply nth_error_Some; congruence). reflexivity.
Qed.

Lemma modifyPoint_inv f k (b b' : Boundary.t double) :
  modifyPoint f k b = Ok b' ->
  exists p, nth_error (Boundary.points b) k = Some p /\
    b' = Boundary.setPoints (replace (Boundary.points b) k (f p)) b.
Proof.
  intros H. unfold modifyPoint, getPoint in H. run H.
  apply set_Ok in E0 as [_ ->]. apply get_Ok in E. eauto.
Qed.

(** What the last loop makes of a point, given its weight. *)
Definition interpolated (w : double) (p : BoundaryPoint.t double)
  : BoundaryPoint.t double :=
  if negb (BoundaryPoint.isDomain p)
  then BoundaryPoint.setNormal (interpolate (BoundaryPoint.normal p) w) p
  else p.

(** The state of the last loop after [j] turns. *)
Definition interpolatedTo (weight : list double) (b : Boundary.t double) (j : nat)
  (bj : Boundary.t double) : Prop :=
  length (Boundary.points bj) = length (Boundary.points b) /\
  Boundary.nPoints bj = Boundary.nPoints b /\
  forall i p, nth_error (Boundary.points b) i = Some p ->
    if (i <? j)%nat
    then exists w, nth_error weight i = Some w /\
           nth_error (Boundary.points bj) i = Some (interpolated w p)
    else nth_error (Boundary.points bj) i = Some p.

Lemma interpolateStep_Ok weight b j bj :
  j < length (Boundary.points b) -> j < length weight ->
  interpolatedTo weight b j bj ->
  exists bj', interpolateStep weight j bj = Ok bj' /\
              interpolatedTo weight b (S j) bj'.
Proof.
  intros Hj Hw (Hlen & HnP & Hpts).
  destruct (nth_error (Boundary.points b) j) as [p|] eqn:Hp;
    [ | apply nth_error_None in Hp; lia].
  destruct (nth_error weight j) as [w|] eqn:Hwj;
    [ | apply nth_error_None in Hwj; lia].
  pose proof (Hpts j p Hp) as Hjp. rewrite Nat.ltb_irrefl in Hjp.
  unfold interpolateStep, getPoint. rewrite (get_nth _ _ _ _ Hjp). cbn [bind].
  assert (forall b2 : Boundary.t double,
            length (Boundary.points b2) = length (Boundary.points b) ->
            Boundary.nPoints b2 = Boundary.nPoints b ->
            nth_error (Boundary.points b2) j = Some (interpolated w p) ->
            (forall i, i <> j ->
               nth_error (Boundary.points b2) i = nth_error (Boundary.points bj) i) ->
            interpolatedTo weight b (S j) b2) as Hdone.
  { intros b2 H1 H2 H3 H4. split; [assumption | split; [assumption | ]].
    intros i q Hq. specialize (Hpts i q Hq).
    destruct (Nat.eq_dec i j) as [->|Hne].
    - replace (j <? S j)%nat with true by (symmetry; apply Nat.ltb_lt; lia).
      assert (q = p) by congruence. subst q. exists w. auto.
    - rewrite H4 by assumption.
      destruct (i <? j)%nat eqn:Eij.
      + replace (i <? S j)%nat with true
          by (symmetry; apply Nat.ltb_lt; apply Nat.ltb_lt in Eij; lia).
        assumption.
      + replace (i <? S j)%nat with false
          by (symmetry; apply Nat.ltb_ge; apply Nat.ltb_ge in Eij; lia).
        assumption. }
  destruct (BoundaryPoint.isDomain p) eqn:Hdom; cbn [negb].
  - exists bj. split; [reflexivity | ]. apply Hdone; auto.
    unfold interpolated. rewrite Hdom. assumption.
  - rewrite (get_nth _ _ _ _ Hwj). cbn [bind].
    rewrite (modifyPoint_Ok _ _ _ _ Hjp). eexists. split; [reflexivity | ].
    apply Hdone; psimpl.
    + rewrite length_replace. assumption.
    + assumption.
    + rewrite nth_error_replace_eq by (apply nth_error_Some; congruence).
      unfold interpolated. rewrite Hdom. reflexivity.
    + intros i Hne. apply nth_error_replace_neq. auto.
Qed.

(** The last loop of [computeNormalVectors] always completes and stores, for a
    point that is not on the domain edge, the interpolated normal. *)
Lemma interpolate_all weight (b : Boundary.t double) :
  Boundary.nPoints b <= length (Boundary.points b) ->
  Boundary.nPoints b <= length weight ->
  exists b', forN (Boundary.nPoints b) (interpolateStep weight) b = Ok b' /\
             interpolatedTo weight b (Boundary.nPoints b) b'.
Proof.
  intros Hp Hw.
  apply (forN_total (interpolatedTo weight b)).
  - intros j s Hj. apply interpolateStep_Ok; lia.
  - split; [reflexivity | split; [reflexivity | ]]. intros i p Hi. exact Hi.
Qed.

(** *** The accumulation *)

(** The vectors on entry to the last loop are long enough for it. *)
Definition accumulated (n len : nat) (s : NormalState) : Prop :=
  let '(b, isSet, weight) := s in
  Boundary.nPoints b = n /\ length (Boundary.points b) = len /\
  length weight = n /\ length isSet = n.

Lemma modifyPoint_accumulated f k n len b isSet weight b' :
  accumulated n len (b, isSet, weight) -> modifyPoint f k b = Ok b' ->
  accumulated n len (b', isSet, weight).
Proof.
  intros (H1 & H2 & H3 & H4) H. apply modifyPoint_inv in H as (p & Hp & ->).
  unfold accumulated. psimpl. rewrite length_replace. auto.
Qed.

Lemma scatterStep_accumulated nd v j n len s s' :
  accumulated n len s -> scatterStep nd v j s = Ok s' -> accumulated n len s'.
Proof.
  intros Hs H. destruct s as [[b isSet] weight]. unfold scatterStep in H.
  destruct v as [xNormal yNormal]. run H.
  - apply set_Ok in E2 as [_ ->]. apply set_Ok in E3 as [_ ->].
    apply (modifyPoint_accumulated _ _ _ _ _ _ _ _ Hs) in E1.
    destruct E1 as (H1 & H2 & H3 & H4).
    unfold accumulated. rewrite !length_replace. auto.
  - apply set_Ok in E4 as [_ ->].
    apply (modifyPoint_accumulated _ _ _ _ _ _ _ _ Hs) in E2.
    destruct E2 as (H1 & H2 & H3 & H4).
    unfold accumulated. rewrite !length_replace. auto.
  - assumption.
Qed.

Lemma narrowBandStep_accumulated levelSet i n len s s' :
  accumulated n len s -> narrowBandStep levelSet i s = Ok s' -> accumulated n len s'.
Proof.
  intros Hs H. destruct s as [[b isSet] weight]. unfold narrowBandStep in H.
  run H.
  - eapply forN_invariant; [ | exact Hs | exact H].
    intros j t t'. apply scatterStep_accumulated.
  - assumption.
Qed.

Lemma accumulateNormals_accumulated levelSet b b1 isSet weight :
  accumulateNormals levelSet b = Ok (b1, isSet, weight) ->
  Boundary.nPoints b1 <= length (Boundary.points b1) /\
  length weight = Boundary.nPoints b1.
Proof.
  intros H. unfold accumulateNormals in H. bind_inv H.
  apply (forN_invariant_at (fun j (x : Boundary.t double) =>
           j <= length (Boundary.points x) /\
           Boundary.nPoints x = Boundary.nPoints b /\
           length (Boundary.points x) = length (Boundary.points b))) in E.
  - destruct E as (Hle & HnP & Hlen).
    apply (forN_invariant
             (accumulated (Boundary.nPoints b) (length (Boundary.points b)))
             _ _ (fun i => narrowBandStep_accumulated levelSet i _ _)) in H.
    + destruct H as (H1 & H2 & H3 & H4). split; [lia | congruence].
    + unfold accumulated. rewrite !repeat_length. auto.
  - intros j s s' Hj (Hle & HnP & Hlen) Hstep. unfold initNormalStep in Hstep.
    apply modifyPoint_inv in Hstep as (p & Hp & ->). psimpl.
    rewrite length_replace. repeat split; auto.
    apply nth_error_Some. congruence.
  - repeat split; auto. lia.
Qed.

End Normals.

Section NormalsOfPoints.
Context {D : Double}.

(** The Euclidean length of a normal vector. *)
Definition norm (n : double * double) : double :=
  dsqrt (fst n * fst n + snd n * snd n)%D.

Lemma computeNormalVectors_split levelSet (b b' : Boundary.t double) :
  computeNormalVectors levelSet b = Ok b' <->
  exists b1 isSet weight,
    accumulateNormals levelSet b = Ok (b1, isSet, weight) /\
    forN (Boundary.nPoints b1) (interpolateStep weight) b1 = Ok b'.
Proof.
  unfold computeNormalVectors. split.
  - intros H. bind_inv H. destruct a as [[b1 isSet] weight]. eauto.
  - intros (b1 & isSet & weight & -> & H). exact H.
Qed.


(** The last loop divides by the weights unchecked. *)
Lemma interpolate_unchecked levelSet (b b1 : Boundary.t double) isSet weight :
  accumulateNormals levelSet b = Ok (b1, isSet, weight) ->
  exists b',
    computeNormalVectors levelSet b = Ok b' /\
    forall i p w,
      i < Boundary.nPoints b1 ->
      nth_error (Boundary.points b1) i = Some p ->
      nth_error weight i = Some w ->
      BoundaryPoint.isDomain p = false ->
      exists p',
        nth_error (Boundary.points b') i = Some p' /\
        BoundaryPoint.normal p' = interpolate (BoundaryPoint.normal p) w.
Proof.
  intros H. destruct (accumulateNormals_accumulated _ _ _ _ _ H) as [Hp Hw].
  destruct (interpolate_all weight b1 Hp ltac:(lia)) as (b' & Hb' & _ & _ & Hpts).
  exists b'. split.
  - apply computeNormalVectors_split. eauto.
  - intros i p w Hi Hnth Hwi Hdom. specialize (Hpts i p Hnth).
    apply Nat.ltb_lt in Hi. rewrite Hi in Hpts.
    destruct Hpts as (w' & Hw' & Hp').
    assert (w' = w) by congruence. subst w'.
    eexists. split; [exact Hp' | ].
    unfold interpolated. rewrite Hdom. reflexivity.
Qed.

End NormalsOfPoints.




(** ** The storage of the points and of the segments *)

Section Storage.
Context {D : Double}.

(** The loop over the elements writes into the vectors and never resizes
    them. *)
Definition storage (n : nat) (b : Boundary.t double) : Prop :=
  length (Boundary.points b) = n /\ length (Boundary.segments b) = n.

Lemma elementStep_storage n isTarget levelSet sd i b b' :
  storage n b -> elementStep isTarget levelSet sd i b = Ok b' -> storage n b'.
Proof.
  apply elementStep_keeps; unfold storage.
  - intros x k y Hx H. unfold registerPoint in H. run H. psimpl. assumption.
  - intros x c y Hx H. unfold newPoint in H. run H.
    apply set_Ok in E0 as [_ ->]. psimpl. rewrite length_replace. assumption.
  - intros x s e y Hx H. unfold addSegment in H. run H.
    apply set_Ok in E2 as [_ ->]. psimpl. rewrite length_replace. assumption.
  - intros x s y Hx H. unfold setElementStatus in H. run H. psimpl. assumption.
Qed.

(** From an empty boundary the vectors keep the size they are given at line
    44, and the counts of the points and of the segments stay below it. *)
Lemma extract_storage isTarget levelSet b b' :
  Boundary.points b = [] -> Boundary.segments b = [] ->
  extract isTarget levelSet b = Ok b' ->
  storage (allocation (Boundary.mesh b)) b' /\
  Boundary.nPoints b' <= allocation (Boundary.mesh b) /\
  Boundary.nSegments b' <= allocation (Boundary.mesh b).
Proof.
  intros Hp Hs H.
  assert (storage (allocation (Boundary.mesh b)) b') as Hst.
  { unfold extract in H. run H.
    eapply forN_invariant; [ | | exact H].
    - intros i s s'. apply elementStep_storage.
    - unfold storage, allocate. psimpl. rewrite Hp, Hs, !length_resize. auto. }
  split; [exact Hst | ].
  pose proof (extract_extracted isTarget levelSet (fun _ => True) b b'
                (fun _ _ _ _ _ => I) H) as [H1 H2 _ _ _ _].
  destruct Hst as [Hpt Hseg]. lia.
Qed.

End Storage.

(** C7.  On the grid of two by two elements the storage has four slots; with
    the corners of the domain outside and the other nodes inside, the
    boundary has eight points, and [discretise] writes the fifth one past the
    end of the vector instead of growing it. *)
Theorem discretise_overflow :
  allocation (D := binary64) (gridMesh 2 2) = 4 /\
  discretise (D := binary64) true cornersOutside (newBoundary (gridMesh 2 2))
  = Err OutOfBounds.
Proof. split; vm_compute; reflexivity. Qed.

(** ** The segments and the points that they join *)

Section Segments.
Context {D : Double}.
Variable levelSet : LevelSet.t double.

(** The points that the nodes are adjacent to are numbered below [n]. *)
Definition nodesBelow (n : nat) (b : Boundary.t double) : Prop :=
  forall i nd, nth_error (Mesh.nodes (Boundary.mesh b)) i = Some nd ->
    Forall (fun p => p < n) (Node.boundaryPoints nd).

(** The segment joins two of the points made so far, and its length is the
    distance between them. *)
Definition joins (b : Boundary.t double) (s : BoundarySegment.t double) : Prop :=
  BoundarySegment.start s < Boundary.nPoints b /\
  BoundarySegment.end_ s < Boundary.nPoints b /\
  exists p q,
    nth_error (Boundary.points b) (BoundarySegment.start s) = Some p /\
    nth_error (Boundary.points b) (BoundarySegment.end_ s) = Some q /\
    BoundarySegment.length s =
      distance (BoundaryPoint.coord p) (BoundaryPoint.coord q).

Definition coherent (b : Boundary.t double) : Prop :=
  nodesBelow (Boundary.nPoints b) b /\
  Forall (joins b) (firstn (Boundary.nSegments b) (Boundary.segments b)).

Lemma findPoint_below n points c adjacent index :
  Forall (fun p => p < n) adjacent ->
  findPoint points c adjacent = Ok index ->
  (index <? 0)%Z = false -> Z.to_nat index < n.
Proof.
  induction 1 as [|k rest Hk Hrest IH]; simpl; intros H Hpos.
  - inversion H; subst. discriminate.
  - bind_inv H. destruct (samePoint c (BoundaryPoint.coord a)).
    + inversion H; subst. rewrite Nat2Z.id. exact Hk.
    + auto.
Qed.

Lemma isAdded_below n b node edge d c index :
  nodesBelow n b -> isAdded b node edge d = Ok (c, index) ->
  (index <? 0)%Z = false -> Z.to_nat index < n.
Proof.
  intros Hb H. unfold isAdded, getNode in H.
  apply bind_Ok in H as (nd & Hnd & H). apply bind_Ok in H as (k & Hk & H).
  inversion H; subst. apply get_Ok in Hnd. intros Hpos.
  eapply findPoint_below; [exact (Hb node nd Hnd) | exact Hk | exact Hpos].
Qed.

Lemma nodesBelow_le n n' b : n <= n' -> nodesBelow n b -> nodesBelow n' b.
Proof.
  intros Hle Hb i nd Hnd. eapply Forall_impl; [ | exact (Hb i nd Hnd)].
  cbn beta. intros. lia.
Qed.

Lemma joins_ext b b' s :
  Boundary.nPoints b <= Boundary.nPoints b' ->
  (forall k, k < Boundary.nPoints b ->
     nth_error (Boundary.points b') k = nth_error (Boundary.points b) k) ->
  joins b s -> joins b' s.
Proof.
  intros Hn Hp (Hs & He & p & q & Hp1 & Hq1 & Hlen).
  repeat split; try lia. exists p, q. rewrite !Hp by assumption. auto.
Qed.

Lemma registerPoint_below n b node b' :
  nodesBelow n b -> registerPoint b node = Ok b' ->
  nodesBelow (Nat.max n (S (Boundary.nPoints b))) b' /\
  Boundary.points b' = Boundary.points b /\
  Boundary.segments b' = Boundary.segments b /\
  Boundary.nPoints b' = Boundary.nPoints b /\
  Boundary.nSegments b' = Boundary.nSegments b.
Proof.
  intros Hb H. unfold registerPoint, getNode in H.
  apply bind_Ok in H as (nd & Hnd & H). apply bind_Ok in H as (ns & Hns & H).
  inversion H; subst. clear H. apply set_Ok in Hns as [Hlt ->].
  apply get_Ok in Hnd. psimpl. repeat split; auto.
  intros i x Hx. psimpl.
  destruct (Nat.eq_dec i node) as [->|Hne].
  - rewrite nth_error_replace_eq in Hx by assumption. inversion Hx; subst.
    psimpl. apply Forall_app. split.
    + eapply Forall_impl; [ | exact (Hb node nd Hnd)]. cbn beta. intros. lia.
    + repeat constructor. lia.
  - rewrite nth_error_replace_neq in Hx by auto.
    eapply Forall_impl; [ | exact (Hb i x Hx)]. cbn beta. intros. lia.
Qed.

Lemma newPoint_coherent n b c b' :
  nodesBelow n b ->
  Forall (joins b) (firstn (Boundary.nSegments b) (Boundary.segments b)) ->
  newPoint levelSet b c = Ok b' ->
  nodesBelow n b' /\
  Forall (joins b') (firstn (Boundary.nSegments b') (Boundary.segments b')) /\
  Boundary.nPoints b' = S (Boundary.nPoints b).
Proof.
  intros Hb Hs H. unfold newPoint, getPoint in H.
  apply bind_Ok in H as (old & Hold & H). apply bind_Ok in H as (ps & Hps & H).
  inversion H; subst. clear H. apply set_Ok in Hps as [Hlt ->]. psimpl.
  repeat split; auto.
  eapply Forall_impl; [ | exact Hs]. intros s. apply joins_ext; psimpl.
  - lia.
  - intros k Hk. apply nth_error_replace_neq. lia.
Qed.

Lemma nodePoint_coherent b node b' index :
  coherent b -> nodePoint levelSet b node = Ok (b', index) ->
  coherent b' /\ index < Boundary.nPoints b' /\
  Boundary.nPoints b <= Boundary.nPoints b'.
Proof.
  intros [Hn Hs] H. unfold nodePoint in H.
  apply bind_Ok in H as ([c k] & Hadd & H).
  destruct (k <? 0)%Z eqn:Hk.
  - apply bind_Ok in H as (b1 & Hb1 & H). apply bind_Ok in H as (b2 & Hb2 & H).
    inversion H; subst. clear H.
    apply (registerPoint_below _ _ _ _ Hn) in Hb1 as (Hn1 & Hp1 & Hs1 & Hnp1 & Hns1).
    rewrite Nat.max_r in Hn1 by lia.
    apply (newPoint_coherent (S (Boundary.nPoints b))) in Hb2 as (Hn2 & Hs2 & Hnp2).
    + rewrite Hnp1 in Hnp2. unfold coherent. rewrite Hnp2. auto.
    + exact Hn1.
    + rewrite Hns1, Hs1. eapply Forall_impl; [ | exact Hs].
      intros s. apply joins_ext; [lia | ]. intros. rewrite Hp1. reflexivity.
  - inversion H; subst. clear H. split; [split; assumption | ].
    split; [ | lia]. eapply isAdded_below; eauto.
Qed.

Lemma addSegment_coherent b i start end_ b' :
  coherent b -> start < Boundary.nPoints b -> end_ < Boundary.nPoints b ->
  addSegment b i start end_ = Ok b' ->
  coherent b' /\ Boundary.nPoints b' = Boundary.nPoints b.
Proof.
  intros [Hn Hs] Hstart Hend H. unfold addSegment, segmentLength, getPoint, getElement in H.
  apply bind_Ok in H as (len & Hlen & H).
  apply bind_Ok in Hlen as (p & Hp & Hlen). apply bind_Ok in Hlen as (q & Hq & Hlen).
  inversion Hlen; subst. clear Hlen.
  apply bind_Ok in H as (e & He & H). apply bind_Ok in H as (es & Hes & H).
  apply bind_Ok in H as (ss & Hss & H). inversion H; subst. clear H.
  apply set_Ok in Hes as [_ ->]. apply set_Ok in Hss as [Hlt ->].
  apply get_Ok in Hp, Hq. psimpl.
  split; [ | reflexivity]. split; psimpl.
  - exact Hn.
  - rewrite firstn_S_replace by assumption. apply Forall_app. split.
    + eapply Forall_impl; [ | exact Hs]. intros s. apply joins_ext; psimpl; auto.
    + repeat constructor; psimpl; auto. exists p, q. auto.
Qed.

Lemma setElementStatus_coherent b i status b' :
  coherent b -> setElementStatus b i status = Ok b' ->
  coherent b' /\ Boundary.nPoints b' = Boundary.nPoints b.
Proof.
  intros Hb H. unfold setElementStatus in H. run H. auto.
Qed.

End Segments.

Section SegmentsOfElement.
Context {D : Double}.
Variable levelSet : LevelSet.t double.

(** The state of the loop over the edges: the slots of the local array hold
    points made so far. *)
Definition valid (s : Boundary.t double * list nat) : Prop :=
  coherent (fst s) /\ Forall (fun p => p < Boundary.nPoints (fst s)) (snd s).

Lemma below_le n n' (l : list nat) :
  n <= n' -> Forall (fun p => p < n) l -> Forall (fun p => p < n') l.
Proof. intros Hle. apply Forall_impl. intros. lia. Qed.

Lemma get_below {what} n (l : list nat) k p :
  Forall (fun p => p < n) l -> get what l k = Ok p -> p < n.
Proof.
  intros Hl H. apply get_In in H. rewrite Forall_forall in Hl. auto.
Qed.

(** A new point on a cut edge (lines 104-118). *)
Lemma cutPoint_coherent b n1 n2 c b1 b2 b3 :
  coherent b -> registerPoint b n1 = Ok b1 -> registerPoint b1 n2 = Ok b2 ->
  newPoint levelSet b2 c = Ok b3 ->
  coherent b3 /\ Boundary.nPoints b3 = S (Boundary.nPoints b).
Proof.
  intros [Hn Hs] H1 H2 H3.
  apply (registerPoint_below _ _ _ _ Hn) in H1 as (Hn1 & Hp1 & Hs1 & Hnp1 & Hns1).
  apply (registerPoint_below _ _ _ _ Hn1) in H2 as (Hn2 & Hp2 & Hs2 & Hnp2 & Hns2).
  rewrite Hnp1 in Hn2. rewrite !Nat.max_r in Hn2 by lia.
  apply (newPoint_coherent levelSet _ _ _ _ Hn2) in H3 as (Hn3 & Hs3 & Hnp3).
  - rewrite Hnp2, Hnp1 in Hnp3. unfold coherent. rewrite Hnp3. auto.
  - rewrite Hns2, Hs2, Hns1, Hs1. eapply Forall_impl; [ | exact Hs].
    intros s. apply joins_ext; [lia | ]. intros. rewrite Hp2, Hp1. reflexivity.
Qed.

Lemma edgeStep_coherent isTarget sd i j s s' :
  valid s -> edgeStep isTarget levelSet sd i j s = Ok s' -> valid s'.
Proof.
  destruct s as [b bp]. unfold valid. cbn [fst snd]. intros [Hb Hbp] H.
  unfold edgeStep in H. run H; cbn [fst snd]; auto.
  - match goal with
    | H1 : registerPoint b _ = Ok ?x, H2 : registerPoint ?x _ = Ok ?y,
      H3 : newPoint _ ?y _ = Ok _ |- _ =>
        destruct (cutPoint_coherent _ _ _ _ _ _ _ Hb H1 H2 H3) as [Hc Hnp]
    end.
    split; [assumption | ]. rewrite Hnp. apply Forall_app. split.
    + eapply below_le; [ | exact Hbp]. lia.
    + repeat constructor.
  - split; [assumption | ]. apply Forall_app. split; [assumption | ].
    repeat constructor. destruct Hb as [Hn _].
    match goal with
    | H1 : isAdded _ _ _ _ = Ok _ |- _ => eapply isAdded_below; [exact Hn | exact H1 | assumption]
    end.
  - match goal with
    | H1 : nodePoint _ b _ = Ok (?x, _), H2 : nodePoint _ ?x _ = Ok (?y, _),
      H3 : addSegment ?y _ _ _ = Ok _ |- _ =>
        apply (nodePoint_coherent _ _ _ _ _ Hb) in H1 as (Hc1 & Hi1 & Hle1);
        apply (nodePoint_coherent _ _ _ _ _ Hc1) in H2 as (Hc2 & Hi2 & Hle2);
        apply (addSegment_coherent _ _ _ _ _ Hc2) in H3 as (Hc3 & Hnp3);
        [ | lia | lia ]
    end.
    split; [assumption | ]. eapply below_le; [ | exact Hbp]. lia.
Qed.

Lemma oneCutStep_coherent i bp j (b0 b b' : Boundary.t double) :
  Forall (fun p => p < Boundary.nPoints b0) bp ->
  coherent b /\ Boundary.nPoints b0 <= Boundary.nPoints b ->
  oneCutStep levelSet i bp j b = Ok b' ->
  coherent b' /\ Boundary.nPoints b0 <= Boundary.nPoints b'.
Proof.
  intros Hbp [Hb Hle] H. unfold oneCutStep in H. run H; auto.
  match goal with
  | H0 : get _ bp 0 = Ok _, H1 : nodePoint _ b _ = Ok (?x, _) |- _ =>
      apply (get_below _ _ _ _ Hbp) in H0;
      apply (nodePoint_coherent _ _ _ _ _ Hb) in H1 as (Hc1 & Hi1 & Hle1);
      apply (addSegment_coherent _ _ _ _ _ Hc1) in H as (Hc2 & Hnp2);
      [ | lia | lia ]
  end.
  split; [assumption | lia].
Qed.

Lemma fourCuts_coherent sd i bp (b b' : Boundary.t double) :
  Forall (fun p => p < Boundary.nPoints b) bp -> coherent b ->
  fourCuts sd i bp b = Ok b' -> coherent b'.
Proof.
  intros Hbp Hb H. unfold fourCuts in H. run H.
  match goal with
  | E : (if _ then _ else _) = Ok _ |- _ => run E
  end;
  repeat match goal with
  | H0 : get _ bp _ = Ok _ |- _ => apply (get_below _ _ _ _ Hbp) in H0
  end;
  match goal with
  | H1 : addSegment b _ _ _ = Ok ?x, H2 : addSegment ?x _ _ _ = Ok _ |- _ =>
      apply (addSegment_coherent _ _ _ _ _ Hb) in H1 as (Hc1 & Hnp1); [ | lia | lia ];
      apply (addSegment_coherent _ _ _ _ _ Hc1) in H2 as (Hc2 & Hnp2); [ | lia | lia ]
  end;
  apply (setElementStatus_coherent _ _ _ _ Hc2) in H as [Hc3 _]; exact Hc3.
Qed.

Lemma diagonal_coherent i bp b b' :
  coherent b -> diagonal levelSet i bp b = Ok b' -> coherent b'.
Proof.
  intros Hb H. unfold diagonal in H. run H.
  match goal with
  | H1 : nodePoint _ b _ = Ok (?x, _), H2 : nodePoint _ ?x _ = Ok (?y, _) |- _ =>
      apply (nodePoint_coherent _ _ _ _ _ Hb) in H1 as (Hc1 & Hi1 & Hle1);
      apply (nodePoint_coherent _ _ _ _ _ Hc1) in H2 as (Hc2 & Hi2 & Hle2);
      apply (addSegment_coherent _ _ _ _ _ Hc2) in H as (Hc3 & Hnp3);
      [ | lia | lia ]
  end.
  assumption.
Qed.

Lemma resolveCuts_coherent sd i bp (b b' : Boundary.t double) :
  Forall (fun p => p < Boundary.nPoints b) bp -> coherent b ->
  resolveCuts levelSet sd i bp b = Ok b' -> coherent b'.
Proof.
  intros Hbp Hb H. unfold resolveCuts in H. run H; auto.
  - repeat match goal with
    | H0 : get _ bp _ = Ok _ |- _ => apply (get_below _ _ _ _ Hbp) in H0
    end.
    apply (addSegment_coherent _ _ _ _ _ Hb) in H as [Hc _]; assumption.
  - apply (forN_invariant
             (fun x => coherent x /\ Boundary.nPoints b <= Boundary.nPoints x))
      in H as [Hc _]; auto.
    intros k s s'. apply oneCutStep_coherent. assumption.
  - eapply fourCuts_coherent; eauto.
  - eapply diagonal_coherent; eauto.
Qed.

Lemma elementStep_coherent isTarget sd i b b' :
  coherent b -> elementStep isTarget levelSet sd i b = Ok b' -> coherent b'.
Proof.
  intros Hb H. unfold elementStep in H. run H; auto.
  match goal with
  | H0 : forN 4 _ (b, []) = Ok (?x, ?l) |- _ =>
      apply (forN_invariant valid) in H0 as [Hc Hl];
      [ | intros k s s'; apply edgeStep_coherent | split; [exact Hb | constructor] ]
  end.
  cbn [fst snd] in *. eapply resolveCuts_coherent; eauto.
Qed.

End SegmentsOfElement.

Section SegmentsOfBoundary.
Context {D : Double}.

(** [computeMeshStatus] empties the list of the points of every node. *)
Lemma computeMeshStatus_reset sd (m m' : Mesh.t double) :
  Mesh.nNodes m = length (Mesh.nodes m) ->
  computeMeshStatus sd m = Ok m' ->
  forall i nd, nth_error (Mesh.nodes m') i = Some nd -> Node.boundaryPoints nd = [].
Proof.
  intros Hsize H. unfold computeMeshStatus in H.
  apply bind_Ok in H as (m1 & H1 & H2).
  apply (forN_invariant_at (fun j (x : Mesh.t double) =>
    length (Mesh.nodes x) = length (Mesh.nodes m) /\
    forall i nd, i < j -> nth_error (Mesh.nodes x) i = Some nd ->
                 Node.boundaryPoints nd = [])) in H1.
  - destruct H1 as [Hlen Hall].
    apply (forN_invariant (fun x : Mesh.t double => Mesh.nodes x = Mesh.nodes m1)) in H2.
    + intros i nd Hnd. rewrite H2 in Hnd. apply (Hall i nd); [ | exact Hnd].
      rewrite Hsize, <- Hlen. apply nth_error_Some. congruence.
    + intros j s s' Hs Hstep. unfold elementStatusStep in Hstep. run Hstep.
      psimpl. assumption.
    + reflexivity.
  - intros j s s' Hj [Hlen Hall] Hstep. unfold nodeStatusStep in Hstep.
    apply bind_Ok in Hstep as (nd0 & Hnd0 & Hstep).
    apply bind_Ok in Hstep as (d & Hd & Hstep).
    apply bind_Ok in Hstep as (ns & Hns & Hstep).
    inversion Hstep; subst. clear Hstep. apply set_Ok in Hns as [Hlt ->]. psimpl.
    split; [rewrite length_replace; assumption | ].
    intros i nd Hi Hnd. destruct (Nat.eq_dec j i) as [->|Hne].
    + rewrite nth_error_replace_eq in Hnd by assumption.
      inversion Hnd; subst. reflexivity.
    + rewrite nth_error_replace_neq in Hnd by assumption.
      apply (Hall i nd); [lia | assumption].
  - split; [reflexivity | ]. intros i nd Hi. lia.
Qed.

Lemma extract_coherent isTarget levelSet (b b' : Boundary.t double) :
  Mesh.nNodes (Boundary.mesh b) = length (Mesh.nodes (Boundary.mesh b)) ->
  extract isTarget levelSet b = Ok b' -> coherent b'.
Proof.
  intros Hsize H. unfold extract in H. apply bind_Ok in H as (m & Hm & H).
  eapply forN_invariant; [ | | exact H].
  - intros i s s'. apply elementStep_coherent.
  - unfold allocate in *. psimpl. split; psimpl.
    + intros i nd Hnd.
      rewrite (computeMeshStatus_reset _ _ _ Hsize Hm i nd Hnd). constructor.
    + constructor.
Qed.

Lemma Forall2_nth_error {A B} (R : A -> B -> Prop) l l' k a :
  Forall2 R l l' -> nth_error l k = Some a ->
  exists a', nth_error l' k = Some a' /\ R a a'.
Proof.
  intros H. revert k. induction H as [|x y l l' Hxy Hl IH]; intros [|k]; simpl;
    intros Hk; try discriminate.
  - inversion Hk; subst. eauto.
  - auto.
Qed.

(** Every segment of the result of [discretise] joins two of its points, and
    its length is the distance between them. *)
Lemma discretise_joins isTarget levelSet (b b' : Boundary.t double) :
  Mesh.nNodes (Boundary.mesh b) = length (Mesh.nodes (Boundary.mesh b)) ->
  discretise isTarget levelSet b = Ok b' ->
  Forall (joins b') (Boundary.segments b').
Proof.
  intros Hsize H. unfold discretise in H. apply bind_Ok in H as (b1 & H1 & H).
  pose proof (extract_coherent _ _ _ _ Hsize H1) as [_ Hs].
  pose proof (extract_extracted isTarget levelSet (fun _ => True) b b1
                (fun _ _ _ _ _ => I) H1) as Hex.
  destruct (shrink_extracted _ _ _ _ Hex) as (Hps & Hss & _ & Hnp & Hns).
  apply computePointLengths_pointsModified in H as (HF & Hseg & Hnp' & _).
  rewrite Hseg, Hss. eapply Forall_impl; [ | exact Hs].
  intros s (Hstart & Hend & p & q & Hp & Hq & Hlen).
  rewrite Hps in HF.
  assert (forall k x, k < Boundary.nPoints b1 ->
            nth_error (Boundary.points b1) k = Some x ->
            exists x', nth_error (Boundary.points b') k = Some x' /\
                       BoundaryPoint.coord x' = BoundaryPoint.coord x) as Hpt.
  { intros k x Hk Hx.
    destruct (Forall2_nth_error _ _ _ k x HF) as (x' & Hx' & Hcore).
    - rewrite nth_error_firstn. apply Nat.ltb_lt in Hk. rewrite Hk. exact Hx.
    - exists x'. split; [exact Hx' | ]. apply Hcore. }
  destruct (Hpt _ _ Hstart Hp) as (p' & Hp' & Hcp).
  destruct (Hpt _ _ Hend Hq) as (q' & Hq' & Hcq).
  unfold joins. rewrite Hnp', Hnp. repeat split; auto.
  exists p', q'. rewrite Hcp, Hcq. auto.
Qed.

End SegmentsOfBoundary.



(** ** The lookups of the points (Boundary::computePointLengths) *)

Section PointLookups.
Context {D : Double}.

(** What a segment adds to a list of the point [q]: an entry if it starts
    there, and an entry if it ends there. *)
Definition incidence {A} (q : nat) (s : BoundarySegment.t double) (atStart atEnd : A)
  : list A :=
  (if (BoundarySegment.start s =? q)%nat then [atStart] else []) ++
  (if (BoundarySegment.end_ s =? q)%nat then [atEnd] else []).

(** The segments at the point [q], numbered from [k]. *)
Fixpoint segmentsOf (k : nat) (ss : list (BoundarySegment.t double)) (q : nat) : list nat :=
  match ss with
  | [] => []
  | s :: rest => incidence q s k k ++ segmentsOf (S k) rest q
  end.

(** The other ends of the segments at the point [q]. *)
Definition neighboursOf (ss : list (BoundarySegment.t double)) (q : nat) : list nat :=
  flat_map (fun s => incidence q s (BoundarySegment.end_ s) (BoundarySegment.start s)) ss.

(** Half the length of each segment, once for each of its ends at [q]. *)
Definition halvesOf (ss : list (BoundarySegment.t double)) (q : nat) : list double :=
  flat_map (fun s => incidence q s (dhalf * BoundarySegment.length s)%D
                                   (dhalf * BoundarySegment.length s)%D) ss.

(** The point [q] once the segments [ss], numbered from [k], are accounted
    for. *)
Definition withLookups (k : nat) (ss : list (BoundarySegment.t double)) (q : nat)
  (p : BoundaryPoint.t double) : BoundaryPoint.t double :=
  BoundaryPoint.mk _
    (BoundaryPoint.coord p)
    (fold_left add (halvesOf ss q) (BoundaryPoint.length p))
    (BoundaryPoint.negativeLimit p) (BoundaryPoint.positiveLimit p)
    (BoundaryPoint.isDomain p) (BoundaryPoint.sensitivities p)
    (BoundaryPoint.normal p)
    (BoundaryPoint.segments p ++ segmentsOf k ss q)
    (BoundaryPoint.neighbours p ++ neighboursOf ss q).

(** [points[k] = f(points[k])] on the vector. *)
Definition update {A} (f : A -> A) (k : nat) (l : list A) : list A :=
  match nth_error l k with
  | Some a => replace l k (f a)
  | None => l
  end.

Lemma nth_error_update {A} (f : A -> A) (k : nat) (l : list A) (q : nat) :
  nth_error (update f k l) q =
  option_map (if (k =? q)%nat then f else fun a => a) (nth_error l q).
Proof.
  unfold update. destruct (nth_error l k) as [a|] eqn:Hk.
  - destruct (Nat.eqb_spec k q) as [->|Hne].
    + rewrite nth_error_replace_eq by (apply nth_error_Some; congruence).
      rewrite Hk. reflexivity.
    + rewrite nth_error_replace_neq by assumption.
      destruct (nth_error l q); reflexivity.
  - destruct (Nat.eqb_spec k q) as [->|Hne].
    + rewrite Hk. reflexivity.
    + destruct (nth_error l q); reflexivity.
Qed.

Lemma modifyPoint_update f k (b b' : Boundary.t double) :
  modifyPoint f k b = Ok b' ->
  b' = Boundary.setPoints (update f k (Boundary.points b)) b.
Proof.
  intros H. apply modifyPoint_inv in H as (p & Hp & ->).
  unfold update. rewrite Hp. reflexivity.
Qed.

Lemma segmentsOf_app k ss s q :
  segmentsOf k (ss ++ [s]) q = segmentsOf k ss q ++ incidence q s (k + length ss) (k + length ss).
Proof.
  revert k. induction ss as [|x ss IH]; intros k; cbn [segmentsOf app length].
  - rewrite Nat.add_0_r, !app_nil_r. reflexivity.
  - rewrite IH, <- app_assoc. do 3 f_equal; lia.
Qed.

Lemma withLookups_nil k q p : withLookups k [] q p = p.
Proof.
  destruct p. unfold withLookups. cbn. rewrite !app_nil_r. reflexivity.
Qed.

Lemma withLookups_app k ss s q p :
  withLookups (k + length ss) [s] q (withLookups k ss q p) = withLookups k (ss ++ [s]) q p.
Proof.
  unfold withLookups, neighboursOf, halvesOf. psimpl.
  rewrite segmentsOf_app, !flat_map_app, fold_left_app, <- !app_assoc.
  cbn [segmentsOf flat_map]. rewrite !app_nil_r. reflexivity.
Qed.

(** One turn of the loop of [computePointLengths]. *)
Lemma pointLengthsStep_lookups j (b b' : Boundary.t double) :
  pointLengthsStep j b = Ok b' ->
  exists s,
    nth_error (Boundary.segments b) j = Some s /\
    Boundary.segments b' = Boundary.segments b /\
    Boundary.nSegments b' = Boundary.nSegments b /\
    forall q p, nth_error (Boundary.points b) q = Some p ->
      nth_error (Boundary.points b') q = Some (withLookups j [s] q p).
Proof.
  intros H. unfold pointLengthsStep in H.
  apply bind_Ok in H as (s & Hs & H). apply get_Ok in Hs.
  apply bind_Ok in H as (b1 & H1 & H). apply bind_Ok in H as (b2 & H2 & H).
  apply bind_Ok in H as (b3 & H3 & H). apply bind_Ok in H as (b4 & H4 & H).
  apply bind_Ok in H as (b5 & H5 & H).
  apply modifyPoint_update in H1, H2, H3, H4, H5, H. subst. psimpl.
  exists s. repeat split; auto.
  intros q p Hp. rewrite !nth_error_update, Hp. cbn [option_map]. f_equal.
  unfold withLookups, neighboursOf, halvesOf. cbn [segmentsOf flat_map].
  unfold incidence.
  destruct (BoundarySegment.start s =? q)%nat, (BoundarySegment.end_ s =? q)%nat;
    destruct p;
    unfold BoundaryPoint.addNeighbour, BoundaryPoint.addSegment, BoundaryPoint.addLength;
    psimpl; cbn [fold_left app]; rewrite ?app_nil_r, <- ?app_assoc; reflexivity.
Qed.

(** [computePointLengths] on a boundary with as many segments as it counts. *)
Lemma computePointLengths_lookups (b b' : Boundary.t double) :
  Boundary.nSegments b = length (Boundary.segments b) ->
  computePointLengths b = Ok b' ->
  Boundary.segments b' = Boundary.segments b /\
  forall q p, nth_error (Boundary.points b) q = Some p ->
    nth_error (Boundary.points b') q = Some (withLookups 0 (Boundary.segments b) q p).
Proof.
  intros Hn H. unfold computePointLengths in H.
  apply (forN_invariant_at (fun j (x : Boundary.t double) =>
    Boundary.segments x = Boundary.segments b /\
    forall q p, nth_error (Boundary.points b) q = Some p ->
      nth_error (Boundary.points x) q =
      Some (withLookups 0 (firstn j (Boundary.segments b)) q p))) in H.
  - rewrite Hn, firstn_all in H. exact H.
  - intros j x x' Hj [Hseg Hpts] Hstep.
    apply pointLengthsStep_lookups in Hstep as (s & Hs & Hseg' & _ & Hstep).
    rewrite Hseg in Hs. split; [congruence | ].
    intros q p Hp. rewrite (Hstep q _ (Hpts q p Hp)).
    rewrite (firstn_S_nth _ _ _ Hs), <- withLookups_app.
    rewrite length_firstn, Nat.min_l by lia. reflexivity.
  - split; [reflexivity | ]. intros q p Hp. cbn [firstn].
    rewrite withLookups_nil. exact Hp.
Qed.

(** The lookups and the length of a point of the result of [discretise], in
    terms of the segments of the result. *)
Lemma discretise_lookups isTarget levelSet (b b' : Boundary.t double) q p :
  discretise isTarget levelSet b = Ok b' ->
  nth_error (Boundary.points b') q = Some p ->
  BoundaryPoint.segments p = segmentsOf 0 (Boundary.segments b') q /\
  BoundaryPoint.neighbours p = neighboursOf (Boundary.segments b') q /\
  BoundaryPoint.length p = fold_left add (halvesOf (Boundary.segments b') q) d0.
Proof.
  intros H Hp. unfold discretise in H. apply bind_Ok in H as (b1 & H1 & H).
  pose proof (extract_extracted isTarget levelSet
    (fun x => BoundaryPoint.length x = d0 /\ BoundaryPoint.segments x = [] /\
              BoundaryPoint.neighbours x = []) b b1
    (fun m old c _ _ => conj eq_refl (conj eq_refl eq_refl)) H1) as Hex.
  destruct (shrink_extracted _ _ _ _ Hex) as (Hps & Hss & _ & _ & HnS).
  destruct Hex as [_ HcS Hnew _ _ _].
  assert (Boundary.nSegments (shrink b1) = length (Boundary.segments (shrink b1))) as Hn.
  { rewrite HnS, Hss, length_firstn. lia. }
  destruct (computePointLengths_lookups _ _ Hn H) as [Hseg Hpts].
  pose proof (computePointLengths_pointsModified _ _ H) as (HF & _).
  assert (exists p0, nth_error (Boundary.points (shrink b1)) q = Some p0) as [p0 Hp0].
  { destruct (nth_error (Boundary.points (shrink b1)) q) eqn:E; [eauto | ].
    apply nth_error_None in E. apply Forall2_length in HF.
    assert (q < length (Boundary.points b')) by (apply nth_error_Some; congruence).
    lia. }
  rewrite (Hpts q p0 Hp0) in Hp. inversion Hp; subst p. clear Hp.
  rewrite Hps in Hp0. apply nth_error_In in Hp0.
  rewrite Forall_forall in Hnew. destruct (Hnew p0 Hp0) as (Hl & Hs0 & Hn0).
  unfold withLookups. psimpl. rewrite Hseg, Hl, Hs0, Hn0. auto.
Qed.

End PointLookups.

(** *** Boundary::computePerimeter *)

Section Perimeter.
Context {D : Double}.

(** One turn of the loop over the neighbours (lines 640-646). *)
Definition perimeterStep (b : Boundary.t double) (point : BoundaryPoint.t double)
  (i : nat) (length : double) : result double :=
  neighbour <- get OutOfBounds (BoundaryPoint.neighbours point) i ;;
  q <- getPoint b neighbour ;;
  let dx := (Coord.x (BoundaryPoint.coord point) - Coord.x (BoundaryPoint.coord q))%D in
  let dy := (Coord.y (BoundaryPoint.coord point) - Coord.y (BoundaryPoint.coord q))%D in
  Ok (length + dsqrt (dx * dx + dy * dy))%D.

Definition computePerimeter (b : Boundary.t double) (point : BoundaryPoint.t double)
  : result double :=
  forN (List.length (BoundaryPoint.neighbours point)) (perimeterStep b point) d0.

(** A loop over the indices of a list is a fold over the list. *)
Lemma forFrom_fold {A S} what (f : A -> S -> result S) (l pre : list A) (s : S) :
  forFrom (fun i s => x <- get what (pre ++ l) i ;; f x s) (length pre) (length l) s =
  fold_left (fun r x => s <- r ;; f x s) l (Ok s).
Proof.
  revert pre s. induction l as [|a l IH]; intros pre s; cbn [length forFrom fold_left].
  - reflexivity.
  - unfold get at 1. rewrite nth_error_app2, Nat.sub_diag by lia. cbn [nth_error bind].
    destruct (f a s) as [s'|e] eqn:E; cbn [bind].
    + specialize (IH (pre ++ [a]) s').
      rewrite <- app_assoc, length_app in IH. cbn [app length] in IH.
      rewrite Nat.add_1_r in IH. exact IH.
    + clear. induction l as [|x l IH]; cbn [fold_left bind]; auto.
Qed.

Lemma In_incidence {A} q (s : BoundarySegment.t double) (a c x : A) :
  In x (incidence q s a c) <->
  (BoundarySegment.start s = q /\ x = a) \/ (BoundarySegment.end_ s = q /\ x = c).
Proof.
  unfold incidence. rewrite in_app_iff.
  destruct (Nat.eqb_spec (BoundarySegment.start s) q),
           (Nat.eqb_spec (BoundarySegment.end_ s) q); cbn [In]; intuition congruence.
Qed.

Lemma In_segmentsOf k0 ss q k :
  In k (segmentsOf k0 ss q) <->
  k0 <= k /\ exists s, nth_error ss (k - k0) = Some s /\
    (BoundarySegment.start s = q \/ BoundarySegment.end_ s = q).
Proof.
  revert k0. induction ss as [|s ss IH]; intros k0; cbn [segmentsOf].
  - split; [intros [] | ]. intros (_ & s & Hs & _).
    destruct (k - k0); discriminate.
  - rewrite in_app_iff, In_incidence, IH. split.
    + intros [[[Hq ->]|[Hq ->]]|(Hle & s' & Hs' & Hq)].
      * split; [lia | ]. rewrite Nat.sub_diag. exists s. cbn [nth_error]. auto.
      * split; [lia | ]. rewrite Nat.sub_diag. exists s. cbn [nth_error]. auto.
      * split; [lia | ]. exists s'. split; [ | assumption].
        replace (k - k0) with (S (k - S k0)) by lia. exact Hs'.
    + intros (Hle & s' & Hs' & Hq).
      destruct (Nat.eq_dec k k0) as [->|Hne].
      * rewrite Nat.sub_diag in Hs'. inversion Hs'; subst s'. tauto.
      * right. split; [lia | ]. exists s'. split; [ | assumption].
        replace (k - k0) with (S (k - S k0)) in Hs' by lia. exact Hs'.
Qed.

Lemma In_neighboursOf ss q r :
  In r (neighboursOf ss q) <->
  exists s, In s ss /\
    ((BoundarySegment.start s = q /\ BoundarySegment.end_ s = r) \/
     (BoundarySegment.end_ s = q /\ BoundarySegment.start s = r)).
Proof.
  unfold neighboursOf. rewrite in_flat_map. split.
  - intros (s & Hs & Hin). apply In_incidence in Hin. exists s.
    split; [assumption | ]. intuition congruence.
  - intros (s & Hs & Hq). exists s. split; [assumption | ].
    apply In_incidence. intuition congruence.
Qed.

(** X1.  When [discretise] returns, the lookups of a point agree with the
    segments: the point lists the segment [k] exactly when it is the start or
    the end of segment [k], and it lists the point [r] as a neighbour exactly
    when a segment joins the two. *)
Theorem discretise_point_lookups isTarget levelSet (b b' : Boundary.t double) q p :
  discretise isTarget levelSet b = Ok b' ->
  nth_error (Boundary.points b') q = Some p ->
  (forall k, In k (BoundaryPoint.segments p) <->
     exists s, nth_error (Boundary.segments b') k = Some s /\
       (BoundarySegment.start s = q \/ BoundarySegment.end_ s = q)) /\
  (forall r, In r (BoundaryPoint.neighbours p) <->
     exists s, In s (Boundary.segments b') /\
       ((BoundarySegment.start s = q /\ BoundarySegment.end_ s = r) \/
        (BoundarySegment.end_ s = q /\ BoundarySegment.start s = r))).
Proof.
  intros H Hp. destruct (discretise_lookups _ _ _ _ _ _ H Hp) as (Hs & Hn & _).
  split.
  - intros k. rewrite Hs, In_segmentsOf, Nat.sub_0_r. split.
    + intros [_ Hk]. exact Hk.
    + intros Hk. split; [lia | exact Hk].
  - intros r. rewrite Hn. apply In_neighboursOf.
Qed.

End Perimeter.

Lemma discretise_point_lookups_witness :
  exists b' p,
    discretise (D := binary64) true verticalCut (newBoundary (gridMesh 1 1)) = Ok b' /\
    nth_error (Boundary.points b') 0 = Some p /\
    (forall k, In k (BoundaryPoint.segments p) <->
       exists s, nth_error (Boundary.segments b') k = Some s /\
         (BoundarySegment.start s = 0 \/ BoundarySegment.end_ s = 0)) /\
    (forall r, In r (BoundaryPoint.neighbours p) <->
       exists s, In s (Boundary.segments b') /\
         ((BoundarySegment.start s = 0 /\ BoundarySegment.end_ s = r) \/
          (BoundarySegment.end_ s = 0 /\ BoundarySegment.start s = r))).
Proof.
  assert (exists b' p,
    discretise (D := binary64) true verticalCut (newBoundary (gridMesh 1 1)) = Ok b' /\
    nth_error (Boundary.points b') 0 = Some p) as (b' & p & Hb & Hp).
  { do 2 eexists. split; [vm_compute; reflexivity | reflexivity]. }
  exists b', p. split; [exact Hb | split; [exact Hp | ]].
  exact (discretise_point_lookups true verticalCut _ b' 0 p Hb Hp).
Defined.

(** [computePerimeter] adds up the distances to the neighbours in their
    order. *)
Lemma computePerimeter_fold {D : Double} (b : Boundary.t double) p :
  computePerimeter b p =
  fold_left (fun r n => acc <- r ;; q <- getPoint b n ;;
               Ok (acc + distance (BoundaryPoint.coord p) (BoundaryPoint.coord q))%D)
    (BoundaryPoint.neighbours p) (Ok d0).
Proof.
  unfold computePerimeter, forN.
  rewrite <- (forFrom_fold OutOfBounds
    (fun n acc => q <- getPoint b n ;;
       Ok (acc + distance (BoundaryPoint.coord p) (BoundaryPoint.coord q))%D)
    (BoundaryPoint.neighbours p) [] d0).
  reflexivity.
Qed.

Lemma distance_sym (p q : Coord.t (@double exact)) : distance p q = distance q p.
Proof. unfold distance. simpl. f_equal. ring. Qed.

(** The distances to the neighbours along the segments [ss] add up to twice
    the halves of the lengths of these segments. *)
Lemma perimeter_sum (b : Boundary.t (@double exact)) q p ss :
  nth_error (Boundary.points b) q = Some p ->
  Forall (joins b) ss ->
  forall a h : R,
  fold_left (fun r n => acc <- r ;; x <- getPoint b n ;;
               Ok (acc + distance (BoundaryPoint.coord p) (BoundaryPoint.coord x))%D)
    (neighboursOf ss q) (Ok a) =
  Ok (a + 2 * (fold_left Rplus (halvesOf ss q) h - h))%R.
Proof.
  intros Hp Hss. induction Hss as [|s ss Hs Hss IH]; intros a h.
  - cbn. f_equal. lra.
  - unfold neighboursOf, halvesOf in *. cbn [flat_map]. rewrite !fold_left_app.
    destruct Hs as (_ & _ & ps & pe & Hps & Hpe & Hlen).
    assert (getPoint b (BoundarySegment.start s) = Ok ps) as Hgs
      by (apply get_nth; exact Hps).
    assert (getPoint b (BoundarySegment.end_ s) = Ok pe) as Hge
      by (apply get_nth; exact Hpe).
    unfold incidence in *.
    destruct (Nat.eqb_spec (BoundarySegment.start s) q) as [Hsq|Hsq],
             (Nat.eqb_spec (BoundarySegment.end_ s) q) as [Heq|Heq];
      cbn [app fold_left bind];
      rewrite ?Hgs, ?Hge; cbn [bind]; rewrite ?Hgs, ?Hge; cbn [bind];
      try (rewrite Hsq in Hps; assert (ps = p) by congruence; subst ps);
      try (rewrite Heq in Hpe; assert (pe = p) by congruence; subst pe);
      match goal with
      | |- fold_left _ _ (Ok ?a') = Ok (_ + 2 * (fold_left _ _ ?h' - _))%R =>
          etransitivity; [exact (IH a' h') | ]
      end; f_equal;
      try rewrite (distance_sym (BoundaryPoint.coord p) (BoundaryPoint.coord ps));
      try rewrite <- Hlen; simpl; change (@double exact) with R in *;
      match goal with
      | |- context [fold_left Rplus ?l ?x] => generalize (fold_left Rplus l x)
      end; intros; lra.
Qed.

(** X2.  In exact arithmetic, when [discretise] returns, [computePerimeter]
    of a point of the boundary returns twice the integral length of the
    point: the lengths of the segments at the point, of which the point was
    given the halves. *)
Theorem computePerimeter_twice_length isTarget levelSet
    (b b' : Boundary.t (@double exact)) p :
  Mesh.nNodes (Boundary.mesh b) = length (Mesh.nodes (Boundary.mesh b)) ->
  discretise isTarget levelSet b = Ok b' ->
  In p (Boundary.points b') ->
  computePerimeter b' p = Ok (2 * BoundaryPoint.length p)%R.
Proof.
  intros Hsize H Hin. apply In_nth_error in Hin as [q Hq].
  destruct (discretise_lookups _ _ _ _ _ _ H Hq) as (_ & Hn & Hl).
  pose proof (discretise_joins _ _ _ _ Hsize H) as Hjoins.
  rewrite computePerimeter_fold, Hn.
  etransitivity; [exact (perimeter_sum b' q p _ Hq Hjoins 0%R 0%R) | ].
  f_equal. rewrite Hl. simpl. lra.
Qed.

Lemma computePerimeter_twice_length_witness :
  exists b' p,
    discretise (D := exact) true verticalCut (newBoundary (gridMesh 1 1)) = Ok b' /\
    In p (Boundary.points b') /\
    computePerimeter b' p = Ok (2 * BoundaryPoint.length p)%R.
Proof.
  destruct verticalCut_exact as (b' & Hb' & p & Hp & _).
  exists b', p. split; [exact Hb' | split; [exact Hp | ]].
  exact (computePerimeter_twice_length true verticalCut
           (newBoundary (gridMesh 1 1)) b' p eq_refl Hb' Hp).
Defined.

(** ** The sizes of the vectors *)

Section Sizes.
Context {D : Double}.

Lemma extract_allocated isTarget levelSet (b b' : Boundary.t double) :
  extract isTarget levelSet b = Ok b' ->
  storage (allocation (Boundary.mesh b)) b'.
Proof.
  intros H. unfold extract in H. apply bind_Ok in H as (m & _ & H).
  eapply forN_invariant; [ | | exact H].
  - intros i s s'. apply elementStep_storage.
  - unfold storage, allocate. psimpl. rewrite !length_resize. auto.
Qed.

(** X3.  When [discretise] returns, the vectors of the points and of the
    segments hold exactly the points and the segments counted, and there are
    no more of either than the [max(4, 0.2*nNodes)] slots allocated at the
    start, whatever the boundary held before. *)
Theorem discretise_sizes isTarget levelSet (b b' : Boundary.t double) :
  discretise isTarget levelSet b = Ok b' ->
  length (Boundary.points b') = Boundary.nPoints b' /\
  length (Boundary.segments b') = Boundary.nSegments b' /\
  Boundary.nPoints b' <= allocation (Boundary.mesh b) /\
  Boundary.nSegments b' <= allocation (Boundary.mesh b).
Proof.
  intros H. unfold discretise in H. apply bind_Ok in H as (b1 & H1 & H).
  pose proof (extract_allocated _ _ _ _ H1) as [Hpt Hsg].
  pose proof (extract_extracted isTarget levelSet (fun _ => True) b b1
                (fun _ _ _ _ _ => I) H1) as Hex.
  destruct (shrink_extracted _ _ _ _ Hex) as (Hps & Hss & _ & HnP & HnS).
  destruct Hex as [HcP HcS _ _ _ _].
  apply computePointLengths_pointsModified in H as (HF & Hseg & HnP' & HnS' & _).
  apply Forall2_length in HF. rewrite Hps, length_firstn in HF.
  rewrite Hseg, Hss, length_firstn, HnP', HnS', HnP, HnS. lia.
Qed.

End Sizes.

Lemma discretise_sizes_witness :
  exists b',
    discretise (D := binary64) true leftCut (newBoundary (gridMesh 2 2)) = Ok b' /\
    length (Boundary.points b') = Boundary.nPoints b' /\
    length (Boundary.segments b') = Boundary.nSegments b' /\
    Boundary.nPoints b' <= allocation (D := binary64) (gridMesh 2 2) /\
    Boundary.nSegments b' <= allocation (D := binary64) (gridMesh 2 2).
Proof.
  assert (exists b',
    discretise (D := binary64) true leftCut (newBoundary (gridMesh 2 2)) = Ok b')
    as [b' Hb'] by (eexists; vm_compute; reflexivity).
  exists b'. split; [exact Hb' | ].
  exact (discretise_sizes true leftCut _ b' Hb').
Defined.

(** ** The search for a point that was added before (Boundary::isAdded) *)

Section IsAdded.
Context {D : Double}.

(** None of the points numbered in [l] is within the tolerance of [c]. *)
Definition noneWithin (points : list (BoundaryPoint.t double)) (c : Coord.t double)
  (l : list nat) : Prop :=
  forall k, In k l ->
    exists p, nth_error points k = Some p /\
      samePoint c (BoundaryPoint.coord p) = false.

Lemma findPoint_first points c adjacent index :
  findPoint points c adjacent = Ok index ->
  (index = (-1)%Z /\ noneWithin points c adjacent) \/
  (exists i k p,
     index = Z.of_nat k /\
     nth_error adjacent i = Some k /\
     nth_error points k = Some p /\
     samePoint c (BoundaryPoint.coord p) = true /\
     noneWithin points c (firstn i adjacent)).
Proof.
  induction adjacent as [|k rest IH]; cbn [findPoint]; intros H.
  - left. inversion H. split; [reflexivity | intros k []].
  - apply bind_Ok in H as (p & Hp & H). apply get_Ok in Hp.
    destruct (samePoint c (BoundaryPoint.coord p)) eqn:Hsame.
    + right. inversion H; subst. exists 0, k, p. cbn [nth_error firstn].
      repeat split; auto. intros k' [].
    + destruct (IH H) as [[-> Hnone]|(i & k' & p' & -> & Hi & Hp' & Hsame' & Hnone)].
      * left. split; [reflexivity | ]. intros k' [<-|Hin]; eauto.
      * right. exists (S i), k', p'. cbn [nth_error firstn].
        repeat split; auto. intros k'' [<-|Hin]; eauto.
Qed.

(** X4.  [isAdded] returns the coordinates of the point at the distance given
    along the edge from the node, and with them the index of the first point
    in the list of the node whose two coordinates are within the tolerance of
    these, or -1 when no point of the list is. *)
Theorem isAdded_first (b : Boundary.t double) node edge d c index :
  isAdded b node edge d = Ok (c, index) ->
  exists nd,
    nth_error (Mesh.nodes (Boundary.mesh b)) node = Some nd /\
    c = edgePoint (Node.coord nd) edge d /\
    ((index = (-1)%Z /\ noneWithin (Boundary.points b) c (Node.boundaryPoints nd)) \/
     (exists i k p,
        index = Z.of_nat k /\
        nth_error (Node.boundaryPoints nd) i = Some k /\
        nth_error (Boundary.points b) k = Some p /\
        samePoint c (BoundaryPoint.coord p) = true /\
        noneWithin (Boundary.points b) c (firstn i (Node.boundaryPoints nd)))).
Proof.
  intros H. unfold isAdded, getNode in H.
  apply bind_Ok in H as (nd & Hnd & H). apply bind_Ok in H as (k & Hk & H).
  inversion H; subst. clear H. apply get_Ok in Hnd.
  exists nd. split; [exact Hnd | split; [reflexivity | ]].
  apply findPoint_first. exact Hk.
Qed.

End IsAdded.

Lemma isAdded_first_witness :
  exists b c index,
    discretise (D := binary64) true verticalCut (newBoundary (gridMesh 1 1)) = Ok b /\
    isAdded b 0 0 dhalf = Ok (c, index) /\
    index = 0%Z /\
    exists nd,
      nth_error (Mesh.nodes (Boundary.mesh b)) 0 = Some nd /\
      c = edgePoint (Node.coord nd) 0 dhalf /\
      ((index = (-1)%Z /\ noneWithin (Boundary.points b) c (Node.boundaryPoints nd)) \/
       (exists i k p,
          index = Z.of_nat k /\
          nth_error (Node.boundaryPoints nd) i = Some k /\
          nth_error (Boundary.points b) k = Some p /\
          samePoint c (BoundaryPoint.coord p) = true /\
          noneWithin (Boundary.points b) c (firstn i (Node.boundaryPoints nd)))).
Proof.
  assert (exists b c index,
    discretise (D := binary64) true verticalCut (newBoundary (gridMesh 1 1)) = Ok b /\
    isAdded b 0 0 dhalf = Ok (c, index) /\ index = 0%Z)
    as (b & c & index & Hb & Hadd & Hi).
  { do 3 eexists. split; [vm_compute; reflexivity | ].
    split; [vm_compute; reflexivity | reflexivity]. }
  exists b, c, index. split; [exact Hb | split; [exact Hadd | split; [exact Hi | ]]].
  exact (isAdded_first b 0 0 dhalf c index Hadd).
Defined.

(** ** The order of the vertices (Boundary::isClockwise) *)

(** Decides the comparisons of a goal one at a time, dropping the cases that
    contradict the ones decided before. *)
Ltac split_comparisons :=
  repeat (match goal with
          | |- context [Rle_dec ?a ?b] => destruct (Rle_dec a b)
          | |- context [Rlt_dec ?a ?b] => destruct (Rlt_dec a b)
          | |- context [Req_dec_T ?a ?b] => destruct (Req_dec_T a b)
          end; cbn [andb orb]; try (exfalso; lra)).

(** X5.  In exact arithmetic, the comparison [isClockwise] that
    [polygonArea] sorts with is not a strict order: every point is clockwise
    of itself, and of two points one is clockwise of the other or the other
    of the one. *)
Theorem isClockwise_not_strict (p q c : Coord.t (@double exact)) :
  isClockwise p p c = true /\
  (isClockwise p q c = true \/ isClockwise q p c = true).
Proof.
  destruct p as [px py], q as [qx qy], c as [cx cy].
  unfold isClockwise. cbn [Coord.x Coord.y]. cbv [leb ltb eqb sub mul d0 exact].
  unfold R_leb, R_ltb, R_eqb. split.
  - split_comparisons; reflexivity.
  - split_comparisons; auto.
Qed.

From Stdlib Require Import Permutation.

(** ** The area of a polygon (Boundary::polygonArea) *)

Section PolygonArea.
Open Scope R_scope.
Local Notation "'vertex'" := (Coord.t (@double exact)).

(** The sum that the loop over the vertices makes (lines 922-929). *)
Definition shoelace (l : list vertex) : result R :=
  forN (length l) (shoelaceStep (D := exact) l) 0.

(** Twice the area of the triangle, with the sign of its orientation. *)
Definition cross (u v w : vertex) : R :=
  (Coord.x v - Coord.x u) * (Coord.y w - Coord.y u)
  - (Coord.x w - Coord.x u) * (Coord.y v - Coord.y u).

(** The value of the loop on a list of three vertices, zero on the others. *)
Definition twice (l : list vertex) : R :=
  match l with
  | [u; v; w] => cross u v w
  | _ => 0
  end.

Lemma shoelace_short (l : list vertex) :
  (length l <= 3)%nat -> exists s, shoelace l = Ok s /\ s = twice l.
Proof.
  destruct l as [|u [|v [|w [|x l]]]]; cbn [length]; intros Hlen; try lia;
    eexists; (split; [reflexivity | ]); unfold twice, cross; simpl; ring.
Qed.

Lemma twice_permutation (l l' : list vertex) :
  Permutation l l' -> Rabs (twice l') = Rabs (twice l).
Proof.
  induction 1 as [|x l l' Hl IH|x y l|l l' l'' H1 IH1 H2 IH2].
  - reflexivity.
  - destruct l as [|y [|z [|t l]]].
    + apply Permutation_nil in Hl. subst. reflexivity.
    + apply Permutation_length_1_inv in Hl. subst. reflexivity.
    + apply Permutation_length_2_inv in Hl as [->| ->]; [reflexivity | ].
      unfold twice. rewrite <- (Rabs_Ropp (cross x y z)). f_equal.
      unfold cross. ring.
    + pose proof (Permutation_length Hl) as Hlen. cbn [length] in Hlen.
      destruct l' as [|a [|a' [|a'' l']]]; try discriminate. reflexivity.
  - destruct l as [|z [|t l]]; try reflexivity.
    unfold twice. rewrite <- (Rabs_Ropp (cross x y z)). f_equal.
    unfold cross. ring.
  - congruence.
Qed.

Variable sort : (vertex -> vertex -> bool) -> list vertex -> list vertex.
Hypothesis sort_permutation : forall less l, Permutation l (sort less l).

Lemma polygonArea_short (l : list vertex) (centre : vertex) :
  (length l <= 3)%nat ->
  polygonArea (D := exact) sort l centre = Ok (Rabs (twice l) / 2).
Proof.
  intros Hlen. unfold polygonArea. cbv zeta.
  pose proof (sort_permutation (fun p q => isClockwise p q centre) l) as Hperm.
  set (sorted := sort _ l) in *.
  destruct (shoelace_short sorted) as (s & Hs & ->).
  { rewrite <- (Permutation_length Hperm). exact Hlen. }
  assert (forN (List.length sorted) (shoelaceStep (D := exact) sorted) d0 = Ok (twice sorted))
    as Hs' by exact Hs.
  rewrite Hs'. cbn [bind]. f_equal. simpl.
  rewrite Rabs_mult, (twice_permutation _ _ Hperm), (Rabs_pos_eq (1 / 2)); lra.
Qed.

(** X6.  In exact arithmetic, and when the sort leaves a permutation of the
    vertices, [polygonArea] of three vertices is the area of their triangle,
    half the absolute value of the cross product of two of its sides, in
    whatever order the vertices are given; [polygonArea] of two vertices or
    fewer is zero. *)
Theorem polygonArea_triangle (centre : vertex) :
  (forall u v w,
     polygonArea (D := exact) sort [u; v; w] centre = Ok (Rabs (cross u v w) / 2)) /\
  (forall l, (length l <= 2)%nat ->
     polygonArea (D := exact) sort l centre = Ok 0).
Proof.
  split.
  - intros u v w. apply (polygonArea_short [u; v; w]). cbn. lia.
  - intros l Hlen. rewrite polygonArea_short by lia.
    destruct l as [|u [|v [|w l]]]; cbn [length] in Hlen; try lia;
      unfold twice; rewrite Rabs_R0; f_equal; lra.
Qed.

End PolygonArea.

Lemma insertSorted_permutation {D : Double} less c l :
  Permutation (c :: l) (insertSorted less c l).
Proof.
  induction l as [|h t IH]; cbn [insertSorted].
  - reflexivity.
  - destruct (less c h); [reflexivity | ].
    rewrite perm_swap. apply perm_skip. exact IH.
Qed.

Lemma insertionSort_permutation {D : Double} less l :
  Permutation l (insertionSort less l).
Proof.
  unfold insertionSort.
  assert (forall acc, Permutation (acc ++ l)
            (fold_left (fun a c => insertSorted less c a) l acc)) as H.
  { induction l as [|c l IH]; intros acc; cbn [fold_left].
    - rewrite app_nil_r. reflexivity.
    - rewrite <- IH. rewrite <- insertSorted_permutation.
      symmetry. apply Permutation_middle. }
  exact (H []).
Qed.

Lemma polygonArea_triangle_witness :
  polygonArea (D := exact) insertionSort
    [Coord.mk R 0 0; Coord.mk R 1 0; Coord.mk R 0 1]%R
    (Coord.mk R (1 / 2) (1 / 2))%R
  = Ok (Rabs (cross (Coord.mk R 0 0) (Coord.mk R 1 0) (Coord.mk R 0 1)) / 2)%R.
Proof.
  exact (proj1 (polygonArea_triangle insertionSort insertionSort_permutation
                  (Coord.mk R (1 / 2) (1 / 2))%R) _ _ _).
Defined.

(** ** The status of the nodes and of the elements (Boundary::computeMeshStatus) *)

Section StatusOfMesh.
Context {D : Double}.

(** A corner counted as inside, and one counted as outside (lines 688-689). *)
Definition countsInside (status : Z) : bool := flag status NodeStatus.INSIDE.
Definition countsOutside (status : Z) : bool :=
  negb (flag status NodeStatus.INSIDE) && flag status NodeStatus.OUTSIDE.

(** The status of an element from the status of its corners. *)
Definition statusOfCorners (corners : list Z) : Z :=
  if existsb countsOutside corners then
    if existsb countsInside corners then ElementStatus.NONE
    else ElementStatus.OUTSIDE
  else ElementStatus.INSIDE.

Lemma tally_corners (m : Mesh.t double) e t :
  forN 4 (tallyStep m e) (0, 0) = Ok t ->
  exists n0 n1 n2 n3,
    nth_error (Mesh.nodes m) (Element.node e 0) = Some n0 /\
    nth_error (Mesh.nodes m) (Element.node e 1) = Some n1 /\
    nth_error (Mesh.nodes m) (Element.node e 2) = Some n2 /\
    nth_error (Mesh.nodes m) (Element.node e 3) = Some n3 /\
    elementStatus t =
    statusOfCorners [Node.status n0; Node.status n1; Node.status n2; Node.status n3].
Proof.
  intros H. unfold forN in H. cbn [forFrom] in H.
  apply bind_Ok in H as (t1 & H1 & H). apply bind_Ok in H as (t2 & H2 & H).
  apply bind_Ok in H as (t3 & H3 & H). apply bind_Ok in H as (t4 & H4 & H).
  inversion H; subst t4. clear H.
  unfold tallyStep in H1, H2, H3, H4.
  apply bind_Ok in H1 as (n0 & Hn0 & H1). apply bind_Ok in H2 as (n1 & Hn1 & H2).
  apply bind_Ok in H3 as (n2 & Hn2 & H3). apply bind_Ok in H4 as (n3 & Hn3 & H4).
  apply get_Ok in Hn0, Hn1, Hn2, Hn3.
  exists n0, n1, n2, n3. repeat split; auto.
  unfold statusOfCorners, countsOutside, countsInside. cbn [existsb].
  destruct (flag (Node.status n0) NodeStatus.INSIDE),
           (flag (Node.status n0) NodeStatus.OUTSIDE);
    inversion H1; subst t1; clear H1;
    destruct (flag (Node.status n1) NodeStatus.INSIDE),
             (flag (Node.status n1) NodeStatus.OUTSIDE);
    inversion H2; subst t2; clear H2;
    destruct (flag (Node.status n2) NodeStatus.INSIDE),
             (flag (Node.status n2) NodeStatus.OUTSIDE);
    inversion H3; subst t3; clear H3;
    destruct (flag (Node.status n3) NodeStatus.INSIDE),
             (flag (Node.status n3) NodeStatus.OUTSIDE);
    inversion H4; subst t; reflexivity.
Qed.

(** The first loop of [computeMeshStatus]. *)
Lemma nodeLoop_reset sd (m m1 : Mesh.t double) :
  forN (Mesh.nNodes m) (nodeStatusStep sd) m = Ok m1 ->
  Mesh.elements m1 = Mesh.elements m /\
  Mesh.nElements m1 = Mesh.nElements m /\
  forall i nd, nth_error (Mesh.nodes m) i = Some nd ->
    if (i <? Mesh.nNodes m)%nat
    then exists d, nth_error sd i = Some d /\
           nth_error (Mesh.nodes m1) i = Some (Node.reset (nodeStatus d) nd)
    else nth_error (Mesh.nodes m1) i = Some nd.
Proof.
  intros H.
  apply (forN_invariant_at (fun j (x : Mesh.t double) =>
    Mesh.elements x = Mesh.elements m /\
    Mesh.nElements x = Mesh.nElements m /\
    forall i nd, nth_error (Mesh.nodes m) i = Some nd ->
      if (i <? j)%nat
      then exists d, nth_error sd i = Some d /\
             nth_error (Mesh.nodes x) i = Some (Node.reset (nodeStatus d) nd)
      else nth_error (Mesh.nodes x) i = Some nd)) in H.
  - exact H.
  - intros j s s' Hj (H1 & H2 & H3) Hstep. unfold nodeStatusStep in Hstep.
    apply bind_Ok in Hstep as (nd0 & Hnd0 & Hstep).
    apply bind_Ok in Hstep as (d & Hd & Hstep).
    apply bind_Ok in Hstep as (ns & Hns & Hstep).
    inversion Hstep; subst. clear Hstep. apply set_Ok in Hns as [Hlt ->].
    apply get_Ok in Hnd0, Hd. psimpl. repeat split; auto.
    intros i nd Hnd. specialize (H3 i nd Hnd).
    destruct (Nat.eq_dec i j) as [->|Hne].
    + rewrite Nat.ltb_irrefl in H3.
      replace (j <? S j)%nat with true by (symmetry; apply Nat.ltb_lt; lia).
      exists d. split; [exact Hd | ].
      rewrite nth_error_replace_eq by assumption. congruence.
    + rewrite nth_error_replace_neq by auto.
      destruct (Nat.ltb_spec i j), (Nat.ltb_spec i (S j)); try lia; exact H3.
  - repeat split; auto.
Qed.

(** The second loop of [computeMeshStatus]. *)
Lemma elementLoop_reset (m1 m2 : Mesh.t double) :
  forN (Mesh.nElements m1) elementStatusStep m1 = Ok m2 ->
  Mesh.nodes m2 = Mesh.nodes m1 /\
  forall i e, nth_error (Mesh.elements m1) i = Some e ->
    if (i <? Mesh.nElements m1)%nat
    then exists t, forN 4 (tallyStep m1 e) (0, 0) = Ok t /\
           nth_error (Mesh.elements m2) i = Some (Element.reset (elementStatus t) e)
    else nth_error (Mesh.elements m2) i = Some e.
Proof.
  intros H.
  apply (forN_invariant_at (fun j (x : Mesh.t double) =>
    Mesh.nodes x = Mesh.nodes m1 /\
    forall i e, nth_error (Mesh.elements m1) i = Some e ->
      if (i <? j)%nat
      then exists t, forN 4 (tallyStep m1 e) (0, 0) = Ok t /\
             nth_error (Mesh.elements x) i = Some (Element.reset (elementStatus t) e)
      else nth_error (Mesh.elements x) i = Some e)) in H.
  - exact H.
  - intros j s s' Hj (H1 & H3) Hstep. unfold elementStatusStep in Hstep.
    apply bind_Ok in Hstep as (e0 & He0 & Hstep).
    apply bind_Ok in Hstep as (t & Ht & Hstep).
    apply bind_Ok in Hstep as (es & Hes & Hstep).
    inversion Hstep; subst. clear Hstep. apply set_Ok in Hes as [Hlt ->].
    apply get_Ok in He0. psimpl. split; [assumption | ].
    intros i e He. specialize (H3 i e He).
    destruct (Nat.eq_dec i j) as [->|Hne].
    + rewrite Nat.ltb_irrefl in H3.
      replace (j <? S j)%nat with true by (symmetry; apply Nat.ltb_lt; lia).
      assert (e0 = e) by congruence. subst e0.
      exists t. split.
      * unfold forN in *. rewrite <- Ht. apply forFrom_ext.
        intros k x. symmetry. apply tallyStep_ext. assumption.
      * rewrite nth_error_replace_eq by assumption. reflexivity.
    + rewrite nth_error_replace_neq by auto.
      destruct (Nat.ltb_spec i j), (Nat.ltb_spec i (S j)); try lia; exact H3.
  - split; [reflexivity | ]. intros i e He. exact He.
Qed.

(** X7.  When [computeMeshStatus] returns, a node below [nNodes] has the
    status of its signed distance and an empty list of points, and is
    otherwise as it was; an element below [nElements] has an empty list of
    segments and the status of its four corners: inside when no corner counts
    as outside, outside when one does and none counts as inside, and no
    status otherwise. *)
Theorem computeMeshStatus_statuses sd (m m' : Mesh.t double) :
  computeMeshStatus sd m = Ok m' ->
  (forall i nd, (i < Mesh.nNodes m)%nat -> nth_error (Mesh.nodes m) i = Some nd ->
     exists d, nth_error sd i = Some d /\
       nth_error (Mesh.nodes m') i = Some (Node.reset (nodeStatus d) nd)) /\
  (forall i e, (i < Mesh.nElements m)%nat -> nth_error (Mesh.elements m) i = Some e ->
     exists n0 n1 n2 n3,
       nth_error (Mesh.nodes m') (Element.node e 0) = Some n0 /\
       nth_error (Mesh.nodes m') (Element.node e 1) = Some n1 /\
       nth_error (Mesh.nodes m') (Element.node e 2) = Some n2 /\
       nth_error (Mesh.nodes m') (Element.node e 3) = Some n3 /\
       nth_error (Mesh.elements m') i =
       Some (Element.reset
               (statusOfCorners [Node.status n0; Node.status n1;
                                 Node.status n2; Node.status n3]) e)).
Proof.
  intros H. unfold computeMeshStatus in H. apply bind_Ok in H as (m1 & H1 & H2).
  apply nodeLoop_reset in H1 as (Hes & Hne & Hnodes).
  apply elementLoop_reset in H2 as (Hns & Helems).
  split.
  - intros i nd Hi Hnd. specialize (Hnodes i nd Hnd).
    apply Nat.ltb_lt in Hi. rewrite Hi in Hnodes. rewrite Hns. exact Hnodes.
  - intros i e Hi He. rewrite <- Hes in He. specialize (Helems i e He).
    rewrite Hne in Helems. apply Nat.ltb_lt in Hi. rewrite Hi in Helems.
    destruct Helems as (t & Ht & He').
    destruct (tally_corners _ _ _ Ht) as (n0 & n1 & n2 & n3 & H0 & H1 & H2 & H3 & Hst).
    exists n0, n1, n2, n3. rewrite Hns, He', Hst. auto 6.
Qed.

End StatusOfMesh.

Lemma computeMeshStatus_statuses_witness :
  exists m',
    computeMeshStatus (D := binary64) (LevelSet.signedDistance leftCut) (gridMesh 2 2) = Ok m' /\
    (forall i nd, (i < 9)%nat ->
       nth_error (Mesh.nodes (gridMesh (D := binary64) 2 2)) i = Some nd ->
       exists d, nth_error (LevelSet.signedDistance (leftCut (D := binary64))) i = Some d /\
         nth_error (Mesh.nodes m') i = Some (Node.reset (nodeStatus d) nd)) /\
    (forall i e, (i < 4)%nat ->
       nth_error (Mesh.elements (gridMesh (D := binary64) 2 2)) i = Some e ->
       exists n0 n1 n2 n3,
         nth_error (Mesh.nodes m') (Element.node e 0) = Some n0 /\
         nth_error (Mesh.nodes m') (Element.node e 1) = Some n1 /\
         nth_error (Mesh.nodes m') (Element.node e 2) = Some n2 /\
         nth_error (Mesh.nodes m') (Element.node e 3) = Some n3 /\
         nth_error (Mesh.elements m') i =
         Some (Element.reset
                 (statusOfCorners [Node.status n0; Node.status n1;
                                   Node.status n2; Node.status n3]) e)).
Proof.
  assert (exists m',
    computeMeshStatus (D := binary64) (LevelSet.signedDistance leftCut) (gridMesh 2 2) = Ok m')
    as [m' Hm'] by (eexists; vm_compute; reflexivity).
  exists m'. split; [exact Hm' | ].
  exact (computeMeshStatus_statuses _ _ m' Hm').
Defined.

(** ** What [computeNormalVectors] leaves as it is *)

Section NormalsOnly.
Context {D : Double}.

(** The two points differ by their normal at most. *)
Definition sameButNormal (p q : BoundaryPoint.t double) : Prop :=
  BoundaryPoint.coord q = BoundaryPoint.coord p /\
  BoundaryPoint.length q = BoundaryPoint.length p /\
  BoundaryPoint.negativeLimit q = BoundaryPoint.negativeLimit p /\
  BoundaryPoint.positiveLimit q = BoundaryPoint.positiveLimit p /\
  BoundaryPoint.isDomain q = BoundaryPoint.isDomain p /\
  BoundaryPoint.sensitivities q = BoundaryPoint.sensitivities p /\
  BoundaryPoint.segments q = BoundaryPoint.segments p /\
  BoundaryPoint.neighbours q = BoundaryPoint.neighbours p.

(** The two boundaries differ by the normals of their points at most. *)
Definition normalsModified (b b' : Boundary.t double) : Prop :=
  Forall2 sameButNormal (Boundary.points b) (Boundary.points b') /\
  Boundary.segments b' = Boundary.segments b /\
  Boundary.nPoints b' = Boundary.nPoints b /\
  Boundary.nSegments b' = Boundary.nSegments b /\
  Boundary.length b' = Boundary.length b /\
  Boundary.area b' = Boundary.area b /\
  Boundary.mesh b' = Boundary.mesh b.

Lemma normalsModified_refl b : normalsModified b b.
Proof.
  unfold normalsModified. repeat split; auto.
  apply Forall2_refl. intros p. unfold sameButNormal. tauto.
Qed.

Lemma sameButNormal_setNormal n (p : BoundaryPoint.t double) :
  sameButNormal p (BoundaryPoint.setNormal n p).
Proof. unfold sameButNormal. cbn. tauto. Qed.

Lemma modifyPoint_normalsModified f k b0 (b b' : Boundary.t double) :
  (forall q, sameButNormal q (f q)) ->
  normalsModified b0 b -> modifyPoint f k b = Ok b' -> normalsModified b0 b'.
Proof.
  intros Hf (H1 & H2 & H3 & H4 & H5 & H6 & H7) H.
  apply modifyPoint_inv in H as (p & Hp & ->).
  unfold normalsModified. cbn [Boundary.points Boundary.segments Boundary.nPoints
    Boundary.nSegments Boundary.length Boundary.area Boundary.mesh Boundary.setPoints].
  repeat split; auto.
  eapply Forall2_replace_r; [exact H1 | exact Hp | ].
  intros x Hx. specialize (Hf p). unfold sameButNormal in *.
  repeat match goal with H : _ /\ _ |- _ => destruct H end.
  repeat split; congruence.
Qed.

Lemma scatterStep_normalsModified nd v j b0 (s s' : NormalState) :
  normalsModified b0 (fst (fst s)) -> scatterStep nd v j s = Ok s' ->
  normalsModified b0 (fst (fst s')).
Proof.
  destruct s as [[b isSet] weight]. cbn [fst]. intros Hb H.
  unfold scatterStep in H. destruct v as [xNormal yNormal]. run H; cbn [fst]; auto;
    match goal with
    | E : modifyPoint _ _ b = Ok _ |- _ =>
        apply (modifyPoint_normalsModified _ _ b0) in E;
        [exact E | intros q; apply sameButNormal_setNormal | exact Hb]
    end.
Qed.

Lemma narrowBandStep_normalsModified levelSet i b0 (s s' : NormalState) :
  normalsModified b0 (fst (fst s)) -> narrowBandStep levelSet i s = Ok s' ->
  normalsModified b0 (fst (fst s')).
Proof.
  intros Hs H. destruct s as [[b isSet] weight]. unfold narrowBandStep in H.
  run H; auto.
  eapply (forN_invariant (fun x : NormalState => normalsModified b0 (fst (fst x))));
    [ | exact Hs | exact H].
  intros j t t'. apply scatterStep_normalsModified.
Qed.

Lemma accumulateNormals_normalsModified levelSet (b b1 : Boundary.t double) isSet weight :
  accumulateNormals levelSet b = Ok (b1, isSet, weight) -> normalsModified b b1.
Proof.
  intros Hacc. unfold accumulateNormals in Hacc.
  apply bind_Ok in Hacc as (b0 & H0 & Hacc).
  assert (normalsModified b b0) as Hb0.
  { apply (forN_invariant (normalsModified b)) in H0;
      [exact H0 | | apply normalsModified_refl].
    intros j s s' Hs Hstep. unfold initNormalStep in Hstep.
    apply (modifyPoint_normalsModified _ _ b) in Hstep;
      [exact Hstep | intros q; apply sameButNormal_setNormal | exact Hs]. }
  apply (forN_invariant (fun x : NormalState => normalsModified b (fst (fst x))))
    in Hacc; [exact Hacc | | exact Hb0].
  intros i s s'. apply narrowBandStep_normalsModified.
Qed.

Lemma interpolateStep_normalsModified weight j b0 (b b' : Boundary.t double) :
  normalsModified b0 b -> interpolateStep weight j b = Ok b' -> normalsModified b0 b'.
Proof.
  intros Hs Hstep. unfold interpolateStep in Hstep.
  apply bind_Ok in Hstep as (p & Hp & Hstep).
  destruct (negb (BoundaryPoint.isDomain p)).
  - apply bind_Ok in Hstep as (w & Hw & Hstep).
    apply (modifyPoint_normalsModified _ _ b0) in Hstep;
      [exact Hstep | intros q; apply sameButNormal_setNormal | exact Hs].
  - inversion Hstep; subst. exact Hs.
Qed.

(** X8.  When [computeNormalVectors] returns, it has changed nothing but the
    normals of the points: their coordinates, lengths, limits, flags,
    sensitivities and lookups, the segments, the counts, the total length,
    the area and the mesh are as they were. *)
Theorem computeNormalVectors_frame levelSet (b b' : Boundary.t double) :
  computeNormalVectors levelSet b = Ok b' -> normalsModified b b'.
Proof.
  intros H. apply computeNormalVectors_split in H as (b1 & isSet & weight & Hacc & H).
  apply accumulateNormals_normalsModified in Hacc.
  exact (forN_invariant (normalsModified b) (Boundary.nPoints b1) (interpolateStep weight)
           (fun j s s' => interpolateStep_normalsModified weight j b s s') b1 b' Hacc H).
Qed.

End NormalsOnly.

Lemma computeNormalVectors_frame_witness :
  exists b b',
    discretise (D := binary64) true leftCut (newBoundary (gridMesh 2 2)) = Ok b /\
    computeNormalVectors leftCut b = Ok b' /\
    normalsModified b b'.
Proof.
  assert (exists b b',
    discretise (D := binary64) true leftCut (newBoundary (gridMesh 2 2)) = Ok b /\
    computeNormalVectors leftCut b = Ok b') as (b & b' & Hb & Hb').
  { do 2 eexists. split; [vm_compute; reflexivity | vm_compute; reflexivity]. }
  exists b, b'. split; [exact Hb | split; [exact Hb' | ]].
  exact (computeNormalVectors_frame leftCut b b' Hb').
Defined.

(** ** The segments of the elements *)

Section SegmentsOfElements.
Context {D : Double}.

(** The lists of the elements and the segments counted so far refer to each
    other. *)
Definition listed (b : Boundary.t double) : Prop :=
  (forall k s, k < Boundary.nSegments b ->
     nth_error (Boundary.segments b) k = Some s ->
     exists e, nth_error (Mesh.elements (Boundary.mesh b)) (BoundarySegment.element s) = Some e /\
       In k (Element.boundarySegments e)) /\
  (forall i e k, nth_error (Mesh.elements (Boundary.mesh b)) i = Some e ->
     In k (Element.boundarySegments e) ->
     k < Boundary.nSegments b /\
     exists s, nth_error (Boundary.segments b) k = Some s /\
       BoundarySegment.element s = i).

Lemma addSegment_listed b i start end_ b' :
  listed b -> addSegment b i start end_ = Ok b' -> listed b'.
Proof.
  intros [Ha Hb] H. unfold addSegment, getElement in H.
  apply bind_Ok in H as (len & _ & H).
  apply bind_Ok in H as (e & He & H). apply bind_Ok in H as (es & Hes & H).
  apply bind_Ok in H as (ss & Hss & H). inversion H; subst b'. clear H.
  apply set_Ok in Hes as [Hi ->]. apply set_Ok in Hss as [Hn ->].
  apply get_Ok in He. psimpl. split; psimpl.
  - intros k s Hk Hs. destruct (Nat.eq_dec k (Boundary.nSegments b)) as [->|Hne].
    + rewrite nth_error_replace_eq in Hs by assumption. inversion Hs; subst s.
      psimpl. rewrite nth_error_replace_eq by assumption.
      eexists. split; [reflexivity | ]. psimpl. apply in_or_app. right. left. reflexivity.
    + rewrite nth_error_replace_neq in Hs by auto.
      destruct (Ha k s ltac:(lia) Hs) as (e0 & He0 & Hin).
      destruct (Nat.eq_dec (BoundarySegment.element s) i) as [Heq|Hneq].
      * rewrite Heq in *. rewrite nth_error_replace_eq by assumption.
        assert (e0 = e) by congruence. subst e0.
        eexists. split; [reflexivity | ]. psimpl. apply in_or_app. auto.
      * rewrite nth_error_replace_neq by auto. eauto.
  - intros i' e' k He' Hin. destruct (Nat.eq_dec i' i) as [->|Hneq].
    + rewrite nth_error_replace_eq in He' by assumption. inversion He'; subst e'.
      psimpl. apply in_app_or in Hin as [Hin|[<-|[]]].
      * destruct (Hb i e k He Hin) as (Hk & s & Hs & Hel). split; [lia | ].
        exists s. rewrite nth_error_replace_neq by lia. auto.
      * split; [lia | ]. rewrite nth_error_replace_eq by assumption.
        eexists. split; reflexivity.
    + rewrite nth_error_replace_neq in He' by auto.
      destruct (Hb i' e' k He' Hin) as (Hk & s & Hs & Hel). split; [lia | ].
      exists s. rewrite nth_error_replace_neq by lia. auto.
Qed.

Lemma setElementStatus_listed b i status b' :
  listed b -> setElementStatus b i status = Ok b' -> listed b'.
Proof.
  intros [Ha Hb] H. unfold setElementStatus, getElement in H.
  apply bind_Ok in H as (e & He & H). apply bind_Ok in H as (es & Hes & H).
  inversion H; subst b'. clear H. apply set_Ok in Hes as [Hi ->].
  apply get_Ok in He. split; psimpl.
  - intros k s Hk Hs. destruct (Ha k s Hk Hs) as (e0 & He0 & Hin).
    destruct (Nat.eq_dec (BoundarySegment.element s) i) as [Heq|Hneq].
    + rewrite Heq in *. rewrite nth_error_replace_eq by assumption.
      assert (e0 = e) by congruence. subst e0.
      eexists. split; [reflexivity | ]. psimpl. assumption.
    + rewrite nth_error_replace_neq by auto. eauto.
  - intros i' e' k He' Hin. destruct (Nat.eq_dec i' i) as [->|Hneq].
    + rewrite nth_error_replace_eq in He' by assumption. inversion He'; subst e'.
      psimpl. eauto.
    + rewrite nth_error_replace_neq in He' by auto. eauto.
Qed.

Lemma elementStep_listed isTarget levelSet sd i b b' :
  listed b -> elementStep isTarget levelSet sd i b = Ok b' -> listed b'.
Proof.
  apply elementStep_keeps.
  - intros x n y Hx H. unfold registerPoint in H. run H. exact Hx.
  - intros x c y Hx H. unfold newPoint in H. run H. exact Hx.
  - intros x s e y. apply addSegment_listed.
  - intros x s y. apply setElementStatus_listed.
Qed.

(** [computeMeshStatus] empties the list of the segments of every element. *)
Lemma computeMeshStatus_noSegments sd (m m' : Mesh.t double) :
  Mesh.nElements m = length (Mesh.elements m) ->
  computeMeshStatus sd m = Ok m' ->
  forall i e, nth_error (Mesh.elements m') i = Some e -> Element.boundarySegments e = [].
Proof.
  intros Hsize H i e He.
  pose proof (computeMeshStatus_frame _ _ _ H) as (_ & _ & _ & _ & _ & _ & Hlen).
  unfold computeMeshStatus in H. apply bind_Ok in H as (m1 & H1 & H2).
  apply nodeLoop_reset in H1 as (Hes & Hne & _).
  apply elementLoop_reset in H2 as (_ & Helems).
  assert (i < length (Mesh.elements m)) as Hi.
  { rewrite <- Hlen. apply nth_error_Some. congruence. }
  destruct (nth_error (Mesh.elements m1) i) as [e0|] eqn:He0.
  - specialize (Helems i e0 He0). rewrite Hne, Hsize in Helems.
    apply Nat.ltb_lt in Hi. rewrite Hi in Helems.
    destruct Helems as (t & _ & He'). assert (e = Element.reset (elementStatus t) e0) by congruence.
    subst e. reflexivity.
  - apply nth_error_None in He0. rewrite Hes in He0. lia.
Qed.

(** X9.  When [discretise] returns on a mesh that counts all its elements,
    the segments and the lists of the elements refer to each other: segment
    [k] is in the list of the element that it names, and an element lists
    only segments that name it. *)
Theorem discretise_element_segments isTarget levelSet (b b' : Boundary.t double) :
  Mesh.nElements (Boundary.mesh b) = length (Mesh.elements (Boundary.mesh b)) ->
  discretise isTarget levelSet b = Ok b' ->
  (forall k s, nth_error (Boundary.segments b') k = Some s ->
     exists e,
       nth_error (Mesh.elements (Boundary.mesh b')) (BoundarySegment.element s) = Some e /\
       In k (Element.boundarySegments e)) /\
  (forall i e k, nth_error (Mesh.elements (Boundary.mesh b')) i = Some e ->
     In k (Element.boundarySegments e) ->
     exists s, nth_error (Boundary.segments b') k = Some s /\
       BoundarySegment.element s = i).
Proof.
  intros Hsize H. unfold discretise in H. apply bind_Ok in H as (b1 & H1 & H).
  assert (listed b1) as [Ha Hb].
  { unfold extract in H1. apply bind_Ok in H1 as (m & Hm & H1).
    apply (forN_invariant listed) in H1; [exact H1 | | ].
    - intros i s s'. apply elementStep_listed.
    - unfold allocate in *. psimpl. split; psimpl.
      + intros k s Hk. lia.
      + intros i e k He Hin.
        rewrite (computeMeshStatus_noSegments _ _ _ Hsize Hm i e He) in Hin.
        destruct Hin. }
  pose proof (extract_extracted isTarget levelSet (fun _ => True) b b1
                (fun _ _ _ _ _ => I) H1) as Hex.
  destruct (shrink_extracted _ _ _ _ Hex) as (_ & Hss & _ & _ & HnS).
  apply computePointLengths_pointsModified in H as (_ & Hseg & _ & _ & _ & _ & Hmesh).
  rewrite Hseg, Hss, Hmesh. unfold shrink. psimpl. split.
  - intros k s Hs. rewrite nth_error_firstn in Hs.
    destruct (Nat.ltb_spec k (Boundary.nSegments b1)); [ | discriminate]. eauto.
  - intros i e k He Hin. destruct (Hb i e k He Hin) as (Hk & s & Hs & Hel).
    exists s. rewrite nth_error_firstn. apply Nat.ltb_lt in Hk. rewrite Hk. auto.
Qed.

End SegmentsOfElements.

Lemma discretise_element_segments_witness :
  exists b',
    discretise (D := binary64) true leftCut (newBoundary (gridMesh 2 2)) = Ok b' /\
    (forall k s, nth_error (Boundary.segments b') k = Some s ->
       exists e,
         nth_error (Mesh.elements (Boundary.mesh b')) (BoundarySegment.element s) = Some e /\
         In k (Element.boundarySegments e)) /\
    (forall i e k, nth_error (Mesh.elements (Boundary.mesh b')) i = Some e ->
       In k (Element.boundarySegments e) ->
       exists s, nth_error (Boundary.segments b') k = Some s /\
         BoundarySegment.element s = i).
Proof.
  assert (exists b',
    discretise (D := binary64) true leftCut (newBoundary (gridMesh 2 2)) = Ok b')
    as [b' Hb'] by (eexists; vm_compute; reflexivity).
  exists b'. split; [exact Hb' | ].
  exact (discretise_element_segments true leftCut (newBoundary (gridMesh 2 2)) b'
           eq_refl Hb').
Defined.

(** ** The points of the nodes *)

(** X10.  When [discretise] returns on a mesh that counts all its nodes,
    every index in the list of the points of a node is the index of a point
    of the boundary. *)
Theorem discretise_node_points {D : Double} isTarget levelSet (b b' : Boundary.t double)
    i nd k :
  Mesh.nNodes (Boundary.mesh b) = length (Mesh.nodes (Boundary.mesh b)) ->
  discretise isTarget levelSet b = Ok b' ->
  nth_error (Mesh.nodes (Boundary.mesh b')) i = Some nd ->
  In k (Node.boundaryPoints nd) ->
  k < Boundary.nPoints b' /\ exists p, nth_error (Boundary.points b') k = Some p.
Proof.
  intros Hsize H Hnd Hk. unfold discretise in H. apply bind_Ok in H as (b1 & H1 & H).
  pose proof (extract_coherent _ _ _ _ Hsize H1) as [Hbelow _].
  pose proof (extract_extracted isTarget levelSet (fun _ => True) b b1
                (fun _ _ _ _ _ => I) H1) as Hex.
  destruct (shrink_extracted _ _ _ _ Hex) as (Hps & _ & _ & HnP & _).
  destruct Hex as [HcP _ _ _ _ _].
  apply computePointLengths_pointsModified in H as (HF & _ & HnP' & _ & _ & _ & Hmesh).
  rewrite Hmesh in Hnd. unfold shrink in Hnd. psimpl.
  pose proof (Hbelow i nd Hnd) as Hall. rewrite Forall_forall in Hall.
  specialize (Hall k Hk). rewrite HnP', HnP. split; [exact Hall | ].
  apply Forall2_length in HF. rewrite Hps, length_firstn in HF.
  destruct (nth_error (Boundary.points b') k) eqn:E; [eauto | ].
  apply nth_error_None in E. lia.
Qed.

Lemma discretise_node_points_witness :
  exists b' nd,
    discretise (D := binary64) true leftCut (newBoundary (gridMesh 2 2)) = Ok b' /\
    nth_error (Mesh.nodes (Boundary.mesh b')) 4 = Some nd /\
    In 1 (Node.boundaryPoints nd) /\
    1 < Boundary.nPoints b' /\ exists p, nth_error (Boundary.points b') 1 = Some p.
Proof.
  assert (exists b' nd,
    discretise (D := binary64) true leftCut (newBoundary (gridMesh 2 2)) = Ok b' /\
    nth_error (Mesh.nodes (Boundary.mesh b')) 4 = Some nd /\
    In 1 (Node.boundaryPoints nd)) as (b' & nd & Hb' & Hnd & Hin).
  { do 2 eexists. split; [vm_compute; reflexivity | ].
    split; [reflexivity | ]. vm_compute. auto. }
  exists b', nd. split; [exact Hb' | split; [exact Hnd | split; [exact Hin | ]]].
  exact (discretise_node_points true leftCut (newBoundary (gridMesh 2 2)) b' 4 nd 1
           eq_refl Hb' Hnd Hin).
Defined.

(** ** [computeAreaFractions] a second time *)

Section AreasAgain.
Context {D : Double}.
Variable sort : (Coord.t double -> Coord.t double -> bool) ->
                list (Coord.t double) -> list (Coord.t double).

Lemma replace_same {A} (l : list A) (j : nat) (a : A) :
  nth_error l j = Some a -> replace l j a = l.
Proof.
  revert j. induction l as [|x l IH]; intros [|j]; cbn [replace nth_error];
    intros H; try discriminate.
  - inversion H. reflexivity.
  - f_equal. auto.
Qed.

(** The area of an element does not depend on the area it holds. *)
Lemma elementArea_setArea b a (e : Element.t double) :
  elementArea sort b (Element.setArea a e) = elementArea sort b e.
Proof. destruct e. reflexivity. Qed.

(** The elements that the loop of [computeAreaFractions] looks at are there. *)
Lemma computeAreaFractions_elements (b b' : Boundary.t double) sum :
  computeAreaFractions sort b = Ok (b', sum) ->
  Mesh.nElements (Boundary.mesh b) <= length (Mesh.elements (Boundary.mesh b)).
Proof.
  intros H. unfold computeAreaFractions in H. apply bind_Ok in H as (b1 & H & _).
  apply (forN_invariant_at (fun j (x : Boundary.t double) =>
    length (Mesh.elements (Boundary.mesh x)) = length (Mesh.elements (Boundary.mesh b)) /\
    j <= length (Mesh.elements (Boundary.mesh b)))) in H.
  - tauto.
  - intros j s s' Hj [Hlen Hle] Hstep. unfold areaStep in Hstep.
    apply bind_Ok in Hstep as (e & He & Hstep). apply bind_Ok in Hstep as (a & Ha & Hstep).
    apply bind_Ok in Hstep as (es & Hes & Hstep). inversion Hstep; subst. clear Hstep.
    apply set_Ok in Hes as [Hlt ->]. psimpl. rewrite length_replace. lia.
  - psimpl. lia.
Qed.

(** The area of the boundary after [j] turns. *)
Definition areaTo (b1 : Boundary.t double) (j : nat) : double :=
  total (map Element.area (firstn j (Mesh.elements (Boundary.mesh b1)))).

Lemma areaStep_again (b b1 : Boundary.t double) j :
  areasDone sort b (Mesh.nElements (Boundary.mesh b)) b1 ->
  j < Mesh.nElements (Boundary.mesh b) ->
  Mesh.nElements (Boundary.mesh b) <= length (Mesh.elements (Boundary.mesh b)) ->
  areaStep sort j (Boundary.setArea (areaTo b1 j) b1) =
  Ok (Boundary.setArea (areaTo b1 (S j)) b1).
Proof.
  intros [Hg Hc Hd Ht Hs] Hj Hlen.
  destruct (nth_error (Mesh.elements (Boundary.mesh b)) j) as [e|] eqn:He.
  2: { apply nth_error_None in He. lia. }
  destruct (Hd j e Hj He) as (a & Ha & He1).
  unfold areaStep, getElement. psimpl.
  rewrite (get_nth _ _ _ _ He1). cbn [bind].
  rewrite (elementArea_ext sort b (Boundary.setArea (areaTo b1 j) b1)),
          elementArea_setArea, Ha.
  2: { destruct Hg as (Hn & Hp & Hsg). unfold sameGeometry. psimpl. auto. }
  cbn [bind]. rewrite set_lt by (apply nth_error_Some; congruence). cbn [bind].
  replace (Element.setArea a (Element.setArea a e)) with (Element.setArea a e)
    by (destruct e; reflexivity).
  rewrite (replace_same _ _ _ He1). f_equal.
  unfold areaTo. rewrite (firstn_S_nth _ _ _ He1), map_app. cbn [map].
  rewrite total_snoc. destruct b1 as [ps ss nP nS len ar m]. destruct m.
  reflexivity.
Qed.

(** X11.  [computeAreaFractions] called a second time changes nothing and
    returns the same total: what it reads of an element is not the area
    that it writes. *)
Theorem computeAreaFractions_again (b b1 : Boundary.t double) sum :
  computeAreaFractions sort b = Ok (b1, sum) ->
  computeAreaFractions sort b1 = Ok (b1, sum).
Proof.
  intros H. pose proof (computeAreaFractions_elements _ _ _ H) as Hlen.
  apply computeAreaFractions_areasDone in H as [Hdone ->].
  pose proof Hdone as [_ Hc _ _ Hs].
  unfold computeAreaFractions. rewrite Hc.
  destruct (forN_total
    (fun j (x : Boundary.t double) => x = Boundary.setArea (areaTo b1 j) b1)
    (Mesh.nElements (Boundary.mesh b)) (areaStep sort)) with (s := Boundary.setArea d0 b1)
    as (x & Hx & ->).
  - intros j s Hj ->. eexists. split; [ | reflexivity].
    apply (areaStep_again b b1 j); assumption.
  - reflexivity.
  - rewrite Hx. cbn [bind]. unfold areaTo. rewrite <- Hs.
    destruct b1. reflexivity.
Qed.

End AreasAgain.

Lemma computeAreaFractions_again_witness :
  exists b b1 sum,
    discretise (D := binary64) true verticalCut (newBoundary (gridMesh 1 1)) = Ok b /\
    computeAreaFractions insertionSort b = Ok (b1, sum) /\
    computeAreaFractions insertionSort b1 = Ok (b1, sum).
Proof.
  assert (exists b b1 sum,
    discretise (D := binary64) true verticalCut (newBoundary (gridMesh 1 1)) = Ok b /\
    computeAreaFractions insertionSort b = Ok (b1, sum)) as (b & b1 & sum & Hb & H1).
  { do 3 eexists. split; [vm_compute; reflexivity | vm_compute; reflexivity]. }
  exists b, b1, sum. split; [exact Hb | split; [exact H1 | ]].
  exact (computeAreaFractions_again insertionSort b b1 sum H1).
Defined.

(** ** The movement limits and the move limit of the level set *)

Lemma initialisePoint_moves (levelSet : LevelSet.t (@double exact)) m old c :
  let p := initialisePoint levelSet m old c in
  let d := edgeDistance (Mesh.width m) (Mesh.height m) c in
  let limit := LevelSet.moveLimit levelSet in
  BoundaryPoint.positiveLimit p = limit /\
  ((limit <= 1 / 2)%R -> (- BoundaryPoint.negativeLimit p <= d)%R) /\
  ((1 / 2 <= limit)%R -> (- BoundaryPoint.negativeLimit p <= limit)%R).
Proof.
  unfold initialisePoint. psimpl. rewrite !dmin_exact.
  unfold edgeDistance. simpl. change (@double exact) with R in *.
  set (d := Rmin _ _). unfold R_ltb.
  destruct (Rlt_dec d (1 / 2)); repeat split; intros; lra.
Qed.

(** X12.  In exact arithmetic, a point that [discretise] produced may move
    outwards by the move limit of the level set.  Inwards it may move by no
    more than its distance to the edge of the domain when the move limit is
    at most 0.5, and by no more than the move limit when the move limit is at
    least 0.5. *)
Theorem discretise_point_moves isTarget (levelSet : LevelSet.t (@double exact)) b b' p :
  discretise isTarget levelSet b = Ok b' ->
  In p (Boundary.points b') ->
  let d := edgeDistance (Mesh.width (Boundary.mesh b)) (Mesh.height (Boundary.mesh b))
             (BoundaryPoint.coord p) in
  let limit := LevelSet.moveLimit levelSet in
  BoundaryPoint.positiveLimit p = limit /\
  ((limit <= 1 / 2)%R -> (- BoundaryPoint.negativeLimit p <= d)%R) /\
  ((1 / 2 <= limit)%R -> (- BoundaryPoint.negativeLimit p <= limit)%R).
Proof.
  intros H Hp.
  destruct (discretise_created _ _ _ _ _ H Hp)
    as (m & old & c & Hw & Hh & Hc & Hn & Hpl & _).
  rewrite <- Hw, <- Hh. cbv zeta. rewrite Hn, Hpl, Hc.
  exact (initialisePoint_moves levelSet m old c).
Qed.

Lemma discretise_point_moves_witness :
  exists b' p,
    discretise (D := exact) true verticalCut (newBoundary (gridMesh 1 1)) = Ok b' /\
    In p (Boundary.points b') /\
    BoundaryPoint.positiveLimit p = (1 / 2)%R /\
    (- BoundaryPoint.negativeLimit p <= edgeDistance 1 1 (BoundaryPoint.coord p))%R /\
    (- BoundaryPoint.negativeLimit p <= 1 / 2)%R.
Proof.
  destruct verticalCut_exact as (b' & H & p & Hp & _).
  exists b', p. split; [exact H | split; [exact Hp | ]].
  destruct (discretise_point_moves true verticalCut _ b' p H Hp) as (H1 & H2 & H3).
  split; [exact H1 | split].
  - apply H2. cbv [LevelSet.moveLimit verticalCut levelSetOf dhalf exact]. lra.
  - apply H3. cbv [LevelSet.moveLimit verticalCut levelSetOf dhalf exact]. lra.
Defined.

(** ** What a point keeps of the slot that it is made in *)

Section Slots.
Context {D : Double}.
Variable levelSet : LevelSet.t double.
(** The points vector on entry to the loop over the elements. *)
Variable slots : list (BoundaryPoint.t double).

(** The slots not yet used are as they were, and a point made in a slot has
    the first two sensitivities and the normal that the slot held. *)
Definition inherits (b : Boundary.t double) : Prop :=
  (forall k, Boundary.nPoints b <= k ->
     nth_error (Boundary.points b) k = nth_error slots k) /\
  (forall k p, k < Boundary.nPoints b -> nth_error (Boundary.points b) k = Some p ->
     exists old, nth_error slots k = Some old /\
       BoundaryPoint.sensitivities p = resize d0 2 (BoundaryPoint.sensitivities old) /\
       BoundaryPoint.normal p = BoundaryPoint.normal old).

Lemma newPoint_inherits b c b' :
  inherits b -> newPoint levelSet b c = Ok b' -> inherits b'.
Proof.
  intros [Hrest Hmade] H. unfold newPoint, getPoint in H.
  apply bind_Ok in H as (old & Hold & H). apply bind_Ok in H as (ps & Hps & H).
  inversion H; subst b'. clear H. apply set_Ok in Hps as [Hlt ->].
  apply get_Ok in Hold. split; psimpl.
  - intros k Hk. rewrite nth_error_replace_neq by lia. apply Hrest. lia.
  - intros k p Hk Hp. destruct (Nat.eq_dec k (Boundary.nPoints b)) as [->|Hne].
    + rewrite nth_error_replace_eq in Hp by assumption. inversion Hp; subst p.
      exists old. rewrite <- Hrest by lia. auto.
    + rewrite nth_error_replace_neq in Hp by auto. apply Hmade; [lia | assumption].
Qed.

Lemma elementStep_inherits isTarget sd i b b' :
  inherits b -> elementStep isTarget levelSet sd i b = Ok b' -> inherits b'.
Proof.
  apply elementStep_keeps.
  - intros x n y Hx H. unfold registerPoint in H. run H. exact Hx.
  - apply newPoint_inherits.
  - intros x s e y Hx H. unfold addSegment in H. run H. exact Hx.
  - intros x s y Hx H. unfold setElementStatus in H. run H. exact Hx.
Qed.

End Slots.

Section SlotsOfBoundary.
Context {D : Double}.

Lemma nth_error_resize {A} (dflt : A) (n : nat) (l : list A) (k : nat) :
  k < n -> nth_error (resize dflt n l) k = Some (nth k l dflt).
Proof.
  intros Hk. unfold resize. destruct (Nat.lt_ge_cases k (length l)) as [Hlt|Hge].
  - rewrite nth_error_app1 by (rewrite length_firstn; lia).
    rewrite nth_error_firstn. apply Nat.ltb_lt in Hk. rewrite Hk.
    apply nth_error_nth'. assumption.
  - rewrite nth_error_app2 by (rewrite length_firstn; lia).
    rewrite (nth_overflow l dflt Hge).
    rewrite length_firstn, Nat.min_r by lia.
    rewrite nth_error_repeat by lia. reflexivity.
Qed.

(** X13.  [discretise] does not clear the slots of the points vector: a
    point of the result has the first two sensitivities, padded with zeros,
    and the normal of the point that was at its index before the call, a
    point with no sensitivity and a zero normal where there was none. *)
Theorem discretise_inherits isTarget levelSet (b b' : Boundary.t double) k p :
  discretise isTarget levelSet b = Ok b' ->
  nth_error (Boundary.points b') k = Some p ->
  let old := nth k (Boundary.points b) BoundaryPoint.zero in
  BoundaryPoint.sensitivities p = resize d0 2 (BoundaryPoint.sensitivities old) /\
  BoundaryPoint.normal p = BoundaryPoint.normal old.
Proof.
  intros H Hp. unfold discretise in H. apply bind_Ok in H as (b1 & H1 & H).
  pose proof (extract_allocated _ _ _ _ H1) as [Hsize _].
  pose proof (extract_extracted isTarget levelSet (fun _ => True) b b1
                (fun _ _ _ _ _ => I) H1) as Hex.
  destruct (shrink_extracted _ _ _ _ Hex) as (Hps & _ & _ & HnP & _).
  destruct Hex as [HcP _ _ _ _ _].
  assert (inherits (Boundary.points (allocate b)) b1) as [_ Hmade].
  { unfold extract in H1. apply bind_Ok in H1 as (m & Hm & H1).
    apply (forN_invariant (inherits (Boundary.points (allocate b)))) in H1;
      [exact H1 | | ].
    - intros i s s'. apply elementStep_inherits.
    - unfold allocate. psimpl. split; psimpl; [reflexivity | intros; lia]. }
  apply computePointLengths_pointsModified in H as (HF & _).
  rewrite Hps in HF.
  assert (k < Boundary.nPoints b1) as Hk.
  { apply Forall2_length in HF. rewrite length_firstn in HF.
    assert (k < length (Boundary.points b')) by (apply nth_error_Some; congruence).
    lia. }
  destruct (nth_error (Boundary.points b1) k) as [p1|] eqn:Hp1.
  2: { apply nth_error_None in Hp1. lia. }
  destruct (Forall2_nth_error _ _ _ k p1 HF) as (p' & Hp' & Hcore).
  { rewrite nth_error_firstn. apply Nat.ltb_lt in Hk. rewrite Hk. exact Hp1. }
  assert (p' = p) by congruence. subst p'.
  destruct Hcore as (_ & _ & _ & _ & Hsens & Hnormal).
  destruct (Hmade k p1 Hk Hp1) as (old & Hold & Hs & Hn).
  unfold allocate in Hold. psimpl.
  rewrite nth_error_resize in Hold by lia. inversion Hold; subst old.
  cbv zeta. rewrite Hsens, Hnormal. auto.
Qed.

End SlotsOfBoundary.

Lemma discretise_inherits_witness :
  exists b1 b2 b3 p,
    discretise (D := binary64) true leftCut (newBoundary (gridMesh 2 2)) = Ok b1 /\
    computeNormalVectors leftCut b1 = Ok b2 /\
    discretise true leftCut b2 = Ok b3 /\
    nth_error (Boundary.points b3) 1 = Some p /\
    BoundaryPoint.sensitivities p =
      resize d0 2 (BoundaryPoint.sensitivities (nth 1 (Boundary.points b2) BoundaryPoint.zero)) /\
    BoundaryPoint.normal p =
      BoundaryPoint.normal (nth 1 (Boundary.points b2) BoundaryPoint.zero).
Proof.
  assert (exists b1 b2 b3 p,
    discretise (D := binary64) true leftCut (newBoundary (gridMesh 2 2)) = Ok b1 /\
    computeNormalVectors leftCut b1 = Ok b2 /\
    discretise true leftCut b2 = Ok b3 /\
    nth_error (Boundary.points b3) 1 = Some p) as (b1 & b2 & b3 & p & H1 & H2 & H3 & Hp).
  { do 4 eexists. split; [vm_compute; reflexivity | ].
    split; [vm_compute; reflexivity | ].
    split; [vm_compute; reflexivity | reflexivity]. }
  exists b1, b2, b3, p.
  split; [exact H1 | split; [exact H2 | split; [exact H3 | split; [exact Hp | ]]]].
  exact (discretise_inherits true leftCut b2 b3 1 p H3 Hp).
Defined.

From Stdlib Require String Ascii Decimal DecimalString DecimalNat.

(** * The names of the files (InputOutput.cpp)

    The overloads that take a data point build the name of the file and call
    the overload that takes the name. *)

Module InputOutput.
Import String Ascii.
Local Open Scope string_scope.

(** [num << datapoint] for an [unsigned int]: its decimal digits. *)
Definition digits (datapoint : nat) : string :=
  DecimalString.NilEmpty.string_of_uint (Nat.to_uint datapoint).

(** [k] times the fill character. *)
Fixpoint fill (k : nat) : string :=
  match k with
  | O => EmptyString
  | S k' => String "0" (fill k')
  end.

(** [num.width(4); num.fill('0'); num << std::right << datapoint;] *)
Definition number (datapoint : nat) : string :=
  fill (4 - String.length (digits datapoint)) ++ digits datapoint.

(** [if (!outputDirectory.empty()) fileName << outputDirectory << "/";
    fileName << stem << num.str() << extension;] *)
Definition fileName (directory stem : string) (datapoint : nat) (extension : string)
  : string :=
  (match directory with
   | EmptyString => EmptyString
   | _ => directory ++ "/"
   end) ++ stem ++ number datapoint ++ extension.

(** The names of the nine overloads. *)
Definition saveLevelSetVTK directory datapoint :=
  fileName directory "level-set_" datapoint ".vtk".
Definition saveLevelSetTXT directory datapoint :=
  fileName directory "level-set_" datapoint ".txt".
Definition saveLevelSetBIN directory datapoint :=
  fileName directory "level-set_" datapoint ".bin".
Definition loadLevelSetTXT directory datapoint :=
  fileName directory "level-set_" datapoint ".txt".
Definition loadLevelSetBIN directory datapoint :=
  fileName directory "level-set_" datapoint ".bin".
Definition saveBoundaryPointsTXT directory datapoint :=
  fileName directory "boundary-points_" datapoint ".txt".
Definition saveBoundarySegmentsTXT directory datapoint :=
  fileName directory "boundary-segments_" datapoint ".txt".
Definition saveAreaFractionsVTK directory datapoint :=
  fileName directory "area_" datapoint ".vtk".
Definition saveAreaFractionsTXT directory datapoint :=
  fileName directory "area_" datapoint ".txt".

(** The data point that a number stands for. *)
Definition datapointOf (s : string) : option nat :=
  option_map Nat.of_uint (DecimalString.NilEmpty.uint_of_string s).

Fixpoint zeros (k : nat) (d : Decimal.uint) : Decimal.uint :=
  match k with
  | O => d
  | S k' => Decimal.D0 (zeros k' d)
  end.

Lemma fill_digits k d :
  fill k ++ DecimalString.NilEmpty.string_of_uint d =
  DecimalString.NilEmpty.string_of_uint (zeros k d).
Proof. induction k as [|k IH]; cbn; [reflexivity | rewrite IH; reflexivity]. Qed.

Lemma of_uint_zeros k d : Nat.of_uint (zeros k d) = Nat.of_uint d.
Proof.
  induction k as [|k IH]; cbn [zeros]; [reflexivity | ].
  rewrite <- DecimalNat.Unsigned.of_uint_norm. cbn [Decimal.unorm].
  rewrite DecimalNat.Unsigned.of_uint_norm. exact IH.
Qed.

Lemma datapointOf_number n : datapointOf (number n) = Some n.
Proof.
  unfold datapointOf, number, digits. rewrite fill_digits.
  rewrite DecimalString.NilEmpty.usu. cbn [option_map].
  rewrite of_uint_zeros, DecimalNat.Unsigned.of_to. reflexivity.
Qed.

Lemma length_append (s t : string) :
  String.length (s ++ t) = String.length s + String.length t.
Proof. induction s as [|a s IH]; cbn; [reflexivity | rewrite IH; reflexivity]. Qed.

Lemma append_inj_l (p s t : string) : p ++ s = p ++ t -> s = t.
Proof.
  induction p as [|a p IH]; cbn; intros H; [exact H | ].
  inversion H. auto.
Qed.

Lemma append_inj_r (s t e : string) : s ++ e = t ++ e -> s = t.
Proof.
  intros H. assert (String.length s = String.length t) as Hlen.
  { apply (f_equal String.length) in H. rewrite !length_append in H. lia. }
  revert t H Hlen. induction s as [|a s IH]; intros [|b t] H Hlen; cbn in *;
    try discriminate; try reflexivity.
  inversion H. f_equal. apply IH; [assumption | lia].
Qed.

Lemma length_fill k : String.length (fill k) = k.
Proof. induction k as [|k IH]; cbn; [reflexivity | rewrite IH; reflexivity]. Qed.

(** X14.  With the same directory, the same stem and the same extension, the
    overloads that take a data point build different file names for different
    data points: the number in the name has all the digits of the data point,
    filled with zeros on the left up to four characters and never cut to
    four. *)
Theorem fileName_injective directory stem extension n m :
  n <> m ->
  fileName directory stem n extension <> fileName directory stem m extension.
Proof.
  unfold fileName. intros Hnm H. apply Hnm.
  apply append_inj_l, append_inj_l, append_inj_r in H.
  apply (f_equal datapointOf) in H. rewrite !datapointOf_number in H.
  inversion H. reflexivity.
Qed.

Lemma fileName_injective_witness :
  saveLevelSetVTK "out" 7 = "out/level-set_0007.vtk" /\
  saveAreaFractionsTXT EmptyString 1234 = "area_1234.txt" /\
  7 <> 1234 /\
  saveLevelSetVTK "out" 7 <> saveLevelSetVTK "out" 1234.
Proof.
  split; [reflexivity | split; [reflexivity | split; [lia | ]]].
  apply (fileName_injective "out" "level-set_" ".vtk" 7 1234). lia.
Defined.

End InputOutput.

(** ** What [discretise] leaves of the mesh *)

Section Geometry.
Context {D : Double}.

(** The two nodes differ by their status and their boundary points at most. *)
Definition sameNode (n n' : Node.t double) : Prop :=
  Node.coord n' = Node.coord n /\
  Node.isActive n' = Node.isActive n /\
  Node.isDomain n' = Node.isDomain n.

(** The two elements differ by their status and their segments at most. *)
Definition sameElement (e e' : Element.t double) : Prop :=
  Element.coord e' = Element.coord e /\
  Element.area e' = Element.area e /\
  Element.nodes e' = Element.nodes e.

(** The two meshes have the same geometry. *)
Definition sameMesh (m m' : Mesh.t double) : Prop :=
  Forall2 sameNode (Mesh.nodes m) (Mesh.nodes m') /\
  Forall2 sameElement (Mesh.elements m) (Mesh.elements m') /\
  Mesh.nNodes m' = Mesh.nNodes m /\
  Mesh.nElements m' = Mesh.nElements m /\
  Mesh.width m' = Mesh.width m /\
  Mesh.height m' = Mesh.height m /\
  Mesh.xyToIndex m' = Mesh.xyToIndex m.

Lemma sameMesh_refl m : sameMesh m m.
Proof.
  unfold sameMesh. repeat split; auto; apply Forall2_refl; intros x;
    unfold sameNode, sameElement; tauto.
Qed.

Lemma sameMesh_setNodes m0 m k nd nd' :
  sameMesh m0 m -> nth_error (Mesh.nodes m) k = Some nd -> sameNode nd nd' ->
  sameMesh m0 (Mesh.setNodes (replace (Mesh.nodes m) k nd') m).
Proof.
  intros (H1 & H2 & H3 & H4 & H5 & H6 & H7) Hk Hnd.
  unfold sameMesh. psimpl. repeat split; auto.
  eapply Forall2_replace_r; [exact H1 | exact Hk | ].
  intros x Hx. unfold sameNode in *.
  repeat match goal with H : _ /\ _ |- _ => destruct H end.
  repeat split; congruence.
Qed.

Lemma sameMesh_setElements m0 m k e e' :
  sameMesh m0 m -> nth_error (Mesh.elements m) k = Some e -> sameElement e e' ->
  sameMesh m0 (Mesh.setElements (replace (Mesh.elements m) k e') m).
Proof.
  intros (H1 & H2 & H3 & H4 & H5 & H6 & H7) Hk He.
  unfold sameMesh. psimpl. repeat split; auto.
  eapply Forall2_replace_r; [exact H2 | exact Hk | ].
  intros x Hx. unfold sameElement in *.
  repeat match goal with H : _ /\ _ |- _ => destruct H end.
  repeat split; congruence.
Qed.

Lemma computeMeshStatus_sameMesh sd m0 m m' :
  sameMesh m0 m -> computeMeshStatus sd m = Ok m' -> sameMesh m0 m'.
Proof.
  intros Hm H. unfold computeMeshStatus in H. apply bind_Ok in H as (m1 & H1 & H).
  assert (sameMesh m0 m1) as Hm1.
  { apply (forN_invariant (sameMesh m0)) in H1; [exact H1 | | exact Hm].
    intros i s s' Hs Hstep. unfold nodeStatusStep in Hstep.
    apply bind_Ok in Hstep as (nd & Hnd & Hstep).
    apply bind_Ok in Hstep as (d & _ & Hstep).
    apply bind_Ok in Hstep as (ns & Hns & Hstep). inversion Hstep; subst s'.
    apply set_Ok in Hns as [_ ->]. apply get_Ok in Hnd.
    apply sameMesh_setNodes with (nd := nd); auto.
    unfold sameNode. psimpl. tauto. }
  apply (forN_invariant (sameMesh m0)) in H; [exact H | | exact Hm1].
  intros i s s' Hs Hstep. unfold elementStatusStep in Hstep.
  apply bind_Ok in Hstep as (e & He & Hstep).
  apply bind_Ok in Hstep as (t & _ & Hstep).
  apply bind_Ok in Hstep as (es & Hes & Hstep). inversion Hstep; subst s'.
  apply set_Ok in Hes as [_ ->]. apply get_Ok in He.
  apply sameMesh_setElements with (e := e); auto.
  unfold sameElement. psimpl. tauto.
Qed.

Lemma elementStep_sameMesh isTarget levelSet sd i m0 (b b' : Boundary.t double) :
  sameMesh m0 (Boundary.mesh b) ->
  elementStep isTarget levelSet sd i b = Ok b' ->
  sameMesh m0 (Boundary.mesh b').
Proof.
  apply (elementStep_keeps (fun x => sameMesh m0 (Boundary.mesh x))).
  - intros x n y Hx H. unfold registerPoint, getNode in H.
    apply bind_Ok in H as (nd & Hnd & H). apply bind_Ok in H as (ns & Hns & H).
    inversion H; subst y. apply set_Ok in Hns as [_ ->]. apply get_Ok in Hnd.
    psimpl. apply sameMesh_setNodes with (nd := nd); auto.
    unfold sameNode. psimpl. tauto.
  - intros x c y Hx H. unfold newPoint in H. run H. exact Hx.
  - intros x s e y Hx H. unfold addSegment, getElement in H.
    apply bind_Ok in H as (len & _ & H).
    apply bind_Ok in H as (el & Hel & H). apply bind_Ok in H as (es & Hes & H).
    apply bind_Ok in H as (ss & _ & H). inversion H; subst y.
    apply set_Ok in Hes as [_ ->]. apply get_Ok in Hel. psimpl.
    apply sameMesh_setElements with (e := el); auto.
    unfold sameElement. psimpl. tauto.
  - intros x s y Hx H. unfold setElementStatus, getElement in H.
    apply bind_Ok in H as (el & Hel & H). apply bind_Ok in H as (es & Hes & H).
    inversion H; subst y. apply set_Ok in Hes as [_ ->]. apply get_Ok in Hel.
    psimpl. apply sameMesh_setElements with (e := el); auto.
    unfold sameElement. psimpl. tauto.
Qed.

Lemma elementStep_area isTarget levelSet sd i (b b' : Boundary.t double) :
  elementStep isTarget levelSet sd i b = Ok b' -> Boundary.area b' = Boundary.area b.
Proof.
  assert (Boundary.area b = Boundary.area b) as Hb by reflexivity. revert Hb.
  apply (elementStep_keeps (fun x => Boundary.area x = Boundary.area b)).
  - intros x n y Hx Hr. unfold registerPoint in Hr. run Hr. exact Hx.
  - intros x c y Hx Hr. unfold newPoint in Hr. run Hr. exact Hx.
  - intros x s0 e y Hx Hr. unfold addSegment in Hr. run Hr. exact Hx.
  - intros x s0 y Hx Hr. unfold setElementStatus in Hr. run Hr. exact Hx.
Qed.

(** X15.  When [discretise] returns, the geometry of the mesh is as it was:
    every node has its coordinates and its flags, every element its centre,
    its nodes and its area fraction, and the sizes and the index table are
    unchanged; the area of the boundary is unchanged as well.  The function
    writes the statuses and the lookups of the mesh only. *)
Theorem discretise_geometry isTarget levelSet (b b' : Boundary.t double) :
  discretise isTarget levelSet b = Ok b' ->
  sameMesh (Boundary.mesh b) (Boundary.mesh b') /\
  Boundary.area b' = Boundary.area b.
Proof.
  intros H. unfold discretise in H. apply bind_Ok in H as (b1 & H1 & H).
  apply computePointLengths_pointsModified in H as (_ & _ & _ & _ & _ & Harea & Hmesh).
  rewrite Hmesh, Harea. unfold shrink. psimpl.
  unfold extract in H1. apply bind_Ok in H1 as (m & Hm & H1).
  apply (computeMeshStatus_sameMesh _ (Boundary.mesh b)) in Hm;
    [ | unfold allocate; psimpl; apply sameMesh_refl].
  apply (forN_invariant (fun x : Boundary.t double =>
           sameMesh (Boundary.mesh b) (Boundary.mesh x) /\
           Boundary.area x = Boundary.area b)) in H1; [exact H1 | | ].
  - intros i s s' [Hs Ha] Hstep. split.
    + eapply elementStep_sameMesh; eassumption.
    + rewrite <- Ha. eapply elementStep_area; eassumption.
  - unfold allocate. psimpl. auto.
Qed.

End Geometry.

Lemma discretise_geometry_witness :
  exists b',
    discretise (D := binary64) true leftCut (newBoundary (gridMesh 2 2)) = Ok b' /\
    sameMesh (Boundary.mesh (newBoundary (gridMesh 2 2))) (Boundary.mesh b') /\
    Boundary.area b' = Boundary.area (newBoundary (gridMesh 2 2)).
Proof.
  assert (exists b',
    discretise (D := binary64) true leftCut (newBoundary (gridMesh 2 2)) = Ok b')
    as (b' & Hb').
  { eexists. vm_compute. reflexivity. }
  exists b'. split; [exact Hb' | ].
  exact (discretise_geometry true leftCut (newBoundary (gridMesh 2 2)) b' Hb').
Defined.

(** ** The total length and the lengths of the points, on the doubles *)

(** Two elements side by side, inside at the bottom left and the bottom
    middle: the boundary is made of two segments of different slopes that meet
    on the edge between the elements. *)
Definition slopingCut : LevelSet.t float :=
  levelSetOf (D := binary64) [3; 2; -1; -5; -1; -2]%float 0.5%float.

(** The finite double [f] counted in units of [2^-1074], of which every
    finite double is a whole number. *)
Definition float_units (f : float) : Z :=
  match Prim2SF f with
  | S754_finite s m e => ((if s then -1 else 1) * Z.pos m * 2 ^ (e + 1074))%Z
  | _ => 0%Z
  end.

(** C1 (amended).  When [discretise] completes, in any arithmetic, the total
    length that it reports is the sum of the lengths of the segments, added up
    in the order of the segments, and the integral length of a point is the
    sum, in the same order, of half the length of each segment, once for each
    end that the segment has at the point.  In exact arithmetic the sum of
    the integral lengths of the points is the total length. *)
Theorem discretise_length_halves :
  (forall (D : Double) isTarget levelSet (b b' : Boundary.t double),
     discretise isTarget levelSet b = Ok b' ->
     Boundary.length b' = total (map BoundarySegment.length (Boundary.segments b')) /\
     forall q p, nth_error (Boundary.points b') q = Some p ->
       BoundaryPoint.length p = total (halvesOf (Boundary.segments b') q)) /\
  (forall isTarget levelSet (b b' : Boundary.t (@double exact)),
     discretise isTarget levelSet b = Ok b' ->
     Boundary.length b' =
     total (D := exact) (map BoundaryPoint.length (Boundary.points b'))).
Proof.
  split.
  - intros D isTarget levelSet b b' H. split.
    + exact (discretise_length_total isTarget levelSet b b' H).
    + intros q p Hp.
      exact (proj2 (proj2 (discretise_lookups isTarget levelSet b b' q p H Hp))).
  - intros isTarget levelSet b b' H.
    exact (proj2 (discretise_length_sums isTarget levelSet b b' H)).
Qed.

(** The run on the sloping cut, on the doubles, and the run on the vertical
    cut, in exact arithmetic. *)
Lemma discretise_length_halves_witness :
  (exists b',
     discretise (D := binary64) true slopingCut (newBoundary (gridMesh 2 1)) = Ok b' /\
     Boundary.length b' = total (map BoundarySegment.length (Boundary.segments b')) /\
     forall q p, nth_error (Boundary.points b') q = Some p ->
       BoundaryPoint.length p = total (halvesOf (Boundary.segments b') q)) /\
  (exists b',
     discretise (D := exact) true verticalCut (newBoundary (gridMesh 1 1)) = Ok b' /\
     Boundary.length b' =
     total (D := exact) (map BoundaryPoint.length (Boundary.points b'))).
Proof.
  split.
  - assert (exists b',
      discretise (D := binary64) true slopingCut (newBoundary (gridMesh 2 1)) = Ok b')
      as (b' & Hb').
    { eexists. vm_compute. reflexivity. }
    exists b'. split; [exact Hb' | ].
    exact (proj1 discretise_length_halves binary64 true slopingCut _ b' Hb').
  - destruct verticalCut_exact as (b' & H & _).
    exists b'. split; [exact H | ].
    exact (proj2 discretise_length_halves true verticalCut _ b' H).
Defined.

(** C1 as stated fails on the doubles.  On the sloping cut the total length
    is 1.9844757082487301, the sum of the two segments, and the integral
    lengths of the three points add up, in the order of the points, to another
    double; the exact sum of the three doubles is not the total either. *)
Lemma point_lengths_counterexample :
  exists b',
    discretise (D := binary64) true slopingCut (newBoundary (gridMesh 2 1)) = Ok b' /\
    length (Boundary.segments b') = 2 /\
    length (Boundary.points b') = 3 /\
    Boundary.length b' = total (map BoundarySegment.length (Boundary.segments b')) /\
    eqb (Boundary.length b')
        (total (map BoundaryPoint.length (Boundary.points b'))) = false /\
    (fold_right Z.add 0
       (map float_units (map BoundaryPoint.length (Boundary.points b'))) =?
     float_units (Boundary.length b'))%Z = false.
Proof.
  eexists. split; [vm_compute; reflexivity | ].
  split; [reflexivity | ]. split; [reflexivity | ].
  split; [vm_compute; reflexivity | ].
  split; vm_compute; reflexivity.
Qed.

(** ** Elements with four cut edges, and the storage *)

(** Two by two elements, the nodes alternately outside and inside like the
    squares of a chessboard: the four edges of every element are cut. *)
Definition chessboard {D : Double} : LevelSet.t double :=
  levelSetOf [(- d1)%D; d1; (- d1)%D; d1; (- d1)%D; d1; (- d1)%D; d1; (- d1)%D] dhalf.

(** C3.  On the grid of two by two elements the storage has four slots.  On
    the chessboard the first element has its four edges cut: its four points
    and its two segments, paired by the rule of the sum, fill the storage.
    The second element has its four edges cut as well, and its first new
    point is written past the end of the vector: [discretise] does not get to
    its two segments. *)
Theorem discretise_four_cuts_overflow :
  let levelSet := chessboard (D := binary64) in
  let signedDistance := LevelSet.target levelSet in
  let b0 := allocate (newBoundary (gridMesh 2 2)) in
  length (Boundary.points b0) = 4 /\
  (exists m b1 e,
     computeMeshStatus signedDistance (Boundary.mesh b0) = Ok m /\
     elementStep true levelSet signedDistance 0 (Boundary.setMesh m b0) = Ok b1 /\
     Boundary.nPoints b1 = 4 /\
     firstn (Boundary.nSegments b1) (Boundary.segments b1) =
       [BoundarySegment.mk _ 0 3 0
          (distance (D := binary64) (Coord.mk _ 0.5%float 0%float) (Coord.mk _ 0%float 0.5%float));
        BoundarySegment.mk _ 1 2 0
          (distance (D := binary64) (Coord.mk _ 1%float 0.5%float) (Coord.mk _ 0.5%float 1%float))] /\
     nth_error (Mesh.elements (Boundary.mesh b1)) 0 = Some e /\
     Element.status e = ElementStatus.CENTRE_OUTSIDE /\
     elementStep true levelSet signedDistance 1 b1 = Err OutOfBounds) /\
  discretise true levelSet (newBoundary (gridMesh 2 2)) = Err OutOfBounds.
Proof.
  cbv zeta. split; [vm_compute; reflexivity | ]. split.
  - do 3 eexists.
    split; [vm_compute; reflexivity | ].
    split; [vm_compute; reflexivity | ].
    split; [reflexivity | ].
    split; [vm_compute; reflexivity | ].
    split; [reflexivity | ].
    split; vm_compute; reflexivity.
  - vm_compute. reflexivity.
Qed.

(** ** Cut points within the tolerance of each other *)

(** C5.  With the corner at the bottom right of one element inside by 1.5e-6
    and the three others outside by 2, the two cut points are 7.5e-7 from the
    corner along its two edges.  The second is within the tolerance of the
    first, [isAdded] returns the first for it, and the only segment of the
    boundary starts and ends at the one point that there is, with length
    zero. *)
Theorem discretise_degenerate_segment :
  let inside := (deps + dhalf * deps)%D in
  let outside := (d0 - (d1 + d1))%D in
  let second := edgePoint (Coord.mk _ d1 d0) 1 (inside / (inside - outside))%D in
  exists b' p,
    discretise (D := binary64) true nearCorner (newBoundary (gridMesh 1 1)) = Ok b' /\
    Boundary.points b' = [p] /\
    BoundaryPoint.coord p = edgePoint (Coord.mk _ d0 d0) 0 (outside / (outside - inside))%D /\
    samePoint second (BoundaryPoint.coord p) = true /\
    Boundary.segments b' = [BoundarySegment.mk _ 0 0 0 d0] /\
    Boundary.length b' = d0.
Proof.
  cbv zeta. do 2 eexists. split; [vm_compute; reflexivity | ].
  split; [reflexivity | ].
  split; [vm_compute; reflexivity | ].
  split; [vm_compute; reflexivity | ].
  split; reflexivity.
Qed.

(** ** Normals that are not unit vectors *)

(** C4.  On the horizontal cut of two elements the point in the middle is
    not on the edge of the domain and the nodes next to it are, so that no
    node contributes to it: its weight is zero, the division of lines 622-623
    is 0/0, and the components of its normal are not numbers.  Around the
    island the gradient at the node in the middle is zero, the division of
    lines 577-578 is 0/0, and the normals of the four points, none of which
    is on the edge of the domain, are not numbers either.  In neither run is
    the norm of the normal within 1e-6 of 1. *)
Theorem computeNormalVectors_not_unit :
  (exists b b1 isSet weight b' p,
     discretise (D := binary64) true horizontalCut (newBoundary (gridMesh 2 1)) = Ok b /\
     accumulateNormals horizontalCut b = Ok (b1, isSet, weight) /\
     nth_error weight 0 = Some d0 /\
     computeNormalVectors horizontalCut b = Ok b' /\
     nth_error (Boundary.points b') 0 = Some p /\
     BoundaryPoint.isDomain p = false /\
     PrimFloat.is_nan (fst (BoundaryPoint.normal p)) = true /\
     PrimFloat.is_nan (snd (BoundaryPoint.normal p)) = true /\
     leb (dabs (norm (BoundaryPoint.normal p) - d1)%D) deps = false) /\
  (exists b nd n b',
     discretise (D := binary64) true island (newBoundary (gridMesh 2 2)) = Ok b /\
     nth_error (Mesh.nodes (Boundary.mesh b)) 4 = Some nd /\
     nodeNormal island (Boundary.mesh b) nd = Ok n /\
     PrimFloat.is_nan (fst n) = true /\
     PrimFloat.is_nan (snd n) = true /\
     computeNormalVectors island b = Ok b' /\
     length (Boundary.points b') = 4 /\
     forallb (fun p : BoundaryPoint.t (@double binary64) => negb (BoundaryPoint.isDomain p)
                       && PrimFloat.is_nan (fst (BoundaryPoint.normal p))
                       && PrimFloat.is_nan (snd (BoundaryPoint.normal p))
                       && negb (leb (dabs (norm (D := binary64) (BoundaryPoint.normal p) - d1)%D) deps))
       (Boundary.points b') = true).
Proof.
  split.
  - do 6 eexists.
    split; [vm_compute; reflexivity | ].
    split; [vm_compute; reflexivity | ].
    split; [reflexivity | ].
    split; [vm_compute; reflexivity | ].
    split; [reflexivity | ].
    repeat split; vm_compute; reflexivity.
  - do 4 eexists.
    split; [vm_compute; reflexivity | ].
    split; [reflexivity | ].
    split; [vm_compute; reflexivity | ].
    do 2 (split; [vm_compute; reflexivity | ]).
    split; [vm_compute; reflexivity | ].
    split; [reflexivity | ].
    vm_compute. reflexivity.
Qed.

(** ** [computeNormalVectors] has no error path *)

Section Returns.
Context {D : Double}.
Variable levelSet : LevelSet.t double.













End Returns.


(** ** The edge of the domain, in exact arithmetic *)

Section EdgeOfDomain.
Open Scope R_scope.
Local Notation "'coord'" := (Coord.t (@double exact)).









End EdgeOfDomain.

(** ** The points of the boundary lie in the domain, in exact arithmetic *)

Section InDomain.
Open Scope R_scope.
Local Notation "'boundary'" := (Boundary.t (@double exact)).
Local Notation "'mesh'" := (Mesh.t (@double exact)).
Variable levelSet : LevelSet.t (@double exact).
Variable signedDistance : list R.
Variables w h : nat.



















End InDomain.

(** ** The movement limits and the flag of the points (Boundary::initialisePoint) *)

Section LimitsOfPoints.
Open Scope R_scope.
Local Notation "'boundary'" := (Boundary.t (@double exact)).





End LimitsOfPoints.






(** ** The normal of a point of weight zero, on the doubles *)

Section ZeroWeight.

(** Not a number, or an infinity. *)
Definition unbounded (f : spec_float) : Prop :=
  f = S754_nan \/ exists s, f = S754_infinity s.

Lemma Prim2SF_zero (w : float) :
  PrimFloat.eqb w 0%float = true -> exists s, Prim2SF w = S754_zero s.
Proof.
  rewrite eqb_spec. change (Prim2SF 0%float) with (S754_zero false).
  destruct (Prim2SF w) as [s|s| |s m e]; cbn; intros H;
    try discriminate; try (destruct s; discriminate).
  eauto.
Qed.

Lemma is_nan_Prim2SF (x : float) : Prim2SF x = S754_nan -> PrimFloat.is_nan x = true.
Proof. intros H. unfold PrimFloat.is_nan. rewrite eqb_spec, H. reflexivity. Qed.

(** A division by zero gives no finite number. *)
Lemma div_zero_unbounded (a w : float) s :
  Prim2SF w = S754_zero s -> unbounded (Prim2SF (a / w)%float).
Proof.
  intros Hw. rewrite div_spec, Hw. unfold unbounded.
  destruct (Prim2SF a) as [sa|sa| |sa m e]; cbn; eauto.
Qed.

(** The norm of a vector with such components is not a number or is the
    positive infinity, and the quotient by it is not a number. *)
Lemma div_norm_nan (x y : float) :
  unbounded (Prim2SF x) -> unbounded (Prim2SF y) ->
  Prim2SF (x / PrimFloat.sqrt (x * x + y * y))%float = S754_nan.
Proof.
  intros Hx Hy. rewrite div_spec, sqrt_spec, add_spec, !mul_spec.
  destruct Hx as [->|[sx ->]], Hy as [->|[sy ->]]; try reflexivity;
    try destruct sx; try destruct sy; reflexivity.
Qed.

(** The interpolated normal of a point of weight zero (lines 622-630): its
    two components are not numbers, whatever was accumulated. *)
Lemma interpolate_zero_weight (n : float * float) (w : float) :
  PrimFloat.eqb w 0%float = true ->
  PrimFloat.is_nan (fst (interpolate (D := binary64) n w)) = true /\
  PrimFloat.is_nan (snd (interpolate (D := binary64) n w)) = true.
Proof.
  intros Hw. apply Prim2SF_zero in Hw as [s Hw]. destruct n as [a c].
  pose proof (div_zero_unbounded a w s Hw) as Ha.
  pose proof (div_zero_unbounded c w s Hw) as Hc.
  unfold interpolate. cbn [fst snd add mul div dsqrt binary64]. split.
  - apply is_nan_Prim2SF, div_norm_nan; assumption.
  - apply is_nan_Prim2SF.
    replace (a / w * (a / w) + c / w * (c / w))%float
      with (c / w * (c / w) + a / w * (a / w))%float.
    + apply div_norm_nan; assumption.
    + apply Prim2SF_inj. rewrite !add_spec.
      set (u := Prim2SF (a / w * (a / w))%float).
      set (v := Prim2SF (c / w * (c / w))%float).
      assert (u = S754_nan \/ u = S754_infinity false) as Hu.
      { unfold u. rewrite mul_spec.
        destruct Ha as [->|[sa ->]]; [left; reflexivity | right; destruct sa; reflexivity]. }
      assert (v = S754_nan \/ v = S754_infinity false) as Hv.
      { unfold v. rewrite mul_spec.
        destruct Hc as [->|[sc ->]]; [left; reflexivity | right; destruct sc; reflexivity]. }
      destruct Hu as [->| ->], Hv as [->| ->]; reflexivity.
Qed.

End ZeroWeight.

(** X18.  On the doubles, when [computeNormalVectors] returns, a point that
    is not on the domain edge and whose accumulated weight is zero has a
    normal whose two components are not numbers, whatever was accumulated
    for it: the divisions of lines 622-623 and 629-630 are not guarded. *)
Theorem computeNormalVectors_zero_weight levelSet
    (b b1 b' : Boundary.t (@double binary64)) isSet weight :
  accumulateNormals levelSet b = Ok (b1, isSet, weight) ->
  computeNormalVectors levelSet b = Ok b' ->
  forall i p w,
    i < Boundary.nPoints b1 ->
    nth_error (Boundary.points b1) i = Some p ->
    nth_error weight i = Some w ->
    BoundaryPoint.isDomain p = false ->
    PrimFloat.eqb w 0%float = true ->
    exists p',
      nth_error (Boundary.points b') i = Some p' /\
      PrimFloat.is_nan (fst (BoundaryPoint.normal p')) = true /\
      PrimFloat.is_nan (snd (BoundaryPoint.normal p')) = true.
Proof.
  intros Hacc H i p w Hi Hp Hw Hdom Hzero.
  destruct (interpolate_unchecked levelSet b b1 isSet weight Hacc) as (b2 & Hb2 & Hpts).
  rewrite H in Hb2. inversion Hb2; subst b2. clear Hb2.
  destruct (Hpts i p w Hi Hp Hw Hdom) as (p' & Hp' & Hn).
  exists p'. split; [exact Hp' | ]. rewrite Hn.
  apply interpolate_zero_weight. exact Hzero.
Qed.

Lemma computeNormalVectors_zero_weight_witness :
  exists b b1 isSet weight b' p,
    discretise (D := binary64) true horizontalCut (newBoundary (gridMesh 2 1)) = Ok b /\
    accumulateNormals horizontalCut b = Ok (b1, isSet, weight) /\
    computeNormalVectors horizontalCut b = Ok b' /\
    nth_error (Boundary.points b1) 0 = Some p /\
    exists p',
      nth_error (Boundary.points b') 0 = Some p' /\
      PrimFloat.is_nan (fst (BoundaryPoint.normal p')) = true /\
      PrimFloat.is_nan (snd (BoundaryPoint.normal p')) = true.
Proof.
  assert (exists b b1 isSet weight b' p,
    discretise (D := binary64) true horizontalCut (newBoundary (gridMesh 2 1)) = Ok b /\
    accumulateNormals horizontalCut b = Ok (b1, isSet, weight) /\
    computeNormalVectors horizontalCut b = Ok b' /\
    nth_error (Boundary.points b1) 0 = Some p /\
    (0 <? Boundary.nPoints b1)%nat = true /\
    nth_error weight 0 = Some 0%float /\
    BoundaryPoint.isDomain p = false)
    as (b & b1 & isSet & weight & b' & p & Hb & Hacc & Hb' & Hp & Hn & Hw & Hdom).
  { do 6 eexists.
    split; [vm_compute; reflexivity | ].
    split; [vm_compute; reflexivity | ].
    split; [vm_compute; reflexivity | ].
    split; [reflexivity | ].
    split; [reflexivity | ].
    split; reflexivity. }
  exists b, b1, isSet, weight, b', p.
  split; [exact Hb | split; [exact Hacc | split; [exact Hb' | split; [exact Hp | ]]]].
  apply Nat.ltb_lt in Hn.
  exact (computeNormalVectors_zero_weight horizontalCut b b1 b' isSet weight Hacc Hb'
           0 p 0%float Hn Hp Hw Hdom eq_refl).
Defined.

(** X17.  When [discretise] returns on a mesh that counts all its nodes, in
    any arithmetic, every segment starts and ends at points of the boundary,
    and its length is what [segmentLength] computes from the coordinates of
    the two. *)
Theorem discretise_segment_ends {D : Double} isTarget levelSet
    (b b' : Boundary.t double) s :
  Mesh.nNodes (Boundary.mesh b) = length (Mesh.nodes (Boundary.mesh b)) ->
  discretise isTarget levelSet b = Ok b' ->
  In s (Boundary.segments b') ->
  BoundarySegment.start s < Boundary.nPoints b' /\
  BoundarySegment.end_ s < Boundary.nPoints b' /\
  exists p q,
    nth_error (Boundary.points b') (BoundarySegment.start s) = Some p /\
    nth_error (Boundary.points b') (BoundarySegment.end_ s) = Some q /\
    BoundarySegment.length s =
      distance (BoundaryPoint.coord p) (BoundaryPoint.coord q).
Proof.
  intros Hsize H Hs.
  pose proof (discretise_joins isTarget levelSet b b' Hsize H) as Hall.
  rewrite Forall_forall in Hall. exact (Hall s Hs).
Qed.

Lemma discretise_segment_ends_witness :
  exists b' s,
    discretise (D := binary64) true slopingCut (newBoundary (gridMesh 2 1)) = Ok b' /\
    In s (Boundary.segments b') /\
    BoundarySegment.start s < Boundary.nPoints b' /\
    BoundarySegment.end_ s < Boundary.nPoints b' /\
    exists p q,
      nth_error (Boundary.points b') (BoundarySegment.start s) = Some p /\
      nth_error (Boundary.points b') (BoundarySegment.end_ s) = Some q /\
      BoundarySegment.length s =
        distance (BoundaryPoint.coord p) (BoundaryPoint.coord q).
Proof.
  assert (exists b' s,
    discretise (D := binary64) true slopingCut (newBoundary (gridMesh 2 1)) = Ok b' /\
    In s (Boundary.segments b')) as (b' & s & Hb' & Hs).
  { do 2 eexists. split; [vm_compute; reflexivity | left; reflexivity]. }
  exists b', s. split; [exact Hb' | split; [exact Hs | ]].
  exact (discretise_segment_ends (D := binary64) true slopingCut
           (newBoundary (gridMesh 2 1)) b' s
           eq_refl Hb' Hs).
Defined.
